(** * The SEO engine of JobOptimizerPro, embedded from [server/seo-service.ts]

    The engine is the class [SEOService]: keyword extraction, title
    normalisation, focus phrase, meta description, scoring, recommendations
    and the sectioning and re-assembly of the posting body.  Every method is
    embedded as a Gallina function of the same name.

    JavaScript strings are sequences of UTF-16 code units; they are embedded as
    lists of code units, so that [length] is [String.prototype.length] and
    [firstn n] is [substring(0, n)]. *)

From Stdlib Require Import List NArith ZArith Lia Bool String Ascii Permutation.
Import ListNotations.
Local Open Scope N_scope.

(** ** JavaScript strings *)

Module JS.

Definition char16 := N.
Definition jsstring := list char16.

(** A string literal of the source, all of whose characters are ASCII. *)
Definition lit (s : string) : jsstring := map N_of_ascii (list_ascii_of_string s).

Fixpoint str_eqb (a b : jsstring) : bool :=
  match a, b with
  | [], [] => true
  | x :: a', y :: b' => (x =? y) && str_eqb a' b'
  | _, _ => false
  end.

(** [Array.prototype.includes] on an array of strings. *)
Definition mem (x : jsstring) (l : list jsstring) : bool := existsb (str_eqb x) l.

(** The class [\s] of a regular expression without the [u] flag, which is also
    the set [String.prototype.trim] strips: WhiteSpace and LineTerminator. *)
Definition isWhiteSpace (c : char16) : bool :=
  ((0x09 <=? c) && (c <=? 0x0D)) || (c =? 0x20) || (c =? 0xA0) || (c =? 0x1680)
  || ((0x2000 <=? c) && (c <=? 0x200A)) || (c =? 0x2028) || (c =? 0x2029)
  || (c =? 0x202F) || (c =? 0x205F) || (c =? 0x3000) || (c =? 0xFEFF).

Definition isDigit (c : char16) : bool := (0x30 <=? c) && (c <=? 0x39).
Definition isUpper (c : char16) : bool := (0x41 <=? c) && (c <=? 0x5A).
Definition isLower (c : char16) : bool := (0x61 <=? c) && (c <=? 0x7A).

(** The class [\w]: [A-Za-z0-9_]. *)
Definition isWordChar (c : char16) : bool :=
  isDigit c || isUpper c || isLower c || (c =? 0x5F).

Definition space : char16 := 0x20.
Definition hyphen : char16 := 0x2D.

(** [toUpperCase] of a single [\w] character: only [a-z] change. *)
Definition toUpperUnit (c : char16) : char16 := if isLower c then c - 32 else c.

(** [String.prototype.toLowerCase].  [A-Z] map to [a-z]; the two code units
    outside Basic Latin whose lower-case form contains a Basic Latin letter
    are U+212A (KELVIN SIGN, to [k]) and U+0130 (to [i] followed by U+0307).
    Every other code unit is kept: its real lower-case form consists of units
    that are neither ASCII nor white space, like the unit itself, and the
    engine only ever inspects a lower-cased string through [\w], [\s] and
    ASCII literals. *)
Definition toLowerUnits (c : char16) : jsstring :=
  if isUpper c then [c + 32]
  else if c =? 0x212A then [0x6B]
  else if c =? 0x0130 then [0x69; 0x0307]
  else [c].

Definition toLowerCase (s : jsstring) : jsstring := flat_map toLowerUnits s.

Fixpoint dropWhile (p : char16 -> bool) (s : jsstring) : jsstring :=
  match s with
  | [] => []
  | c :: s' => if p c then dropWhile p s' else s
  end.

Definition trimStart (s : jsstring) : jsstring := dropWhile isWhiteSpace s.

Fixpoint trimEnd (s : jsstring) : jsstring :=
  match s with
  | [] => []
  | c :: s' =>
      match trimEnd s' with
      | [] => if isWhiteSpace c then [] else [c]
      | t => c :: t
      end
  end.

Definition trim (s : jsstring) : jsstring := trimEnd (trimStart s).

Fixpoint startsWith (s p : jsstring) : bool :=
  match p, s with
  | [], _ => true
  | a :: p', b :: s' => (a =? b) && startsWith s' p'
  | _ :: _, [] => false
  end.

(** [String.prototype.includes]. *)
Fixpoint includes (s p : jsstring) : bool :=
  startsWith s p ||
  match s with
  | [] => false
  | _ :: s' => includes s' p
  end.

(** [Array.prototype.join]. *)
Fixpoint join (sep : jsstring) (l : list jsstring) : jsstring :=
  match l with
  | [] => []
  | [x] => x
  | x :: l' => x ++ sep ++ join sep l'
  end.

(** [s.replace(/\s+/g, ' ')]: every maximal run of white space becomes one
    U+0020.  [inRun] says that the previous unit belonged to a run. *)
Fixpoint collapseFrom (inRun : bool) (s : jsstring) : jsstring :=
  match s with
  | [] => []
  | c :: s' =>
      if isWhiteSpace c
      then if inRun then collapseFrom true s' else space :: collapseFrom true s'
      else c :: collapseFrom false s'
  end.

Definition collapseWhiteSpace (s : jsstring) : jsstring := collapseFrom false s.

(** [s.split(/\s+/)]: the pieces between maximal runs of white space, with an
    empty piece before a leading run and after a trailing one. *)
Fixpoint splitRunsFrom (inRun : bool) (cur : jsstring) (s : jsstring) : list jsstring :=
  match s with
  | [] => [rev cur]
  | c :: s' =>
      if isWhiteSpace c
      then if inRun then splitRunsFrom true [] s'
           else rev cur :: splitRunsFrom true [] s'
      else splitRunsFrom false (c :: cur) s'
  end.

Definition splitWhiteSpace (s : jsstring) : list jsstring := splitRunsFrom false [] s.

(** [s.split(/[...]/)] for a class of single code units. *)
Fixpoint splitOnFrom (p : char16 -> bool) (cur : jsstring) (s : jsstring) : list jsstring :=
  match s with
  | [] => [rev cur]
  | c :: s' => if p c then rev cur :: splitOnFrom p [] s' else splitOnFrom p (c :: cur) s'
  end.

Definition splitOn (p : char16 -> bool) (s : jsstring) : list jsstring := splitOnFrom p [] s.

(** [s.replace(/pat/g, rep)] for a pattern that is a non-empty literal:
    occurrences are replaced from left to right, without overlap.  [skip]
    counts the units of the current occurrence that are still to be passed. *)
Fixpoint replaceAllFrom (skip : nat) (pat rep s : jsstring) : jsstring :=
  match s with
  | [] => []
  | c :: s' =>
      match skip with
      | S k => replaceAllFrom k pat rep s'
      | O =>
          if startsWith s pat
          then rep ++ replaceAllFrom (List.length pat - 1) pat rep s'
          else c :: replaceAllFrom 0 pat rep s'
      end
  end.

Definition replaceAll (pat rep s : jsstring) : jsstring := replaceAllFrom 0 pat rep s.

(** [s.replace(pat, '')] for a string [pat]: the first occurrence is removed. *)
Fixpoint removeFirst (pat s : jsstring) : jsstring :=
  if startsWith s pat then skipn (List.length pat) s
  else match s with
       | [] => []
       | c :: s' => c :: removeFirst pat s'
       end.

(** Truthiness of a value of type [string | null]. *)
Definition truthy (o : option jsstring) : bool :=
  match o with
  | Some (_ :: _) => true
  | _ => false
  end.

(** [o || d] for [o : string | null]. *)
Definition orElse (o : option jsstring) (d : jsstring) : jsstring :=
  match o with
  | Some (c :: s) => c :: s
  | _ => d
  end.

End JS.
Import JS.

(** ** Completions

    A method either returns a value or throws.  [Unmodelled] marks the
    inputs on which this development does not say what the method does (a
    pattern built at run time that uses a construct outside the fragment of
    [Regex] below); no theorem below reads it as a returned value. *)

Inductive error := SyntaxError.

Inductive completion (A : Type) :=
| Normal (a : A)
| Throw (e : error)
| Unmodelled.
Arguments Normal {A} a.
Arguments Throw {A} e.
Arguments Unmodelled {A}.

Definition bind {A B : Type} (c : completion A) (f : A -> completion B) : completion B :=
  match c with
  | Normal a => f a
  | Throw e => Throw e
  | Unmodelled => Unmodelled
  end.

Notation "'let*' x ':=' c 'in' k" := (bind c (fun x => k))
  (at level 10, x pattern, c at level 100, k at level 200).

(** ** Regular expressions built at run time

    [identifyContentSections] and [extractSection] pass strings to
    [new RegExp(pattern, 'gi')].  [compile] is the constructor: it parses the
    pattern by the grammar of ECMAScript patterns without the [u] flag and
    throws [SyntaxError] where that grammar has no parse.  [run] is the
    backtracking matcher of the language specification, for the flags [gi]
    (ignoreCase, neither multiline nor dotAll).  Capture groups are parsed but
    their contents are not recorded, since the program only reads whole matches;
    back-references, named groups, look-behind, and the escapes [\c], [\x],
    [\u], [\k] and [\0]..[\9] are outside the fragment.  Case-insensitive
    comparison folds [a-z] with [A-Z]; code units outside Basic Latin are
    compared as they are. *)

Module Regex.

Inductive classItem :=
| ItemChar (c : char16)
| ItemRange (lo hi : char16)
| ItemDigit (negated : bool)
| ItemSpace (negated : bool)
| ItemWord (negated : bool).

Inductive regex :=
| Empty
| Char (c : char16)
| AnyChar
| Class (negated : bool) (items : list classItem)
| LineStart
| LineEnd
| WordBoundary (negated : bool)
| Seq (r1 r2 : regex)
| Alt (r1 r2 : regex)
| Repeat (r : regex) (min : nat) (max : option nat) (greedy : bool)
| Group (r : regex)
| LookAhead (negated : bool) (r : regex).

(** *** The parser *)

Inductive parsed (A : Type) :=
| Parsed (a : A) (rest : jsstring)
| Malformed
| Beyond.
Arguments Parsed {A} a rest.
Arguments Malformed {A}.
Arguments Beyond {A}.

Fixpoint decimalDigits (acc : N) (s : jsstring) : N * jsstring :=
  match s with
  | c :: s' => if isDigit c then decimalDigits (10 * acc + (c - 0x30)) s' else (acc, s)
  | [] => (acc, [])
  end.

Definition startsWithDigit (s : jsstring) : bool :=
  match s with
  | c :: _ => isDigit c
  | [] => false
  end.

(** What follows an opening brace, when it completes a quantifier
    [{n}], [{n,}] or [{n,m}]. *)
Definition bracedQuantifier (s : jsstring) : option (N * option N * jsstring) :=
  if startsWithDigit s then
    let (lo, s1) := decimalDigits 0 s in
    match s1 with
    | 0x7D :: rest => Some (lo, Some lo, rest)
    | 0x2C :: 0x7D :: rest => Some (lo, None, rest)
    | 0x2C :: s2 =>
        if startsWithDigit s2 then
          let (hi, s3) := decimalDigits 0 s2 in
          match s3 with
          | 0x7D :: rest => Some (lo, Some hi, rest)
          | _ => None
          end
        else None
    | _ => None
    end
  else None.

Definition lazyMark (s : jsstring) : bool * jsstring :=
  match s with
  | 0x3F :: rest => (false, rest)
  | _ => (true, s)
  end.

(** An atom followed by its quantifier, if there is one. *)
Definition quantified (atom : regex) (s : jsstring) : parsed regex :=
  match s with
  | 0x2A :: rest => let (g, rest') := lazyMark rest in Parsed (Repeat atom 0 None g) rest'
  | 0x2B :: rest => let (g, rest') := lazyMark rest in Parsed (Repeat atom 1 None g) rest'
  | 0x3F :: rest => let (g, rest') := lazyMark rest in Parsed (Repeat atom 0 (Some 1%nat) g) rest'
  | 0x7B :: rest =>
      match bracedQuantifier rest with
      | Some (lo, None, rest1) =>
          let (g, rest') := lazyMark rest1 in Parsed (Repeat atom (N.to_nat lo) None g) rest'
      | Some (lo, Some hi, rest1) =>
          if hi <? lo then Malformed
          else let (g, rest') := lazyMark rest1 in
               Parsed (Repeat atom (N.to_nat lo) (Some (N.to_nat hi)) g) rest'
      | None => Parsed atom s
      end
  | _ => Parsed atom s
  end.

(** The character after a backslash that stands for a class or a control
    character, inside or outside of brackets. *)
Definition sharedEscape (e : char16) : option classItem :=
  if e =? 0x64 then Some (ItemDigit false)        (* \d *)
  else if e =? 0x44 then Some (ItemDigit true)    (* \D *)
  else if e =? 0x73 then Some (ItemSpace false)   (* \s *)
  else if e =? 0x53 then Some (ItemSpace true)    (* \S *)
  else if e =? 0x77 then Some (ItemWord false)    (* \w *)
  else if e =? 0x57 then Some (ItemWord true)     (* \W *)
  else if e =? 0x66 then Some (ItemChar 0x0C)     (* \f *)
  else if e =? 0x6E then Some (ItemChar 0x0A)     (* \n *)
  else if e =? 0x72 then Some (ItemChar 0x0D)     (* \r *)
  else if e =? 0x74 then Some (ItemChar 0x09)     (* \t *)
  else if e =? 0x76 then Some (ItemChar 0x0B)     (* \v *)
  else None.

(** Escapes whose reading depends on the rest of the pattern. *)
Definition unmodelledEscape (e : char16) : bool :=
  isDigit e || (e =? 0x63) || (e =? 0x78) || (e =? 0x75) || (e =? 0x6B).

Definition classAtom (s : jsstring) : parsed classItem :=
  match s with
  | [] => Malformed
  | 0x5C :: [] => Malformed
  | 0x5C :: e :: rest =>
      match sharedEscape e with
      | Some i => Parsed i rest
      | None =>
          if unmodelledEscape e then Beyond
          else if e =? 0x62 then Parsed (ItemChar 0x08) rest   (* [\b] is backspace *)
          else Parsed (ItemChar e) rest
      end
  | c :: rest => Parsed (ItemChar c) rest
  end.

(** The contents of a bracketed class, up to and including the closing bracket. *)
Fixpoint classItems (fuel : nat) (s : jsstring) (acc : list classItem)
  : parsed (list classItem) :=
  match fuel with
  | O => Beyond
  | S fuel' =>
      match s with
      | [] => Malformed
      | 0x5D :: rest => Parsed (rev acc) rest
      | _ =>
          match classAtom s with
          | Parsed a (0x2D :: []) => Malformed
          | Parsed a (0x2D :: 0x5D :: rest) => classItems fuel' (0x2D :: 0x5D :: rest) (a :: acc)
          | Parsed a (0x2D :: rest2) =>
              match classAtom rest2 with
              | Parsed b rest3 =>
                  match a, b with
                  | ItemChar lo, ItemChar hi =>
                      if hi <? lo then Malformed
                      else classItems fuel' rest3 (ItemRange lo hi :: acc)
                  | _, _ => classItems fuel' rest3 (b :: ItemChar 0x2D :: a :: acc)
                  end
              | Malformed => Malformed
              | Beyond => Beyond
              end
          | Parsed a rest1 => classItems fuel' rest1 (a :: acc)
          | Malformed => Malformed
          | Beyond => Beyond
          end
      end
  end.

Definition bracketed (s : jsstring) : parsed regex :=
  let (negated, body) :=
    match s with
    | 0x5E :: rest => (true, rest)
    | _ => (false, s)
    end in
  match classItems (S (List.length body)) body [] with
  | Parsed items rest => Parsed (Class negated items) rest
  | Malformed => Malformed
  | Beyond => Beyond
  end.

Definition closing {A : Type} (p : parsed regex) (wrap : regex -> regex)
  (k : regex -> jsstring -> parsed A) : parsed A :=
  match p with
  | Parsed r (0x29 :: rest) => k (wrap r) rest
  | Parsed _ _ => Malformed
  | Malformed => Malformed
  | Beyond => Beyond
  end.

Fixpoint disjunction (fuel : nat) (s : jsstring) {struct fuel} : parsed regex :=
  match fuel with
  | O => Beyond
  | S fuel' =>
      match alternative fuel' s with
      | Parsed r (0x7C :: rest) =>
          match disjunction fuel' rest with
          | Parsed r2 rest2 => Parsed (Alt r r2) rest2
          | other => other
          end
      | other => other
      end
  end
with alternative (fuel : nat) (s : jsstring) {struct fuel} : parsed regex :=
  match fuel with
  | O => Beyond
  | S fuel' =>
      match s with
      | [] => Parsed Empty []
      | c :: rest =>
          if (c =? 0x7C) || (c =? 0x29) then Parsed Empty s
          else
            match term fuel' c rest with
            | Parsed r rest1 =>
                match alternative fuel' rest1 with
                | Parsed r2 rest2 => Parsed (Seq r r2) rest2
                | other => other
                end
            | other => other
            end
      end
  end
with term (fuel : nat) (c : char16) (rest : jsstring) {struct fuel} : parsed regex :=
  match fuel with
  | O => Beyond
  | S fuel' =>
      if c =? 0x5E then Parsed LineStart rest
      else if c =? 0x24 then Parsed LineEnd rest
      else if (c =? 0x2A) || (c =? 0x2B) || (c =? 0x3F) then Malformed
      else if c =? 0x7B then
        match bracedQuantifier rest with
        | Some _ => Malformed
        | None => quantified (Char c) rest
        end
      else if c =? 0x2E then quantified AnyChar rest
      else if c =? 0x5B then
        match bracketed rest with
        | Parsed r rest1 => quantified r rest1
        | other => other
        end
      else if c =? 0x5C then
        match rest with
        | [] => Malformed
        | e :: rest1 =>
            if e =? 0x62 then Parsed (WordBoundary false) rest1
            else if e =? 0x42 then Parsed (WordBoundary true) rest1
            else match sharedEscape e with
                 | Some (ItemChar x) => quantified (Char x) rest1
                 | Some i => quantified (Class false [i]) rest1
                 | None => if unmodelledEscape e then Beyond else quantified (Char e) rest1
                 end
        end
      else if c =? 0x28 then
        match rest with
        | 0x3F :: 0x3A :: body => closing (disjunction fuel' body) Group quantified
        | 0x3F :: 0x3D :: body => closing (disjunction fuel' body) (LookAhead false) quantified
        | 0x3F :: 0x21 :: body => closing (disjunction fuel' body) (LookAhead true) quantified
        | 0x3F :: _ => Beyond
        | body => closing (disjunction fuel' body) Group quantified
        end
      else quantified (Char c) rest
  end.

(** [new RegExp(pattern, 'gi')]. *)
Definition compile (pattern : jsstring) : completion regex :=
  match disjunction (4 * List.length pattern + 4) pattern with
  | Parsed r [] => Normal r
  | Parsed _ (_ :: _) => Throw SyntaxError
  | Malformed => Throw SyntaxError
  | Beyond => Unmodelled
  end.

(** *** The matcher *)

(** A position in the subject: the units before it, nearest first, and the
    units from it on. *)
Record cursor := mkCursor { before : jsstring; after : jsstring }.

Definition cont := cursor -> option cursor.

Definition canonicalize (c : char16) : char16 := toUpperUnit c.

Definition otherCase (c : char16) : char16 :=
  if isLower c then c - 32 else if isUpper c then c + 32 else c.

Definition itemMatches (ch : char16) (i : classItem) : bool :=
  match i with
  | ItemChar c => canonicalize c =? canonicalize ch
  | ItemRange lo hi =>
      ((lo <=? ch) && (ch <=? hi)) || ((lo <=? otherCase ch) && (otherCase ch <=? hi))
  | ItemDigit negated => xorb negated (isDigit ch)
  | ItemSpace negated => xorb negated (isWhiteSpace ch)
  | ItemWord negated => xorb negated (isWordChar ch)
  end.

Definition isLineTerminator (c : char16) : bool :=
  (c =? 0x0A) || (c =? 0x0D) || (c =? 0x2028) || (c =? 0x2029).

Definition consume (p : char16 -> bool) (x : cursor) (k : cont) : option cursor :=
  match after x with
  | ch :: rest => if p ch then k (mkCursor (ch :: before x) rest) else None
  | [] => None
  end.

Definition wordAt (s : jsstring) : bool :=
  match s with
  | c :: _ => isWordChar c
  | [] => false
  end.

(** RepeatMatcher: [m] is the matcher of the repeated atom.  An iteration
    that matches the empty string once [min] is reached is refused, so every
    call either lowers [min] or moves the cursor; [fuel] is given accordingly. *)
Fixpoint repeatLoop (fuel : nat) (m : cursor -> cont -> option cursor)
  (min : nat) (max : option nat) (greedy : bool) (x : cursor) (k : cont) : option cursor :=
  match fuel with
  | O => None
  | S fuel' =>
      match max with
      | Some O => k x
      | _ =>
          let d := fun y =>
            if Nat.eqb min 0 && Nat.eqb (List.length (after y)) (List.length (after x))
            then None
            else repeatLoop fuel' m (Nat.pred min) (option_map Nat.pred max) greedy y k in
          if negb (Nat.eqb min 0) then m x d
          else if greedy then
            match m x d with
            | Some z => Some z
            | None => k x
            end
          else
            match k x with
            | Some z => Some z
            | None => m x d
            end
      end
  end.

Fixpoint run (r : regex) (x : cursor) (k : cont) {struct r} : option cursor :=
  match r with
  | Empty => k x
  | Char c => consume (fun ch => canonicalize ch =? canonicalize c) x k
  | AnyChar => consume (fun ch => negb (isLineTerminator ch)) x k
  | Class negated items => consume (fun ch => xorb negated (existsb (itemMatches ch) items)) x k
  | LineStart => match before x with [] => k x | _ => None end
  | LineEnd => match after x with [] => k x | _ => None end
  | WordBoundary negated =>
      if xorb negated (xorb (wordAt (before x)) (wordAt (after x))) then k x else None
  | Seq r1 r2 => run r1 x (fun y => run r2 y k)
  | Alt r1 r2 =>
      match run r1 x k with
      | Some z => Some z
      | None => run r2 x k
      end
  | Repeat r0 min max greedy =>
      repeatLoop (min + List.length (after x) + 2) (run r0) min max greedy x k
  | Group r0 => run r0 x k
  | LookAhead negated r0 =>
      match run r0 x Some with
      | Some _ => if negated then None else k x
      | None => if negated then k x else None
      end
  end.

(** RegExpBuiltinExec from a position: the leftmost position at which the
    pattern matches, with the end of the match. *)
Fixpoint exec (r : regex) (seen s : jsstring) : option (cursor * cursor) :=
  match run r (mkCursor seen s) Some with
  | Some e => Some (mkCursor seen s, e)
  | None =>
      match s with
      | [] => None
      | c :: s' => exec r (c :: seen) s'
      end
  end.

Definition span (from to : cursor) : jsstring :=
  firstn (List.length (after from) - List.length (after to)) (after from).

(** [s.match(regex)] for a global regex: all matches from left to right; the
    empty list stands for [null]. *)
Fixpoint matchAllFrom (fuel : nat) (r : regex) (seen s : jsstring) : list jsstring :=
  match fuel with
  | O => []
  | S fuel' =>
      match exec r seen s with
      | None => []
      | Some (b, e) =>
          span b e ::
          match span b e, after e with
          | [], [] => []
          | [], c :: s' => matchAllFrom fuel' r (c :: before e) s'
          | _ :: _, _ => matchAllFrom fuel' r (before e) (after e)
          end
      end
  end.

Definition matchAll (r : regex) (s : jsstring) : list jsstring :=
  matchAllFrom (S (S (List.length s))) r [] s.

(** [s.replace(regex, '')] for a global regex. *)
Fixpoint removeAllFrom (fuel : nat) (r : regex) (seen s : jsstring) : jsstring :=
  match fuel with
  | O => s
  | S fuel' =>
      match exec r seen s with
      | None => s
      | Some (b, e) =>
          span (mkCursor seen s) b ++
          match span b e, after e with
          | [], [] => []
          | [], c :: s' => c :: removeAllFrom fuel' r (c :: before e) s'
          | _ :: _, _ => removeAllFrom fuel' r (before e) (after e)
          end
      end
  end.

Definition removeAll (r : regex) (s : jsstring) : jsstring :=
  removeAllFrom (S (S (List.length s))) r [] s.

End Regex.

(** ** The posting

    [Job] is the row type of the table [jobs] of the shared schema: [title]
    and [description] are [notNull] text columns, the other text columns are
    [string | null].  The columns the engine never reads ([id], [wpJobId],
    [status], [seoScore], the timestamps) are left out. *)

Record Job := mkJob {
  title : jsstring;
  description : jsstring;
  company : option jsstring;
  location : option jsstring;
  jobType : option jsstring;
  category : option jsstring;
  salary : option jsstring;
  focusKeyphrase : option jsstring;
  metaDescription : option jsstring
}.

(** A slot of the [frequency] object of [extractKeywords].  It holds a count,
    except for a word that names a function of [Object.prototype]: there
    [frequency[word] || 0] is that function, and adding [1] to it yields a
    string that no arithmetic reads as a number. *)
Inductive tally := Count (n : N) | NotANumber.

Record KeywordData := mkKeyword {
  term : jsstring;
  frequency : tally;
  relevance : N   (* 2 for 2.0, 1 for 1.0 *)
}.

Record SEOAnalysis := mkAnalysis {
  score : Z;
  recommendations : list jsstring;
  analysisFocusKeyphrase : jsstring;
  analysisMetaDescription : jsstring;
  optimizedTitle : jsstring
}.

Module SEOService.

Definition industryKeywords : list jsstring := map lit [
  "healthcare"; "software"; "engineer"; "manager"; "analyst"; "remote"; "full time";
  "part time"; "senior"; "junior"; "assistant"; "director"; "coordinator";
  "south africa"; "cape town"; "johannesburg"; "durban"; "pretoria";
  "nursing"; "pharmacy"; "medical"; "hospital"; "clinic";
  "developer"; "programmer"; "technical"; "IT"; "technology";
  "marketing"; "sales"; "customer service"; "administration";
  "finance"; "accounting"; "banking"; "insurance";
  "education"; "teaching"; "training"; "academic";
  "construction"; "engineering"; "maintenance"; "operations"
]%string.

Definition stopWords : list jsstring := map lit [
  "the"; "a"; "an"; "and"; "or"; "but"; "in"; "on"; "at"; "to"; "for"; "of"; "with";
  "by"; "is"; "are"; "was"; "were"; "be"; "been"; "being"; "have"; "has"; "had";
  "do"; "does"; "did"; "will"; "would"; "should"; "could"; "can"; "may"; "might";
  "this"; "that"; "these"; "those"; "i"; "you"; "he"; "she"; "it"; "we"; "they"
]%string.

(** *** extractKeywords *)

(** The words kept by [extractKeywords]:
    [content.replace(/[^\w\s]/g, ' ').split(/\s+/).filter(...)]. *)
Definition retainedWords (content : jsstring) : list jsstring :=
  filter (fun word => (2 <? List.length word)%nat && negb (mem word stopWords))
    (splitWhiteSpace
       (map (fun c => if isWordChar c || isWhiteSpace c then c else space) content)).

(** What [frequency[word]] finds on [Object.prototype] when [word] is not yet
    an own property of [frequency]. *)
Inductive inherited := NoMember | FunctionMember | ProtoAccessor.

Definition protoFunctions : list jsstring := map lit [
  "constructor"; "hasOwnProperty"; "isPrototypeOf"; "propertyIsEnumerable";
  "toLocaleString"; "toString"; "valueOf"; "__defineGetter__";
  "__defineSetter__"; "__lookupGetter__"; "__lookupSetter__"
]%string.

Definition inheritedMember (word : jsstring) : inherited :=
  if str_eqb word (lit "__proto__") then ProtoAccessor
  else if mem word protoFunctions then FunctionMember
  else NoMember.

(** The own properties of [frequency], in the order of their creation. *)
Definition slots := list (jsstring * tally).

Fixpoint lookup (word : jsstring) (f : slots) : option tally :=
  match f with
  | [] => None
  | (k, v) :: f' => if str_eqb word k then Some v else lookup word f'
  end.

Fixpoint update (word : jsstring) (v : tally) (f : slots) : slots :=
  match f with
  | [] => []
  | (k, w) :: f' => if str_eqb word k then (k, v) :: f' else (k, w) :: update word v f'
  end.

(** [frequency[word] = (frequency[word] || 0) + 1].  An assignment to
    [__proto__] runs the setter of [Object.prototype] with a string, which
    does nothing. *)
Definition bump (f : slots) (word : jsstring) : slots :=
  match lookup word f with
  | Some (Count n) => update word (Count (n + 1)) f
  | Some NotANumber => f
  | None =>
      match inheritedMember word with
      | NoMember => f ++ [(word, Count 1)]
      | FunctionMember => f ++ [(word, NotANumber)]
      | ProtoAccessor => f
      end
  end.

Definition countWords (words : list jsstring) : slots := fold_left bump words [].

(** The value of a term that is a canonical array index (decimal digits, no
    leading zero, at most 2^32 - 2). *)
Fixpoint decimalValue (acc : N) (s : jsstring) : option N :=
  match s with
  | [] => Some acc
  | c :: s' => if isDigit c then decimalValue (10 * acc + (c - 0x30)) s' else None
  end.

Definition arrayIndex (s : jsstring) : option N :=
  match s with
  | [] => None
  | c :: s' =>
      if (c =? 0x30) && negb (Nat.eqb (List.length s') 0) then None
      else match decimalValue 0 s with
           | Some n => if n <=? 4294967294 then Some n else None
           | None => None
           end
  end.

Definition isArrayIndex (s : jsstring) : bool :=
  match arrayIndex s with Some _ => true | None => false end.

(** [Array.prototype.sort(compare)], a stable sort: [after a b] says that
    [compare(a, b) > 0], that is, [a] is to come after [b]. *)
Section Sort.
Context {A : Type} (after : A -> A -> bool).

Fixpoint insertSorted (x : A) (l : list A) : list A :=
  match l with
  | [] => [x]
  | y :: l' => if after x y then y :: insertSorted x l' else x :: l
  end.

Definition sort (l : list A) : list A := fold_right insertSorted [] l.
End Sort.

(** [Object.entries(frequency)]: the own properties whose key is an array
    index come first, by ascending index; the others follow in the order of
    their creation. *)
Definition indexOf (e : jsstring * tally) : N :=
  match arrayIndex (fst e) with Some n => n | None => 0 end.

Definition entries (f : slots) : slots :=
  sort (fun a b => indexOf b <? indexOf a) (filter (fun e => isArrayIndex (fst e)) f)
  ++ filter (fun e => negb (isArrayIndex (fst e))) f.

(** *** calculateRelevance *)

Definition calculateRelevance (t : jsstring) : N :=
  if existsb (fun keyword => includes keyword t || includes t keyword) industryKeywords
  then 2 else 1.

(** [k.frequency * k.relevance]; [None] is NaN. *)
Definition rankKey (k : KeywordData) : option N :=
  match frequency k with
  | Count n => Some (n * relevance k)
  | NotANumber => None
  end.

(** [(b.frequency * b.relevance) - (a.frequency * a.relevance) > 0]; a
    comparison with NaN is false. *)
Definition rankedAfter (a b : KeywordData) : bool :=
  match rankKey a, rankKey b with
  | Some ka, Some kb => ka <? kb
  | _, _ => false
  end.

Definition extractKeywords (content : jsstring) : list KeywordData :=
  let words := retainedWords content in
  let frequency := countWords words in
  let keywords :=
    sort rankedAfter
      (map (fun e => mkKeyword (fst e) (snd e) (calculateRelevance (fst e)))
           (entries frequency)) in
  firstn 20 keywords.

(** *** generateFocusKeyphrase *)

Definition generateFocusKeyphrase (keywords : list KeywordData) (job : Job) : jsstring :=
  let topKeywords := map term (firstn 3 keywords) in
  let location :=
    option_map
      (fun l => trim (filter (fun c => isWordChar c || isWhiteSpace c) (toLowerCase l)))
      (location job) in
  let topKeywords :=
    match location with
    | Some (c :: l) =>
        if negb (mem (c :: l) topKeywords) then topKeywords ++ [c :: l] else topKeywords
    | _ => topKeywords
    end in
  join (lit " ") (firstn 3 topKeywords).

(** *** generateMetaDescription *)

(** The description as assembled before the length check. *)
Definition metaTemplate (job : Job) : jsstring :=
  let company := orElse (company job) (lit "Leading company") in
  let location := orElse (location job) (lit "South Africa") in
  let jobType := orElse (jobType job) (lit "position") in
  let description :=
    lit "Join " ++ company ++ lit " as a " ++ title job ++ lit " in " ++ location ++ lit ". " in
  let description :=
    match salary job with
    | Some (c :: s) => description ++ lit "Competitive salary " ++ (c :: s) ++ lit ". "
    | _ => description
    end in
  description ++ lit "Apply now for this exciting " ++ jobType ++ lit " opportunity.".

Definition generateMetaDescription (job : Job) : jsstring :=
  let description := metaTemplate job in
  if (160 <? List.length description)%nat
  then firstn 157 description ++ lit "..."
  else description.

(** *** optimizeTitle *)

(** The character class of the first replacement of [optimizeTitle], in the
    order of the source; 0x22 is the double quote.  The hyphen is not in it. *)
Definition titlePunctuation : jsstring :=
  lit "!@#$%^&*()_+={}[]|\:" ++ [0x22] ++ lit ";'<>?,./~`".

Definition isTitlePunctuation (c : char16) : bool := existsb (N.eqb c) titlePunctuation.

(** [s.replace(/\b\w/g, letter => letter.toUpperCase())]: a [\w] unit that
    follows no [\w] unit is upper-cased.  [prevWord] says whether the unit
    before is in [\w]. *)
Fixpoint capitalizeFrom (prevWord : bool) (s : jsstring) : jsstring :=
  match s with
  | [] => []
  | c :: s' =>
      (if isWordChar c && negb prevWord then toUpperUnit c else c)
      :: capitalizeFrom (isWordChar c) s'
  end.

Definition capitalizeWords (s : jsstring) : jsstring := capitalizeFrom false s.

(** The title after the first statement of [optimizeTitle]. *)
Definition cleanTitle (title : jsstring) : jsstring :=
  trim (collapseWhiteSpace (map (fun c => if isTitlePunctuation c then space else c) title)).

Definition hasLocalityMarker (s : jsstring) : bool :=
  includes (toLowerCase s) (lit "remote")
  || includes (toLowerCase s) (lit "south africa")
  || includes (toLowerCase s) (lit "cape town")
  || includes (toLowerCase s) (lit "johannesburg").

Definition optimizeTitle (title : jsstring) : jsstring :=
  let optimized := cleanTitle title in
  let optimized := capitalizeWords optimized in
  if negb (includes (toLowerCase optimized) (lit "remote"))
     && negb (includes (toLowerCase optimized) (lit "south africa"))
     && negb (includes (toLowerCase optimized) (lit "cape town"))
     && negb (includes (toLowerCase optimized) (lit "johannesburg"))
  then optimized ++ lit " - South Africa"
  else optimized.

(** *** calculateSEOScore *)

Definition nonEmpty (s : jsstring) : bool :=
  match s with
  | [] => false
  | _ :: _ => true
  end.

(** [t >= n], [t <= n] and [t < n] for a slot [t]; every comparison with
    NaN is false. *)
Definition tallyGe (t : tally) (n : N) : bool :=
  match t with Count m => n <=? m | NotANumber => false end.
Definition tallyLe (t : tally) (n : N) : bool :=
  match t with Count m => m <=? n | NotANumber => false end.
Definition tallyLt (t : tally) (n : N) : bool :=
  match t with Count m => m <? n | NotANumber => false end.

(** The value of the variable [score] when the [return] statement of
    [calculateSEOScore] is reached. *)
Definition scoreBeforeClamp (job : Job) (keywords : list KeywordData) : Z :=
  let score := 50%Z in
  let score :=
    if nonEmpty (title job) && (10 <=? List.length (title job))%nat
       && (List.length (title job) <=? 60)%nat
    then (score + 10)%Z else score in
  let score :=
    if nonEmpty (description job) && (150 <=? List.length (description job))%nat
       && (List.length (description job) <=? 2000)%nat
    then (score + 10)%Z else score in
  let score :=
    match hd_error keywords with
    | Some topKeyword =>
        if tallyGe (frequency topKeyword) 2 && tallyLe (frequency topKeyword) 5
        then (score + 10)%Z else score
    | None => score
    end in
  let score :=
    match company job with
    | Some (c :: s) => if (0 <? List.length (c :: s))%nat then (score + 5)%Z else score
    | _ => score
    end in
  let score :=
    match location job with
    | Some (c :: s) => if (0 <? List.length (c :: s))%nat then (score + 5)%Z else score
    | _ => score
    end in
  let score :=
    match jobType job with
    | Some (c :: s) => if (0 <? List.length (c :: s))%nat then (score + 5)%Z else score
    | _ => score
    end in
  let score :=
    match category job with
    | Some (c :: s) => if (0 <? List.length (c :: s))%nat then (score + 5)%Z else score
    | _ => score
    end in
  let score := if truthy (focusKeyphrase job) then (score + 10)%Z else score in
  let score := if truthy (metaDescription job) then (score + 10)%Z else score in
  score.

(** The third parameter, [focusKeyphrase] in the source, is never read. *)
Definition calculateSEOScore (job : Job) (keywords : list KeywordData)
  (_ : jsstring) : Z :=
  let score := scoreBeforeClamp job keywords in
  Z.min 100 (Z.max 0 score).

(** *** generateRecommendations *)

Definition pushIf (b : bool) (item : jsstring) (l : list jsstring) : list jsstring :=
  if b then l ++ [item] else l.

Definition generateRecommendations (job : Job) (score : Z) (keywords : list KeywordData)
  : list jsstring :=
  let recommendations := [] in
  let recommendations :=
    pushIf (negb (nonEmpty (title job)) || (List.length (title job) <? 10)%nat)
      (lit "Improve job title - should be 10-60 characters long") recommendations in
  let recommendations :=
    pushIf (negb (nonEmpty (description job)) || (List.length (description job) <? 150)%nat)
      (lit "Add more detailed job description (minimum 150 characters)") recommendations in
  let recommendations :=
    pushIf (negb (truthy (company job)))
      (lit "Add company name for better credibility") recommendations in
  let recommendations :=
    pushIf (negb (truthy (location job)))
      (lit "Specify job location for better local SEO") recommendations in
  let recommendations :=
    pushIf (negb (truthy (focusKeyphrase job)))
      (lit "Add focus keyphrase for better search ranking") recommendations in
  let recommendations :=
    pushIf (negb (truthy (metaDescription job)))
      (lit "Create compelling meta description to improve click-through rate")
      recommendations in
  let recommendations :=
    match keywords with
    | topKeyword :: _ =>
        pushIf (tallyLt (frequency topKeyword) 2)
          (lit "Include " ++ [0x22] ++ term topKeyword ++ [0x22]
           ++ lit " more frequently in the description") recommendations
    | [] => recommendations
    end in
  let recommendations :=
    pushIf (score <? 70)%Z
      (lit "Overall SEO optimization needed - consider professional review")
      recommendations in
  recommendations.

(** *** analyzeJob *)

Definition analysisContent (job : Job) : jsstring :=
  let title := toLowerCase (title job) in
  let description := toLowerCase (description job) in
  toLowerCase
    (title ++ lit " " ++ description ++ lit " " ++ orElse (company job) []
     ++ lit " " ++ orElse (location job) []).

Definition analyzeJob (job : Job) : SEOAnalysis :=
  let content := analysisContent job in
  let keywords := extractKeywords content in
  let focusKeyphrase := generateFocusKeyphrase keywords job in
  let metaDescription := generateMetaDescription job in
  let optimizedTitle := optimizeTitle (title job) in
  let score := calculateSEOScore job keywords focusKeyphrase in
  let recommendations := generateRecommendations job score keywords in
  mkAnalysis score recommendations focusKeyphrase metaDescription optimizedTitle.

(** *** extractListItems *)

(** The class [[-\u2022\u00B7]] of the split: hyphen, bullet, middle dot. *)
Definition isBulletDelimiter (c : char16) : bool :=
  (c =? 0x2D) || (c =? 0x2022) || (c =? 0xB7).

Definition extractListItems (section : jsstring) : list jsstring :=
  let items :=
    filter (fun item => (10 <? List.length item)%nat && (List.length item <? 150)%nat)
      (map trim (splitOn isBulletDelimiter section)) in
  firstn 8 items.

(** *** extractSection *)

Fixpoint extractSection (content : jsstring) (keywords : list jsstring)
  : completion jsstring :=
  match keywords with
  | [] => Normal []
  | keyword :: keywords' =>
      let* regex := Regex.compile (lit "\b" ++ keyword ++ lit "[\s\S]{0,500}") in
      match Regex.matchAll regex content with
      | m :: _ => Normal m
      | [] => extractSection content keywords'
      end
  end.

(** *** identifyContentSections *)

Record ContentSections := mkSections {
  overview : jsstring;
  responsibilities : list jsstring;
  requirements : list jsstring;
  skills : list jsstring;
  companyInfo : jsstring;
  applicationInfo : jsstring;
  contactInfo : jsstring
}.

Definition contactSource : jsstring :=
  lit "(?:contact|call|phone|email)[\s\S]*?(?:\d{3}[\s-]?\d{3}[\s-]?\d{4}|\d{10}|[\w.-]+@[\w.-]+)".

(** The regular expression literal of the contact scan, as [Regex.compile]
    reads its source. *)
Definition contactPattern : Regex.regex :=
  Eval vm_compute in
    match Regex.compile contactSource with
    | Normal r => r
    | _ => Regex.Empty
    end.

Definition responsibilityKeywords : list jsstring :=
  map lit ["responsibilities"; "duties"; "tasks"; "role"; "position"; "areas include"]%string.
Definition requirementKeywords : list jsstring :=
  map lit ["requirements"; "qualifications"; "experience"; "education"; "minimum"; "must have"]%string.
Definition skillKeywords : list jsstring :=
  map lit ["skills"; "competencies"; "abilities"; "technical"; "software"; "computer"]%string.
Definition companyKeywords : list jsstring :=
  map lit ["company"; "organization"; "group"; "about us"; "our"; "we are"]%string.

Definition identifyContentSections (content : jsstring) : completion ContentSections :=
  let contactMatches := Regex.matchAll contactPattern content in
  let* (contactInfo, content) :=
    match contactMatches with
    | [] => Normal ([], content)
    | _ :: _ =>
        let* regex := Regex.compile (join (lit "|") contactMatches) in
        Normal (trim (join (lit " ") contactMatches), Regex.removeAll regex content)
    end in
  let* responsibilitySection := extractSection content responsibilityKeywords in
  let (responsibilities, content) :=
    if nonEmpty responsibilitySection
    then (extractListItems responsibilitySection, removeFirst responsibilitySection content)
    else ([], content) in
  let* requirementSection := extractSection content requirementKeywords in
  let (requirements, content) :=
    if nonEmpty requirementSection
    then (extractListItems requirementSection, removeFirst requirementSection content)
    else ([], content) in
  let* skillSection := extractSection content skillKeywords in
  let (skills, content) :=
    if nonEmpty skillSection
    then (extractListItems skillSection, removeFirst skillSection content)
    else ([], content) in
  let* companySection := extractSection content companyKeywords in
  let (companyInfo, content) :=
    if nonEmpty companySection
    then (firstn 300 companySection, removeFirst companySection content)
    else ([], content) in
  Normal (mkSections (firstn 200 (trim content)) responsibilities requirements skills
            companyInfo [] contactInfo).

(** *** restructureContent *)

(** The body after the first statement of [restructureContent]. *)
Definition normalizeBody (description : jsstring) : jsstring :=
  trim (collapseWhiteSpace
          (replaceAll (lit "&#038;") (lit "&")
             (replaceAll (lit "&#8211;") (lit "-") description))).

Definition newline : jsstring := [0x0A].

Definition paragraph (heading body : jsstring) (last : bool) : jsstring :=
  lit "<h2>" ++ heading ++ lit "</h2>" ++ newline ++ lit "<p>" ++ body ++ lit "</p>"
  ++ newline ++ (if last then [] else newline).

Definition bulleted (heading : jsstring) (items : list jsstring) : jsstring :=
  lit "<h2>" ++ heading ++ lit "</h2>" ++ newline ++ lit "<ul>" ++ newline
  ++ flat_map (fun item => lit "<li>" ++ item ++ lit "</li>" ++ newline) items
  ++ lit "</ul>" ++ newline ++ newline.

(** The markup built from the sections, before the fallback. *)
Definition structure (sections : ContentSections) : jsstring :=
  let structuredContent := [] in
  let structuredContent :=
    if nonEmpty (overview sections)
    then structuredContent ++ paragraph (lit "Job Overview") (overview sections) false
    else structuredContent in
  let structuredContent :=
    if (0 <? List.length (responsibilities sections))%nat
    then structuredContent ++ bulleted (lit "Key Responsibilities") (responsibilities sections)
    else structuredContent in
  let structuredContent :=
    if (0 <? List.length (requirements sections))%nat
    then structuredContent ++ bulleted (lit "Requirements") (requirements sections)
    else structuredContent in
  let structuredContent :=
    if (0 <? List.length (skills sections))%nat
    then structuredContent ++ bulleted (lit "Required Skills") (skills sections)
    else structuredContent in
  let structuredContent :=
    if nonEmpty (companyInfo sections)
    then structuredContent ++ paragraph (lit "About the Company") (companyInfo sections) false
    else structuredContent in
  let structuredContent :=
    if nonEmpty (applicationInfo sections)
    then structuredContent ++ paragraph (lit "How to Apply") (applicationInfo sections) false
    else structuredContent in
  let structuredContent :=
    if nonEmpty (contactInfo sections)
    then structuredContent ++ paragraph (lit "Contact Information") (contactInfo sections) true
    else structuredContent in
  structuredContent.

Definition restructureContent (job : Job) : completion jsstring :=
  let content := normalizeBody (description job) in
  let* sections := identifyContentSections content in
  let structuredContent := structure sections in
  Normal (if nonEmpty structuredContent then structuredContent else content).

(** *** optimizeJobSEO *)

Record Optimization := mkOptimization {
  optFocusKeyphrase : jsstring;
  optMetaDescription : jsstring;
  optOptimizedTitle : jsstring;
  optimizedContent : jsstring;
  optRecommendations : list jsstring;
  seoScore : Z
}.

Definition orText (s d : jsstring) : jsstring := if nonEmpty s then s else d.

Definition optimizeJobSEO (job : Job) : completion Optimization :=
  let analysis := analyzeJob job in
  let* optimizedContent := restructureContent job in
  Normal (mkOptimization
            (orText (analysisFocusKeyphrase analysis) [])
            (orText (analysisMetaDescription analysis) [])
            (orText (optimizedTitle analysis) (title job))
            optimizedContent
            (recommendations analysis)
            (score analysis)).

End SEOService.
Import SEOService.

(** ** The specification's formulations

    Definitions that follow the words of the specification, to be compared
    with the methods above. *)

Module Spec.

Definition inRange (lo hi n : nat) : bool := (lo <=? n)%nat && (n <=? hi)%nat.

(** A field is present when it holds a non-empty string. *)
Definition present (field : option jsstring) : bool :=
  match field with
  | Some s => negb (Nat.eqb (List.length s) 0)
  | None => false
  end.

Definition topFrequencyInRange (lo hi : N) (keywords : list KeywordData) : bool :=
  match keywords with
  | k :: _ =>
      match frequency k with
      | Count n => (lo <=? n) && (n <=? hi)
      | NotANumber => false
      end
  | [] => false
  end.

Definition bonus (applies : bool) (points : Z) : Z := if applies then points else 0%Z.

(** Base 50 plus the nine bonuses of the scoring table. *)
Definition rubric (job : Job) (keywords : list KeywordData) : Z :=
  (50
   + bonus (inRange 10 60 (List.length (title job))) 10
   + bonus (inRange 150 2000 (List.length (description job))) 10
   + bonus (topFrequencyInRange 2 5 keywords) 10
   + bonus (present (company job)) 5
   + bonus (present (location job)) 5
   + bonus (present (jobType job)) 5
   + bonus (present (category job)) 5
   + bonus (present (focusKeyphrase job)) 10
   + bonus (present (metaDescription job)) 10)%Z.

Definition clamp (lo hi x : Z) : Z := Z.min hi (Z.max lo x).

Definition allNineApply (job : Job) (keywords : list KeywordData) : bool :=
  inRange 10 60 (List.length (title job))
  && inRange 150 2000 (List.length (description job))
  && topFrequencyInRange 2 5 keywords
  && present (company job) && present (location job) && present (jobType job)
  && present (category job) && present (focusKeyphrase job)
  && present (metaDescription job).

(** The list items of a section span, keeping the trimmed pieces whose
    length [n] satisfies [lo <= n < hi]. *)
Definition itemsInBand (lo hi : nat) (section : jsstring) : list jsstring :=
  firstn 8
    (filter (fun piece => (lo <=? List.length piece)%nat && (List.length piece <? hi)%nat)
       (map trim (splitOn isBulletDelimiter section))).

(** The position of the first occurrence of [w] in [l]; the length of [l]
    when there is none. *)
Fixpoint firstIndex (w : jsstring) (l : list jsstring) : nat :=
  match l with
  | [] => 0
  | x :: l' => if str_eqb w x then 0 else S (firstIndex w l')
  end.

End Spec.

(** ** Notions used in the statements and proofs *)

(** *** Notions of the title normaliser *)

(** The unit [capitalizeFrom] writes for [c]. *)
Definition capitalUnit (prevWord : bool) (c : char16) : char16 :=
  if isWordChar c && negb prevWord then toUpperUnit c else c.

(** Whether the last unit of [x] is in [\w]; [p] answers for the empty string. *)
Fixpoint endsInWord (p : bool) (x : jsstring) : bool :=
  match x with
  | [] => p
  | c :: x' => endsInWord (isWordChar c) x'
  end.

(** Every white-space unit of [s] is U+0020 and follows a unit that is not
    white space; [afterSpace] says that the unit before [s] is white space. *)
Fixpoint singleSpaced (afterSpace : bool) (s : jsstring) : Prop :=
  match s with
  | [] => True
  | c :: s' =>
      if isWhiteSpace c
      then c = space /\ afterSpace = false /\ singleSpaced true s'
      else singleSpaced false s'
  end.

(** [s] does not begin with white space. *)
Definition headOk (s : jsstring) : Prop :=
  match s with
  | c :: _ => isWhiteSpace c = false
  | [] => True
  end.

(** A string that [trim] leaves alone. *)
Definition trimmed (s : jsstring) : Prop := headOk s /\ trimEnd s = s.

(** The first replacement of [optimizeTitle]. *)
Definition replacePunctuation (s : jsstring) : jsstring :=
  map (fun c => if isTitlePunctuation c then space else c) s.

(** No unit of [s] is replaced punctuation. *)
Definition plain (s : jsstring) : Prop := Forall (fun c => isTitlePunctuation c = false) s.

(** What the first statement of [optimizeTitle] establishes. *)
Definition tidy (s : jsstring) : Prop := plain s /\ singleSpaced false s /\ trimmed s.

(** The suffix [optimizeTitle] appends. *)
Definition suffix : jsstring := lit " - South Africa".

(** A unit that is neither white space nor replaced punctuation. *)
Definition kept (c : char16) : bool := negb (isWhiteSpace c) && negb (isTitlePunctuation c).

(** A title without its white space and replaced punctuation, letters in
    upper case. *)
Definition skeleton (s : jsstring) : jsstring := map toUpperUnit (filter kept s).

(** The number of occurrences of a unit in a string. *)
Definition occurrences (c : char16) (s : jsstring) : nat :=
  List.length (filter (N.eqb c) s).

(** *** Notions of the sectioniser and of the optional fields *)

(** No section has content: the conditions of the seven [if] statements of
    [restructureContent] all fail. *)
Definition noSection (s : ContentSections) : bool :=
  negb (nonEmpty (overview s))
  && Nat.eqb (List.length (responsibilities s)) 0
  && Nat.eqb (List.length (requirements s)) 0
  && Nat.eqb (List.length (skills s)) 0
  && negb (nonEmpty (companyInfo s))
  && negb (nonEmpty (applicationInfo s))
  && negb (nonEmpty (contactInfo s)).

(** An optional field with the empty string read as absent. *)
Definition absentIfEmpty (field : option jsstring) : option jsstring :=
  match field with
  | Some [] => None
  | _ => field
  end.

(** The posting with every empty optional field read as absent. *)
Definition withEmptyAbsent (job : Job) : Job :=
  mkJob (title job) (description job)
        (absentIfEmpty (company job)) (absentIfEmpty (location job))
        (absentIfEmpty (jobType job)) (absentIfEmpty (category job))
        (absentIfEmpty (salary job)) (absentIfEmpty (focusKeyphrase job))
        (absentIfEmpty (metaDescription job)).

(** *** Notions of the ranking *)

(** [a] stands before [b] in [l]. *)
Definition precedes {A : Type} (a b : A) (l : list A) : Prop :=
  exists l1 l2 l3, l = l1 ++ a :: l2 ++ b :: l3.

(** The keys after one more word: a new word is appended. *)
Definition addKey (keys : list jsstring) (w : jsstring) : list jsstring :=
  if mem w keys then keys else keys ++ [w].

(** [x] has the ranking key [k]. *)
Definition hasKey (k : option N) (x : KeywordData) : bool :=
  match rankKey x, k with
  | Some a, Some b => a =? b
  | None, None => true
  | _, _ => false
  end.

(** *** Postings and corpora used as examples *)

(** A posting to which all nine bonuses apply. *)
Definition completePosting : Job :=
  mkJob (lit "Senior Nurse")
        (lit "We are looking for a senior nurse to join our ward. The nurse will care for patients, keep accurate records and support the doctors on duty every single day.")
        (Some (lit "Acme Health")) (Some (lit "Durban")) (Some (lit "Full Time"))
        (Some (lit "Healthcare")) None (Some (lit "senior nurse durban"))
        (Some (lit "Senior nurse wanted in Durban.")).

(** A posting whose assembled description is longer than 160 units. *)
Definition verbosePosting : Job :=
  mkJob (lit "Senior Registered Nurse for the Paediatric Intensive Care Unit")
        (lit "Care for patients.")
        (Some (lit "Acme Health Group of Southern Africa")) (Some (lit "Durban"))
        (Some (lit "Full Time")) None (Some (lit "R45 000 per month")) None None.

(** A posting in Durban whose three top candidates are other words. *)
Definition durbanPosting : Job :=
  mkJob (lit "Senior Software Engineer") (lit "Build things")
        None (Some (lit "Durban")) None None None None None.

(** A posting whose body is one space. *)
Definition blankPosting : Job :=
  mkJob (lit "Senior Nurse") (lit " ") None None None None None None None.

(** A posting whose body is the single word of a responsibilities keyword:
    the word is captured and yields no list item, and nothing remains. *)
Definition rolePosting : Job :=
  mkJob (lit "Senior Nurse") (lit "  role ") None None None None None None None.

(** A posting whose contact details stand in parentheses. *)
Definition parenPosting : Job :=
  mkJob (lit "Senior Nurse") (lit "Care for patients. Contact us (tel: 011 555 1234) today.")
        None None None None None None None.

(** A posting whose company is one space. *)
Definition spaceCompanyPosting : Job :=
  mkJob (lit "Senior Nurse") (lit "Care for patients.") (Some (lit " "))
        None None None None None None.

(** [spaceCompanyPosting] without its company. *)
Definition noCompanyPosting : Job :=
  mkJob (lit "Senior Nurse") (lit "Care for patients.") None
        None None None None None None.

(** A corpus of two words, the second of which is an array index. *)
Definition zebraCorpus : jsstring := lit "zebra 100".

(** ** Further notions *)

From Stdlib Require Sorted.

(** The number of occurrences of a word in a list of words. *)
Definition countOf (w : jsstring) (words : list jsstring) : nat :=
  List.length (filter (str_eqb w) words).

(** The location as [generateFocusKeyphrase] cleans it. *)
Definition cleanLocation (l : jsstring) : jsstring :=
  trim (filter (fun c => isWordChar c || isWhiteSpace c) (toLowerCase l)).

(** The ranking key of a keyword whose frequency is a number. *)
Definition keyValue (k : KeywordData) : N :=
  match rankKey k with
  | Some n => n
  | None => 0
  end.

(** What one more occurrence of a word does to its slot; [m] is what the
    word inherits from [Object.prototype]. *)
Definition bumpSlot (m : inherited) (t : option tally) : option tally :=
  match t with
  | Some (Count n) => Some (Count (n + 1))
  | Some NotANumber => Some NotANumber
  | None =>
      match m with
      | NoMember => Some (Count 1)
      | FunctionMember => Some NotANumber
      | ProtoAccessor => None
      end
  end.

(** [a] is ranked at least as high as [b]. *)
Definition notBelow (a b : KeywordData) : Prop := keyValue b <= keyValue a.

(** The frequency of the keyword is a number. *)
Definition numeric (k : KeywordData) : Prop := exists n, frequency k = Count n.

(** The items of [generateRecommendations] that name no keyword. *)
Definition titleItem : jsstring := lit "Improve job title - should be 10-60 characters long".
Definition descriptionItem : jsstring :=
  lit "Add more detailed job description (minimum 150 characters)".
Definition companyItem : jsstring := lit "Add company name for better credibility".
Definition locationItem : jsstring := lit "Specify job location for better local SEO".
Definition focusItem : jsstring := lit "Add focus keyphrase for better search ranking".
Definition metaItem : jsstring :=
  lit "Create compelling meta description to improve click-through rate".
Definition overallItem : jsstring :=
  lit "Overall SEO optimization needed - consider professional review".

(** Every check of [generateRecommendations] passes. *)
Definition allChecksPass (job : Job) (score : Z) (keywords : list KeywordData) : bool :=
  (10 <=? List.length (title job))%nat
  && (150 <=? List.length (description job))%nat
  && truthy (company job) && truthy (location job)
  && truthy (focusKeyphrase job) && truthy (metaDescription job)
  && match keywords with
     | topKeyword :: _ => negb (tallyLt (frequency topKeyword) 2)
     | [] => true
     end
  && (70 <=? score)%Z.

(** A list of items as [extractListItems] returns them: at most 8, each
    longer than 10 and shorter than 150 units. *)
Definition itemList (l : list jsstring) : Prop :=
  (List.length l <= 8)%nat
  /\ Forall (fun item => (11 <= List.length item <= 149)%nat) l.

(** ** The in-memory storage, embedded from [server/storage.ts]

    [MemStorage] keeps each table in a JavaScript [Map] and hands out ids from
    a counter.  A [Map] lists its entries in the order of their insertion, and
    [set] on a key that is present replaces the value where it stands.  None
    of the methods below awaits anything, so each runs to its end once it
    is called; it is embedded as a function from the storage before the call
    to the storage after it and the value the promise resolves to.  The value
    of [new Date()] is an argument of the method that reads the clock, as
    the number of milliseconds [getTime] gives.  Ids and counters are
    JavaScript numbers; they are embedded as integers, which is exact below
    2^53.  The tables [analytics] and [keywords] are left out: no method or
    route embedded here reads or writes them. *)

Module Storage.

Definition timestamp := Z.

Section JSMap.
Context {K V : Type} (eqb : K -> K -> bool).

(** [Map.prototype.get]; [None] is [undefined]. *)
Fixpoint get (k : K) (m : list (K * V)) : option V :=
  match m with
  | [] => None
  | (k', v) :: m' => if eqb k k' then Some v else get k m'
  end.

(** [Map.prototype.set]. *)
Fixpoint set (k : K) (v : V) (m : list (K * V)) : list (K * V) :=
  match m with
  | [] => [(k, v)]
  | (k', v') :: m' => if eqb k k' then (k', v) :: m' else (k', v') :: set k v m'
  end.

(** [Map.prototype.delete]: the map without the key, and whether the key
    was present. *)
Fixpoint delete (k : K) (m : list (K * V)) : list (K * V) * bool :=
  match m with
  | [] => ([], false)
  | (k', v') :: m' =>
      if eqb k k' then (m', true)
      else let (rest, found) := delete k m' in ((k', v') :: rest, found)
  end.

(** [Array.from(map.values())]. *)
Definition values (m : list (K * V)) : list V := map snd m.
End JSMap.

(** A row of the table [jobs].  The columns the SEO engine reads are the
    posting; for the nullable columns [None] is [null] (or a key that an
    insert left out, which every reader treats alike); a missing [status]
    is [None]. *)
Record JobRow := mkJobRow {
  rowId : Z;
  wpJobId : Z;
  posting : Job;
  status : option jsstring;
  rowScore : option Z;
  optimizedAt : option timestamp;
  createdAt : timestamp;
  updatedAt : timestamp
}.

(** [InsertJob]: a row without [id], [createdAt] and [updatedAt]. *)
Record InsertJob := mkInsertJob {
  newWpJobId : Z;
  newPosting : Job;
  newStatus : option jsstring;
  newScore : option Z;
  newOptimizedAt : option timestamp
}.

(** [Partial<InsertJob>]: for each column, [None] when the key is absent and
    the value when it is present. *)
Record JobUpdate := mkJobUpdate {
  setWpJobId : option Z;
  setTitle : option jsstring;
  setDescription : option jsstring;
  setCompany : option (option jsstring);
  setLocation : option (option jsstring);
  setJobType : option (option jsstring);
  setCategory : option (option jsstring);
  setSalary : option (option jsstring);
  setStatus : option jsstring;
  setScore : option (option Z);
  setFocusKeyphrase : option (option jsstring);
  setMetaDescription : option (option jsstring);
  setOptimizedAt : option (option timestamp)
}.

(** The update with no key. *)
Definition noUpdate : JobUpdate :=
  mkJobUpdate None None None None None None None None None None None None None.

(** A row of the table [optimizations]. *)
Record OptimizationRow := mkOptimizationRow {
  optId : Z;
  optJobId : Z;
  optType : jsstring;
  originalValue : option jsstring;
  optimizedValue : jsstring;
  improvements : option jsstring;
  seoScoreBefore : option Z;
  seoScoreAfter : option Z;
  optStatus : option jsstring;
  optCreatedAt : timestamp
}.

Record InsertOptimization := mkInsertOptimization {
  newJobId : Z;
  newType : jsstring;
  newOriginalValue : option jsstring;
  newOptimizedValue : jsstring;
  newImprovements : option jsstring;
  newSeoScoreBefore : option Z;
  newSeoScoreAfter : option Z;
  newOptStatus : option jsstring
}.

(** A row of the table [configurations]. *)
Record Configuration := mkConfiguration {
  cfgId : Z;
  cfgKey : jsstring;
  cfgValue : jsstring;
  cfgDescription : option jsstring;
  cfgCreatedAt : timestamp;
  cfgUpdatedAt : timestamp
}.

Record InsertConfiguration := mkInsertConfiguration {
  newKey : jsstring;
  newValue : jsstring;
  newDescription : option jsstring
}.

Record MemStorage := mkStorage {
  jobs : list (Z * JobRow);
  optimizations : list (Z * OptimizationRow);
  configurations : list (jsstring * Configuration);
  currentJobId : Z;
  currentOptimizationId : Z;
  currentConfigId : Z
}.

(** The storage when the constructor has set its fields, before the default
    rows are written. *)
Definition empty : MemStorage := mkStorage [] [] [] 1 1 1.

(** *** Jobs *)

Definition getJob (st : MemStorage) (id : Z) : option JobRow := get Z.eqb id (jobs st).

Definition getJobByWpId (st : MemStorage) (wpId : Z) : option JobRow :=
  find (fun job => Z.eqb (wpJobId job) wpId) (values (jobs st)).

(** [getJobs(status)]; [None] is a call without argument. *)
Definition getJobs (st : MemStorage) (wanted : option jsstring) : list JobRow :=
  let allJobs := values (jobs st) in
  match wanted with
  | Some (c :: s) =>
      filter (fun job =>
                match status job with
                | Some x => str_eqb x (c :: s)
                | None => false
                end) allJobs
  | _ => allJobs
  end.

Definition createJob (st : MemStorage) (insertJob : InsertJob) (now : timestamp)
  : MemStorage * JobRow :=
  let id := currentJobId st in
  let job :=
    mkJobRow id (newWpJobId insertJob) (newPosting insertJob) (newStatus insertJob)
             (newScore insertJob) (newOptimizedAt insertJob) now now in
  (mkStorage (set Z.eqb id job (jobs st)) (optimizations st) (configurations st)
             (id + 1) (currentOptimizationId st) (currentConfigId st),
   job).

(** [{ ...a, ...b }] for one column. *)
Definition override {A : Type} (old : A) (new : option A) : A :=
  match new with
  | Some v => v
  | None => old
  end.

(** [{ ...job, ...jobUpdate, updatedAt: now }]. *)
Definition merged (job : JobRow) (jobUpdate : JobUpdate) (now : timestamp) : JobRow :=
  mkJobRow (rowId job)
    (override (wpJobId job) (setWpJobId jobUpdate))
    (mkJob (override (title (posting job)) (setTitle jobUpdate))
           (override (description (posting job)) (setDescription jobUpdate))
           (override (company (posting job)) (setCompany jobUpdate))
           (override (location (posting job)) (setLocation jobUpdate))
           (override (jobType (posting job)) (setJobType jobUpdate))
           (override (category (posting job)) (setCategory jobUpdate))
           (override (salary (posting job)) (setSalary jobUpdate))
           (override (focusKeyphrase (posting job)) (setFocusKeyphrase jobUpdate))
           (override (metaDescription (posting job)) (setMetaDescription jobUpdate)))
    (match setStatus jobUpdate with Some v => Some v | None => status job end)
    (override (rowScore job) (setScore jobUpdate))
    (override (optimizedAt job) (setOptimizedAt jobUpdate))
    (createdAt job)
    now.

Definition updateJob (st : MemStorage) (id : Z) (jobUpdate : JobUpdate) (now : timestamp)
  : MemStorage * option JobRow :=
  match get Z.eqb id (jobs st) with
  | None => (st, None)
  | Some job =>
      let updatedJob := merged job jobUpdate now in
      (mkStorage (set Z.eqb id updatedJob (jobs st)) (optimizations st) (configurations st)
                 (currentJobId st) (currentOptimizationId st) (currentConfigId st),
       Some updatedJob)
  end.

Definition deleteJob (st : MemStorage) (id : Z) : MemStorage * bool :=
  let (rest, found) := delete Z.eqb id (jobs st) in
  (mkStorage rest (optimizations st) (configurations st)
             (currentJobId st) (currentOptimizationId st) (currentConfigId st),
   found).

(** *** Optimizations *)

Definition getOptimization (st : MemStorage) (id : Z) : option OptimizationRow :=
  get Z.eqb id (optimizations st).

Definition getOptimizationsByJobId (st : MemStorage) (jobId : Z) : list OptimizationRow :=
  filter (fun opt => Z.eqb (optJobId opt) jobId) (values (optimizations st)).

(** [array.slice(0, limit)] for an integer [limit]: a negative limit counts
    from the end. *)
Definition slice0 {A : Type} (limit : Z) (l : list A) : list A :=
  if (limit <? 0)%Z then firstn (List.length l - Z.to_nat (- limit)) l
  else firstn (Z.to_nat limit) l.

(** [getRecentOptimizations(limit)]: the comparison function is
    [b.createdAt.getTime() - a.createdAt.getTime()]. *)
Definition getRecentOptimizations (st : MemStorage) (limit : Z) : list OptimizationRow :=
  let allOptimizations := values (optimizations st) in
  slice0 limit
    (sort (fun a b => (optCreatedAt a <? optCreatedAt b)%Z) allOptimizations).

Definition createOptimization (st : MemStorage) (ins : InsertOptimization) (now : timestamp)
  : MemStorage * OptimizationRow :=
  let id := currentOptimizationId st in
  let optimization :=
    mkOptimizationRow id (newJobId ins) (newType ins) (newOriginalValue ins)
      (newOptimizedValue ins) (newImprovements ins) (newSeoScoreBefore ins)
      (newSeoScoreAfter ins) (newOptStatus ins) now in
  (mkStorage (jobs st) (set Z.eqb id optimization (optimizations st)) (configurations st)
             (currentJobId st) (id + 1) (currentConfigId st),
   optimization).

(** *** Configurations *)

Definition getConfiguration (st : MemStorage) (key : jsstring) : option Configuration :=
  get str_eqb key (configurations st).

Definition getConfigurations (st : MemStorage) : list Configuration :=
  values (configurations st).

Definition setConfiguration (st : MemStorage) (config : InsertConfiguration) (now : timestamp)
  : MemStorage * Configuration :=
  match get str_eqb (newKey config) (configurations st) with
  | Some existing =>
      let updated :=
        mkConfiguration (cfgId existing) (cfgKey existing) (newValue config)
          (cfgDescription existing) (cfgCreatedAt existing) now in
      (mkStorage (jobs st) (optimizations st)
                 (set str_eqb (newKey config) updated (configurations st))
                 (currentJobId st) (currentOptimizationId st) (currentConfigId st),
       updated)
  | None =>
      let id := currentConfigId st in
      let newConfig :=
        mkConfiguration id (newKey config) (newValue config) (newDescription config)
          now now in
      (mkStorage (jobs st) (optimizations st)
                 (set str_eqb (newKey config) newConfig (configurations st))
                 (currentJobId st) (currentOptimizationId st) (id + 1),
       newConfig)
  end.

Definition updateConfiguration (st : MemStorage) (key value : jsstring) (now : timestamp)
  : MemStorage * option Configuration :=
  match get str_eqb key (configurations st) with
  | None => (st, None)
  | Some config =>
      let updated :=
        mkConfiguration (cfgId config) (cfgKey config) value (cfgDescription config)
          (cfgCreatedAt config) now in
      (mkStorage (jobs st) (optimizations st) (set str_eqb key updated (configurations st))
                 (currentJobId st) (currentOptimizationId st) (currentConfigId st),
       Some updated)
  end.

(** The default rows of [initializeDefaultConfigs], written one after the
    other; [clock k] is the value of [new Date()] for the row [k]. *)
Definition defaultConfigs : list InsertConfiguration := [
  mkInsertConfiguration (lit "wp_site_url") (lit "https://wizadmissions.info")
    (Some (lit "WordPress site URL"));
  mkInsertConfiguration (lit "wp_api_endpoint") (lit "/wp-json/wp/v2/")
    (Some (lit "WordPress REST API endpoint"));
  mkInsertConfiguration (lit "auto_optimize") (lit "true")
    (Some (lit "Auto-optimize new jobs"));
  mkInsertConfiguration (lit "optimization_schedule") (lit "every_6_hours")
    (Some (lit "Optimization frequency"));
  mkInsertConfiguration (lit "batch_size") (lit "10")
    (Some (lit "Optimization batch size"))
].

Fixpoint initializeFrom (k : nat) (clock : nat -> timestamp)
  (configs : list InsertConfiguration) (st : MemStorage) : MemStorage :=
  match configs with
  | [] => st
  | config :: rest =>
      initializeFrom (S k) clock rest (fst (setConfiguration st config (clock k)))
  end.

Definition initializeDefaultConfigs (clock : nat -> timestamp) (st : MemStorage) : MemStorage :=
  initializeFrom 0 clock defaultConfigs st.

End Storage.

(** ** The routes, embedded from [server/routes.ts]

    A handler is embedded from its first statement to its reply, as a
    function from the storage before the request to the storage after it and
    the reply, for a request that is served on its own: no other request
    changes the storage in between.  [clock k] is the value of the [k]-th
    [new Date()] evaluated while the request is served.  The calls of the
    WordPress client are network traffic: what the client resolves to is an
    argument of the handler, and the calls whose outcome changes neither the
    storage nor the reply (the update of the site after an optimization,
    whose failure is caught and logged) are left out. *)

Module Routes.
Import Storage.

(** The status line of a reply: 200 with a body, 400, 404 or 500. *)
Inductive reply (A : Type) :=
| Ok (body : A)
| BadRequest
| NotFound
| ServerError.
Arguments Ok {A} body.
Arguments BadRequest {A}.
Arguments NotFound {A}.
Arguments ServerError {A}.

(** The value of a code unit as a digit of the radix, for the radices 10
    and 16. *)
Definition digitValue (radix : N) (c : char16) : option N :=
  let value :=
    if isDigit c then Some (c - 0x30)
    else if (0x61 <=? c) && (c <=? 0x7A) then Some (c - 0x61 + 10)
    else if (0x41 <=? c) && (c <=? 0x5A) then Some (c - 0x41 + 10)
    else None in
  match value with
  | Some d => if d <? radix then Some d else None
  | None => None
  end.

(** The number written by the longest prefix of digits; [acc] is the number
    read so far, [None] before the first digit. *)
Fixpoint digitsValue (radix : N) (acc : option N) (s : jsstring) : option N :=
  match s with
  | [] => acc
  | c :: s' =>
      match digitValue radix c with
      | Some d =>
          digitsValue radix
            (Some (radix * match acc with Some n => n | None => 0 end + d)) s'
      | None => acc
      end
  end.

(** [parseInt(string)] without a radix; [None] is [NaN].  The result is the
    integer the digits write, which is the number JavaScript gives below
    2^53. *)
Definition parseInt (s : jsstring) : option Z :=
  let trimmed := trimStart s in
  let negative := match trimmed with c :: _ => c =? 0x2D | [] => false end in
  let unsigned :=
    match trimmed with
    | c :: rest => if (c =? 0x2D) || (c =? 0x2B) then rest else trimmed
    | [] => []
    end in
  let hexadecimal :=
    match unsigned with
    | c :: x :: _ => (c =? 0x30) && ((x =? 0x78) || (x =? 0x58))
    | _ => false
    end in
  let digits :=
    if hexadecimal then digitsValue 16 None (skipn 2 unsigned)
    else digitsValue 10 None unsigned in
  match digits with
  | Some n => Some (if negative then (- Z.of_N n)%Z else Z.of_N n)
  | None => None
  end.

(** [html.replace(/<[^>]*>/g, '')]: a match begins at a U+003C that some
    U+003E follows and ends at the first such U+003E.  [pending] holds, in
    reverse, the units read since a U+003C that is not closed yet. *)
Fixpoint stripFrom (pending : option jsstring) (s : jsstring) : jsstring :=
  match s with
  | [] =>
      match pending with
      | Some units => rev units
      | None => []
      end
  | c :: s' =>
      match pending with
      | Some units => if c =? 0x3E then stripFrom None s' else stripFrom (Some (c :: units)) s'
      | None => if c =? 0x3C then stripFrom (Some [c]) s' else c :: stripFrom None s'
      end
  end.

Definition stripHtml (html : jsstring) : jsstring := stripFrom None html.

(** *** POST /api/jobs/sync *)

(** An entry of the array the WordPress client returns; [None] is a key
    the entry does not have. *)
Record WPJob := mkWPJob {
  wpId : Z;
  titleRendered : jsstring;
  contentRendered : jsstring;
  companyName : option jsstring;
  jobLocation : option jsstring;
  jobSalary : option jsstring;
  yoastFocuskw : option jsstring;
  yoastMetadesc : option jsstring
}.

(** [o || null]. *)
Definition orNull (o : option jsstring) : option jsstring :=
  match o with
  | Some (c :: s) => Some (c :: s)
  | _ => None
  end.

Definition jobData (wpJob : WPJob) : InsertJob :=
  mkInsertJob (wpId wpJob)
    (mkJob (titleRendered wpJob)
           (stripHtml (contentRendered wpJob))
           (Some (orElse (companyName wpJob) []))
           (Some (orElse (jobLocation wpJob) []))
           (Some [])
           (Some [])
           (Some (orElse (jobSalary wpJob) []))
           (orNull (yoastFocuskw wpJob))
           (orNull (yoastMetadesc wpJob)))
    (Some (lit "pending"))
    None
    None.

(** The loop over the fetched entries: the storage after it and
    [syncedCount]. *)
Fixpoint syncEach (wpJobs : list WPJob) (k : nat) (clock : nat -> timestamp)
  (st : MemStorage) : MemStorage * nat :=
  match wpJobs with
  | [] => (st, O)
  | wpJob :: rest =>
      match getJobByWpId st (wpId wpJob) with
      | Some _ => syncEach rest k clock st
      | None =>
          let (st', syncedCount) :=
            syncEach rest (S k) clock (fst (createJob st (jobData wpJob) (clock k))) in
          (st', S syncedCount)
      end
  end.

(** [fetched] is what [wordpressClient.getJobs()] resolves to, [None] when
    it rejects. *)
Definition syncJobs (st : MemStorage) (fetched : option (list WPJob))
  (clock : nat -> timestamp) : MemStorage * reply nat :=
  match getConfiguration st (lit "wp_site_url"),
        getConfiguration st (lit "wp_username"),
        getConfiguration st (lit "wp_application_password") with
  | Some _, Some _, Some _ =>
      match fetched with
      | Some wpJobs =>
          let (st', syncedCount) := syncEach wpJobs 0 clock st in
          (st', Ok syncedCount)
      | None => (st, ServerError)
      end
  | _, _, _ => (st, BadRequest)
  end.

(** *** POST /api/jobs/:id/optimize *)

(** [job.seoScore || 0]. *)
Definition scoreOrZero (o : option Z) : Z :=
  match o with
  | Some n => n
  | None => 0
  end.

(** The object passed to [storage.updateJob]. *)
Definition optimizeUpdate (optimization : Optimization) (now : timestamp) : JobUpdate :=
  mkJobUpdate None
    (Some (optOptimizedTitle optimization))
    (Some (optimizedContent optimization))
    None None None None None
    (Some (lit "optimized"))
    (Some (Some (seoScore optimization)))
    (Some (Some (optFocusKeyphrase optimization)))
    (Some (Some (optMetaDescription optimization)))
    (Some (Some now)).

(** The object passed to [storage.createOptimization]. *)
Definition optimizationRecord (jobId : Z) (job : JobRow) (optimization : Optimization)
  : InsertOptimization :=
  mkInsertOptimization jobId (lit "seo")
    (Some (title (posting job)))
    (optOptimizedTitle optimization)
    (Some (join (lit ", ") (optRecommendations optimization)))
    (Some (scoreOrZero (rowScore job)))
    (Some (seoScore optimization))
    (Some (lit "completed")).

(** [param] is [req.params.id].  The body of the reply is the updated job
    and the optimization. *)
Definition optimizeJob (st : MemStorage) (param : jsstring) (clock : nat -> timestamp)
  : completion (MemStorage * reply (option JobRow * Optimization)) :=
  match parseInt param with
  | None => Normal (st, NotFound)
  | Some id =>
      match getJob st id with
      | None => Normal (st, NotFound)
      | Some job =>
          match optimizeJobSEO (posting job) with
          | Normal optimization =>
              let (st1, updatedJob) :=
                updateJob st id (optimizeUpdate optimization (clock 0%nat)) (clock 1%nat) in
              let (st2, _) :=
                createOptimization st1 (optimizationRecord id job optimization)
                  (clock 2%nat) in
              Normal (st2, Ok (updatedJob, optimization))
          | Throw _ => Normal (st, ServerError)
          | Unmodelled => Unmodelled
          end
      end
  end.

(** *** POST /api/jobs/optimize-all *)

(** The object passed to [storage.updateJob]: it has no [description]. *)
Definition optimizeAllUpdate (optimization : Optimization) (now : timestamp) : JobUpdate :=
  mkJobUpdate None
    (Some (optOptimizedTitle optimization))
    None
    None None None None None
    (Some (lit "optimized"))
    (Some (Some (seoScore optimization)))
    (Some (Some (optFocusKeyphrase optimization)))
    (Some (Some (optMetaDescription optimization)))
    (Some (Some now)).

(** An entry of [results], without the text of the error message. *)
Inductive outcome :=
| Success (jobId : Z) (score : Z)
| Failed (jobId : Z).

Fixpoint processJobs (jobsToProcess : list JobRow) (k : nat) (clock : nat -> timestamp)
  (st : MemStorage) : completion (MemStorage * list outcome) :=
  match jobsToProcess with
  | [] => Normal (st, [])
  | job :: rest =>
      match optimizeJobSEO (posting job) with
      | Normal optimization =>
          let st1 :=
            fst (updateJob st (rowId job) (optimizeAllUpdate optimization (clock k))
                   (clock (S k))) in
          let st2 :=
            fst (createOptimization st1 (optimizationRecord (rowId job) job optimization)
                   (clock (S (S k)))) in
          let* r := processJobs rest (S (S (S k))) clock st2 in
          Normal (fst r, Success (rowId job) (seoScore optimization) :: snd r)
      | Throw _ =>
          let* r := processJobs rest k clock st in
          Normal (fst r, Failed (rowId job) :: snd r)
      | Unmodelled => Unmodelled
      end
  end.

(** [parseInt(batchSizeConfig?.value || "10")]. *)
Definition batchSize (st : MemStorage) : option Z :=
  parseInt
    (match getConfiguration st (lit "batch_size") with
     | Some config => orElse (Some (cfgValue config)) (lit "10")
     | None => lit "10"
     end).

(** [pendingJobs.slice(0, batchSize)]; [NaN] counts as 0. *)
Definition jobsToProcess (st : MemStorage) : list JobRow :=
  let pendingJobs := getJobs st (Some (lit "pending")) in
  match batchSize st with
  | Some n => slice0 n pendingJobs
  | None => []
  end.

Definition optimizeAll (st : MemStorage) (clock : nat -> timestamp)
  : completion (MemStorage * list outcome) :=
  processJobs (jobsToProcess st) 0 clock st.

(** *** POST /api/wordpress/test *)

(** The three fields of the body are strings, the empty string standing
    also for a field that is missing; [connected] is what
    [wordpressClient.testConnection()] resolves to. *)
Definition testWordPress (st : MemStorage) (siteUrl username applicationPassword : jsstring)
  (connected : bool) (clock : nat -> timestamp) : MemStorage * reply unit :=
  if negb (nonEmpty siteUrl) || negb (nonEmpty username) || negb (nonEmpty applicationPassword)
  then (st, BadRequest)
  else if connected then
    let st1 :=
      fst (setConfiguration st
             (mkInsertConfiguration (lit "wp_site_url") siteUrl
                (Some (lit "WordPress site URL"))) (clock 0%nat)) in
    let st2 :=
      fst (setConfiguration st1
             (mkInsertConfiguration (lit "wp_username") username
                (Some (lit "WordPress username"))) (clock 1%nat)) in
    let st3 :=
      fst (setConfiguration st2
             (mkInsertConfiguration (lit "wp_application_password") applicationPassword
                (Some (lit "WordPress application password"))) (clock 2%nat)) in
    (st3, Ok tt)
  else (st, BadRequest).

End Routes.

(** ** Notions for the storage and the routes *)

(** No U+003E follows a U+003C: the text holds nothing the pattern of
    [stripHtml] matches. *)
Definition tagFree (s : jsstring) : Prop :=
  forall a b, s = a ++ 0x3C :: b -> ~ In 0x3E b.


Module StorageSpec.
Import Storage.

(** A call of a method of [MemStorage] that writes. *)
Inductive call :=
| CreateJob (insertJob : InsertJob) (now : timestamp)
| UpdateJob (id : Z) (jobUpdate : JobUpdate) (now : timestamp)
| DeleteJob (id : Z)
| CreateOptimization (ins : InsertOptimization) (now : timestamp)
| SetConfiguration (config : InsertConfiguration) (now : timestamp)
| UpdateConfiguration (key value : jsstring) (now : timestamp).

Definition perform (st : MemStorage) (c : call) : MemStorage :=
  match c with
  | CreateJob insertJob now => fst (createJob st insertJob now)
  | UpdateJob id jobUpdate now => fst (updateJob st id jobUpdate now)
  | DeleteJob id => fst (deleteJob st id)
  | CreateOptimization ins now => fst (createOptimization st ins now)
  | SetConfiguration config now => fst (setConfiguration st config now)
  | UpdateConfiguration key value now => fst (updateConfiguration st key value now)
  end.

(** The storage the constructor leaves, and the storage after a sequence of
    calls. *)
Definition constructed (clock : nat -> timestamp) : MemStorage :=
  initializeDefaultConfigs clock empty.

Definition afterCalls (calls : list call) (st : MemStorage) : MemStorage :=
  fold_left perform calls st.

(** Every entry of a table holds a row whose key column is the key of the
    entry, and no key occurs twice. *)
Definition keyed {K V : Type} (key : V -> K) (m : list (K * V)) : Prop :=
  NoDup (map fst m) /\ Forall (fun e => key (snd e) = fst e) m.

(** Every id of the table was handed out by the counter. *)
Definition handedOut {K V : Type} (id : V -> Z) (counter : Z) (m : list (K * V)) : Prop :=
  (1 <= counter)%Z /\ Forall (fun e => (1 <= id (snd e) < counter)%Z) m.

Definition wellFormed (st : MemStorage) : Prop :=
  keyed rowId (jobs st)
  /\ handedOut rowId (currentJobId st) (jobs st)
  /\ keyed optId (optimizations st)
  /\ handedOut optId (currentOptimizationId st) (optimizations st)
  /\ keyed cfgKey (configurations st)
  /\ handedOut cfgId (currentConfigId st) (configurations st)
  /\ NoDup (map (fun e => cfgId (snd e)) (configurations st)).

(** A storage with two pending jobs, the second of which makes
    [optimizeJobSEO] throw. *)
Definition exampleStorage : MemStorage :=
  afterCalls
    [CreateJob (mkInsertJob 101 completePosting (Some (lit "pending")) None None) 10%Z;
     CreateJob (mkInsertJob 102 parenPosting (Some (lit "pending")) None None) 11%Z]
    (constructed Z.of_nat).

(** [exampleStorage] with the failing job first and a batch of one. *)
Definition blockedStorage : MemStorage :=
  afterCalls
    [CreateJob (mkInsertJob 102 parenPosting (Some (lit "pending")) None None) 10%Z;
     CreateJob (mkInsertJob 101 completePosting (Some (lit "pending")) None None) 11%Z;
     UpdateConfiguration (lit "batch_size") (lit "1") 12%Z]
    (constructed Z.of_nat).

End StorageSpec.

Module RoutesSpec.
Import Storage StorageSpec Routes.

(** [exampleStorage] once the credentials of a WordPress site are saved. *)
Definition connectedStorage : MemStorage :=
  fst (testWordPress exampleStorage (lit "https://example.org") (lit "editor")
         (lit "abcd efgh") true Z.of_nat).

(** Three fetched entries: one that is stored already, and a new one
    twice. *)
Definition fetchedJobs : list WPJob :=
  [mkWPJob 101 (lit "Senior Nurse") (lit "<p>Changed on the site.</p>") None None None None None;
   mkWPJob 200 (lit "Clerk") (lit "<p>File <b>records</b>.</p>") (Some (lit "Acme")) None None
     None None;
   mkWPJob 200 (lit "Clerk") (lit "<p>File <b>records</b>.</p>") (Some (lit "Acme")) None None
     None None].


Definition succeeded (entry : outcome) : bool :=
  match entry with
  | Success _ _ => true
  | Failed _ => false
  end.

(** What an entry of the reply of [optimizeAll] says of a job of the batch;
    [st'] is the storage after the request. *)
Definition reported (st' : MemStorage) (job : JobRow) (entry : outcome) : Prop :=
  match entry with
  | Success id score =>
      id = rowId job
      /\ (exists optimization,
            optimizeJobSEO (posting job) = Normal optimization
            /\ score = seoScore optimization)
      /\ (50 <= score <= 100)%Z
      /\ exists row,
           getJob st' id = Some row
           /\ status row = Some (lit "optimized")
           /\ rowScore row = Some score
           /\ title (posting row) = optimizeTitle (title (posting job))
           /\ description (posting row) = description (posting job)
  | Failed id =>
      id = rowId job
      /\ (exists e, optimizeJobSEO (posting job) = Throw e)
      /\ getJob st' id = Some job
  end.

End RoutesSpec.

(** * Properties *)

(** ** ScoreCalculator *)

Lemma nonEmpty_length (s : jsstring) : nonEmpty s = negb (Nat.eqb (List.length s) 0).
Proof. destruct s; reflexivity. Qed.

Lemma truthy_present (o : option jsstring) : truthy o = Spec.present o.
Proof. destruct o as [[|c s]|]; reflexivity. Qed.

Lemma step_bonus (b : bool) (score points : Z) :
  (if b then (score + points)%Z else score) = (score + Spec.bonus b points)%Z.
Proof. destruct b; unfold Spec.bonus; lia. Qed.

Lemma guarded_range (s : jsstring) (lo hi : nat) :
  (0 < lo)%nat ->
  nonEmpty s && (lo <=? List.length s)%nat && (List.length s <=? hi)%nat
  = Spec.inRange lo hi (List.length s).
Proof.
  intros Hlo. unfold Spec.inRange. rewrite nonEmpty_length.
  destruct (Nat.leb_spec lo (List.length s)) as [Hle|Hlt].
  - destruct (Nat.eqb_spec (List.length s) 0); [lia | reflexivity].
  - now rewrite andb_false_r.
Qed.

Lemma presence_step (field : option jsstring) (score : Z) :
  match field with
  | Some (c :: s) => if (0 <? List.length (c :: s))%nat then (score + 5)%Z else score
  | _ => score
  end = (score + Spec.bonus (Spec.present field) 5)%Z.
Proof. destruct field as [[|c s]|]; cbn; lia. Qed.

Lemma top_keyword_step (keywords : list KeywordData) (score : Z) :
  match hd_error keywords with
  | Some topKeyword =>
      if tallyGe (frequency topKeyword) 2 && tallyLe (frequency topKeyword) 5
      then (score + 10)%Z else score
  | None => score
  end = (score + Spec.bonus (Spec.topFrequencyInRange 2 5 keywords) 10)%Z.
Proof.
  destruct keywords as [|k rest]; cbn [hd_error Spec.topFrequencyInRange].
  - cbn; lia.
  - destruct (frequency k) as [n|]; cbn [tallyGe tallyLe].
    + apply step_bonus.
    + cbn; lia.
Qed.

(** One [let] of a chain, read as an equation for the bound variable. *)
Lemma binding {A B : Type} (a : A) (f : A -> B) (rhs : B) :
  (forall x, x = a -> f x = rhs) -> (let x := a in f x) = rhs.
Proof. intros H. exact (H a eq_refl). Qed.

Lemma scoreBeforeClamp_rubric (job : Job) (keywords : list KeywordData) :
  scoreBeforeClamp job keywords = Spec.rubric job keywords.
Proof.
  cbv beta delta [scoreBeforeClamp Spec.rubric].
  repeat match goal with
         | |- (let x := ?a in @?f x) = ?rhs => apply (binding a f rhs); intros ? ?
         end.
  repeat match goal with
         | E : _ = _ |- _ =>
             first [ rewrite guarded_range in E by lia
                   | rewrite truthy_present in E
                   | rewrite presence_step in E
                   | rewrite top_keyword_step in E
                   | rewrite step_bonus in E ]
         end.
  subst. reflexivity.
Qed.

Lemma rubric_bounds (job : Job) (keywords : list KeywordData) :
  (50 <= Spec.rubric job keywords <= 120)%Z.
Proof.
  unfold Spec.rubric, Spec.bonus.
  repeat match goal with |- context [if ?b then _ else _] => destruct b end; lia.
Qed.

(** C1, as stated: when all nine bonuses apply the sum before clamping is
    110.  On [completePosting] all nine apply and the sum is 120. *)
Lemma all_nine_sum_is_not_110 :
  Spec.allNineApply completePosting (extractKeywords (analysisContent completePosting)) = true
  /\ scoreBeforeClamp completePosting (extractKeywords (analysisContent completePosting)) = 120%Z
  /\ scoreBeforeClamp completePosting (extractKeywords (analysisContent completePosting)) <> 110%Z.
Proof. vm_compute. repeat split; discriminate. Qed.

(** C1, amended.  The score of [calculateSEOScore], which is the score
    [analyzeJob] returns, is the value of [score] before the return statement
    clamped to [0,100]; that value is the rubric's sum, base 50 plus the nine
    independent bonuses; the score lies in [0,100]; and when all nine bonuses
    apply the sum is 120 and the score is 100. *)
Theorem score_is_clamped_rubric (job : Job) :
  let keywords := extractKeywords (analysisContent job) in
  score (analyzeJob job) = calculateSEOScore job keywords (generateFocusKeyphrase keywords job)
  /\ (forall kws focus,
        calculateSEOScore job kws focus = Spec.clamp 0 100 (scoreBeforeClamp job kws)
        /\ scoreBeforeClamp job kws = Spec.rubric job kws
        /\ (0 <= calculateSEOScore job kws focus <= 100)%Z
        /\ (Spec.allNineApply job kws = true ->
            scoreBeforeClamp job kws = 120%Z /\ calculateSEOScore job kws focus = 100%Z)).
Proof.
  split; [reflexivity|].
  intros kws focus. unfold calculateSEOScore. cbv zeta.
  split; [reflexivity|]. split; [apply scoreBeforeClamp_rubric|].
  split; [lia|].
  rewrite scoreBeforeClamp_rubric.
  unfold Spec.rubric, Spec.allNineApply.
  rewrite !andb_true_iff.
  intros [[[[[[[[H1 H2] H3] H4] H5] H6] H7] H8] H9].
  rewrite H1, H2, H3, H4, H5, H6, H7, H8, H9.
  cbn. split; reflexivity.
Qed.

(** ** MetaDescriptionBuilder *)

Lemma length_lit_dots : List.length (lit "...") = 3%nat.
Proof. reflexivity. Qed.

Example verbosePosting_is_truncated :
  (160 < List.length (metaTemplate verbosePosting))%nat
  /\ List.length (generateMetaDescription verbosePosting) = 160%nat
  /\ skipn 157 (generateMetaDescription verbosePosting) = lit "...".
Proof. vm_compute. repeat split. lia. Qed.

(** C2.  The meta description is at most 160 units long; and when the
    assembled template is longer than 160 units, the result is its first 157
    units followed by three full stops, 160 units in all. *)
Theorem generateMetaDescription_capped (job : Job) :
  (List.length (generateMetaDescription job) <= 160)%nat
  /\ ((160 < List.length (metaTemplate job))%nat ->
      generateMetaDescription job = firstn 157 (metaTemplate job) ++ lit "..."
      /\ List.length (generateMetaDescription job) = 160%nat)
  /\ ((List.length (metaTemplate job) <= 160)%nat ->
      generateMetaDescription job = metaTemplate job).
Proof.
  unfold generateMetaDescription. cbv zeta.
  destruct (Nat.ltb_spec 160 (List.length (metaTemplate job))) as [Hlong|Hshort].
  - rewrite length_app, length_firstn, length_lit_dots.
    repeat split; try lia.
  - repeat split; try lia.
Qed.

(** ** FocusPhraseBuilder *)

(** C4: what the code does.  With three or more candidates the phrase is
    the first three terms, whatever the location: [push] puts the location
    in fourth place and [slice(0, 3)] cuts it off again. *)
Theorem generateFocusKeyphrase_drops_location
  (k1 k2 k3 : KeywordData) (rest : list KeywordData) (job : Job) :
  generateFocusKeyphrase (k1 :: k2 :: k3 :: rest) job
  = join (lit " ") [term k1; term k2; term k3].
Proof.
  unfold generateFocusKeyphrase. cbv zeta.
  destruct (option_map _ (location job)) as [[|c l]|]; try reflexivity.
  match goal with |- context [if ?b then _ else _] => destruct b end; reflexivity.
Qed.

Example durbanPosting_focus_phrase :
  let keywords := extractKeywords (analysisContent durbanPosting) in
  map term (firstn 3 keywords) = [lit "senior"; lit "software"; lit "engineer"]
  /\ mem (lit "durban") (map term (firstn 3 keywords)) = false
  /\ analysisFocusKeyphrase (analyzeJob durbanPosting) = lit "senior software engineer"
  /\ includes (analysisFocusKeyphrase (analyzeJob durbanPosting)) (lit "durban") = false.
Proof. vm_compute. repeat split. Qed.

(** ** List items of a section *)

(** C5, as stated: a piece of exactly 10 units is kept.  The span below has
    one piece of 10 units, which the specification's band [10,150) keeps and
    [extractListItems] drops. *)
Lemma ten_unit_piece_is_dropped :
  Spec.itemsInBand 10 150 (lit "- 1234567890") = [lit "1234567890"]
  /\ extractListItems (lit "- 1234567890") = []
  /\ extractListItems (lit "- 1234567890") <> Spec.itemsInBand 10 150 (lit "- 1234567890").
Proof. vm_compute. repeat split. discriminate. Qed.

Lemma firstn_Forall {A : Type} (P : A -> Prop) (n : nat) (l : list A) :
  Forall P l -> Forall P (firstn n l).
Proof.
  intros H. revert n. induction H; intros [|n]; cbn; constructor; auto.
Qed.

Lemma firstn_incl_map {A B : Type} (f : A -> B) (p : B -> bool) (n : nat) (l : list A) :
  Forall (fun y => exists x, In x l /\ y = f x) (firstn n (filter p (map f l))).
Proof.
  apply firstn_Forall, Forall_forall. intros y Hy.
  apply filter_In in Hy. destruct Hy as [Hy _].
  apply in_map_iff in Hy. destruct Hy as [x [Hx Hin]]. eauto.
Qed.

(** C5, amended.  The list items are the trimmed pieces between the bullet
    delimiters (hyphen, U+2022, U+00B7) whose length is more than 10 and less
    than 150, in their order, cut to the first 8: the band is [11,150), a
    piece of 11 or of 149 units is kept, one of 10 or of 150 is not. *)
Theorem extractListItems_band (section : jsstring) :
  extractListItems section = Spec.itemsInBand 11 150 section
  /\ (List.length (extractListItems section) <= 8)%nat
  /\ Forall (fun item => (11 <= List.length item <= 149)%nat) (extractListItems section)
  /\ Forall (fun item =>
               exists piece, In piece (splitOn isBulletDelimiter section) /\ item = trim piece)
            (extractListItems section).
Proof.
  unfold extractListItems, Spec.itemsInBand. cbv zeta.
  split; [|split; [|split]].
  - reflexivity.
  - apply firstn_le_length.
  - apply firstn_Forall, Forall_forall. intros item Hin.
    apply filter_In in Hin. destruct Hin as [_ Hband].
    apply andb_prop in Hband. destruct Hband as [Hlo Hhi].
    apply Nat.ltb_lt in Hlo, Hhi. lia.
  - apply firstn_incl_map.
Qed.

Example extractListItems_boundaries :
  extractListItems (lit "- 12345678901 - 1234567890 -" ++ repeat 0x61 149 ++ lit "-" ++ repeat 0x61 150)
  = [lit "12345678901"; repeat 0x61 149].
Proof. vm_compute. reflexivity. Qed.

(** ** TitleNormalizer *)

Lemma titlePunctuation_units :
  titlePunctuation =
  [33; 64; 35; 36; 37; 94; 38; 42; 40; 41; 95; 43; 61; 123; 125; 91; 93; 124; 92; 58;
   34; 59; 39; 60; 62; 63; 44; 46; 47; 126; 96].
Proof. reflexivity. Qed.

(** Settles the comparisons of the goal that the hypotheses decide. *)
Ltac settle_comparisons :=
  repeat match goal with
  | |- context [?a <=? ?b] =>
      first [ replace (a <=? b) with true by (symmetry; apply N.leb_le; lia)
            | replace (a <=? b) with false by (symmetry; apply N.leb_gt; lia) ]
  | |- context [?a =? ?b] =>
      first [ replace (a =? b) with true by (symmetry; apply N.eqb_eq; lia)
            | replace (a =? b) with false by (symmetry; apply N.eqb_neq; lia) ]
  end.

Lemma isLower_bounds (c : char16) : isLower c = true -> 97 <= c <= 122.
Proof.
  unfold isLower. intros H. apply andb_prop in H. destruct H as [H1 H2].
  apply N.leb_le in H1, H2. lia.
Qed.

Lemma toUpperUnit_space (c : char16) : isWhiteSpace (toUpperUnit c) = isWhiteSpace c.
Proof.
  unfold toUpperUnit. destruct (isLower c) eqn:E; [|reflexivity].
  apply isLower_bounds in E. unfold isWhiteSpace. settle_comparisons. reflexivity.
Qed.

Lemma toUpperUnit_punctuation (c : char16) :
  isTitlePunctuation (toUpperUnit c) = isTitlePunctuation c.
Proof.
  unfold toUpperUnit. destruct (isLower c) eqn:E; [|reflexivity].
  apply isLower_bounds in E. unfold isTitlePunctuation.
  rewrite titlePunctuation_units. cbn [existsb]. settle_comparisons. reflexivity.
Qed.

Lemma toUpperUnit_word (c : char16) : isWordChar (toUpperUnit c) = isWordChar c.
Proof.
  unfold toUpperUnit. destruct (isLower c) eqn:E; [|reflexivity].
  apply isLower_bounds in E. unfold isWordChar, isDigit, isUpper, isLower.
  settle_comparisons. reflexivity.
Qed.

Lemma toUpperUnit_idempotent (c : char16) : toUpperUnit (toUpperUnit c) = toUpperUnit c.
Proof.
  unfold toUpperUnit at 2 3. destruct (isLower c) eqn:E; [|unfold toUpperUnit; now rewrite E].
  apply isLower_bounds in E. unfold toUpperUnit, isLower. settle_comparisons. reflexivity.
Qed.

Lemma toUpperUnit_hyphen (c : char16) : (hyphen =? toUpperUnit c) = (hyphen =? c).
Proof.
  unfold toUpperUnit, hyphen. destruct (isLower c) eqn:E; [|reflexivity].
  apply isLower_bounds in E. settle_comparisons. reflexivity.
Qed.

Lemma space_word_disjoint (c : char16) : isWhiteSpace c = true -> isWordChar c = false.
Proof.
  unfold isWhiteSpace. rewrite !orb_true_iff, !andb_true_iff, !N.leb_le, !N.eqb_eq.
  intros H. unfold isWordChar, isDigit, isUpper, isLower.
  decompose [or and] H; subst; try reflexivity; settle_comparisons; reflexivity.
Qed.

Lemma capitalizeFrom_cons (p : bool) (c : char16) (s : jsstring) :
  capitalizeFrom p (c :: s) = capitalUnit p c :: capitalizeFrom (isWordChar c) s.
Proof. reflexivity. Qed.

Lemma capitalUnit_space (p : bool) (c : char16) :
  isWhiteSpace (capitalUnit p c) = isWhiteSpace c.
Proof. unfold capitalUnit. destruct (_ && _); auto using toUpperUnit_space. Qed.

Lemma capitalUnit_punctuation (p : bool) (c : char16) :
  isTitlePunctuation (capitalUnit p c) = isTitlePunctuation c.
Proof. unfold capitalUnit. destruct (_ && _); auto using toUpperUnit_punctuation. Qed.

Lemma capitalUnit_word (p : bool) (c : char16) : isWordChar (capitalUnit p c) = isWordChar c.
Proof. unfold capitalUnit. destruct (_ && _); auto using toUpperUnit_word. Qed.

Lemma capitalUnit_hyphen (p : bool) (c : char16) :
  (hyphen =? capitalUnit p c) = (hyphen =? c).
Proof. unfold capitalUnit. destruct (_ && _); auto using toUpperUnit_hyphen. Qed.

Lemma capitalUnit_of_space (p : bool) (c : char16) :
  isWhiteSpace c = true -> capitalUnit p c = c.
Proof. intros H. unfold capitalUnit. now rewrite (space_word_disjoint c H). Qed.

Lemma capitalUnit_idempotent (p : bool) (c : char16) :
  capitalUnit p (capitalUnit p c) = capitalUnit p c.
Proof.
  unfold capitalUnit at 1. rewrite capitalUnit_word. unfold capitalUnit.
  destruct (isWordChar c && negb p); [apply toUpperUnit_idempotent | reflexivity].
Qed.

Lemma capitalizeFrom_idempotent (s : jsstring) : forall p,
  capitalizeFrom p (capitalizeFrom p s) = capitalizeFrom p s.
Proof.
  induction s as [|c s IH]; intros p; [reflexivity|].
  rewrite !capitalizeFrom_cons, capitalUnit_idempotent, capitalUnit_word, IH. reflexivity.
Qed.

Lemma capitalizeFrom_app (x y : jsstring) : forall p,
  capitalizeFrom p (x ++ y) = capitalizeFrom p x ++ capitalizeFrom (endsInWord p x) y.
Proof.
  induction x as [|c x IH]; intros p; [reflexivity|].
  cbn [app]. rewrite !capitalizeFrom_cons, IH. reflexivity.
Qed.

Lemma capitalizeFrom_nil_iff (s : jsstring) (p : bool) : capitalizeFrom p s = [] <-> s = [].
Proof. destruct s; cbn; split; congruence. Qed.

(** *** White space in a cleaned title *)

Lemma collapseFrom_fixed (s : jsstring) : forall b, singleSpaced b s -> collapseFrom b s = s.
Proof.
  induction s as [|c s IH]; intros b H; [reflexivity|].
  cbn in *. destruct (isWhiteSpace c).
  - destruct H as [Hc [Hb Hs]]. subst b c. now rewrite IH.
  - now rewrite IH.
Qed.

Lemma collapseFrom_singleSpaced (s : jsstring) : forall b, singleSpaced b (collapseFrom b s).
Proof.
  induction s as [|c s IH]; intros b; [exact I|].
  cbn. destruct (isWhiteSpace c) eqn:E.
  - destruct b; [apply IH|]. cbn. repeat split. apply IH.
  - cbn. rewrite E. apply IH.
Qed.

Lemma trimStart_singleSpaced (s : jsstring) : forall b,
  singleSpaced b s -> singleSpaced false (trimStart s).
Proof.
  unfold trimStart. induction s as [|c s IH]; intros b H; [exact I|].
  cbn in *. destruct (isWhiteSpace c) eqn:E.
  - destruct H as [_ [_ Hs]]. eapply IH; eauto.
  - cbn. now rewrite E.
Qed.

Lemma trimStart_headOk (s : jsstring) : headOk (trimStart s).
Proof.
  unfold trimStart. induction s as [|c s IH]; [exact I|].
  cbn. destruct (isWhiteSpace c) eqn:E; [exact IH | exact E].
Qed.

Lemma trimStart_fixed (s : jsstring) : headOk s -> trimStart s = s.
Proof. destruct s as [|c s]; cbn; [auto|]. intros H. unfold trimStart. cbn. now rewrite H. Qed.

Lemma trimEnd_cons (c : char16) (s : jsstring) :
  trimEnd (c :: s) =
  match trimEnd s with
  | [] => if isWhiteSpace c then [] else [c]
  | t => c :: t
  end.
Proof. reflexivity. Qed.

Lemma trimEnd_singleSpaced (s : jsstring) : forall b,
  singleSpaced b s -> singleSpaced b (trimEnd s).
Proof.
  induction s as [|c s IH]; intros b H; [exact I|].
  rewrite trimEnd_cons. cbn in H.
  destruct (isWhiteSpace c) eqn:E.
  - destruct H as [Hc [Hb Hs]]. specialize (IH _ Hs).
    destruct (trimEnd s) as [|d t]; [exact I|]. cbn [singleSpaced]. rewrite E. auto.
  - specialize (IH _ H).
    destruct (trimEnd s) as [|d t]; cbn [singleSpaced]; rewrite E; auto.
Qed.

Lemma trimEnd_headOk (s : jsstring) : headOk s -> headOk (trimEnd s).
Proof.
  destruct s as [|c s]; [auto|]. rewrite trimEnd_cons. cbn. intros H.
  destruct (trimEnd s); [rewrite H|]; exact H.
Qed.

Lemma trimEnd_idempotent (s : jsstring) : trimEnd (trimEnd s) = trimEnd s.
Proof.
  induction s as [|c s IH]; [reflexivity|].
  rewrite trimEnd_cons. destruct (trimEnd s) as [|d t] eqn:E.
  - destruct (isWhiteSpace c) eqn:Ec; [reflexivity|]. cbn. now rewrite Ec.
  - rewrite trimEnd_cons, IH. reflexivity.
Qed.

Lemma trimEnd_app (x y : jsstring) :
  trimEnd y = y -> y <> [] -> trimEnd (x ++ y) = x ++ y.
Proof.
  intros Hy Hne. induction x as [|c x IH]; [exact Hy|].
  cbn [app]. rewrite trimEnd_cons, IH.
  destruct (x ++ y) eqn:E; [|reflexivity].
  apply app_eq_nil in E. tauto.
Qed.

Lemma trim_trimmed (s : jsstring) : trimmed (trim s).
Proof.
  unfold trim. split.
  - apply trimEnd_headOk, trimStart_headOk.
  - apply trimEnd_idempotent.
Qed.

Lemma trim_fixed (s : jsstring) : trimmed s -> trim s = s.
Proof. intros [Hh He]. unfold trim. now rewrite (trimStart_fixed s Hh). Qed.

Lemma trimEnd_last (c : char16) (s : jsstring) :
  trimEnd (c :: s) = c :: s ->
  (s = [] /\ isWhiteSpace c = false) \/ (s <> [] /\ trimEnd s = s).
Proof.
  rewrite trimEnd_cons. destruct (trimEnd s) as [|d t] eqn:E.
  - destruct (isWhiteSpace c); [discriminate|]. intros H. left. split; congruence.
  - intros H. right. split; congruence.
Qed.

Lemma singleSpaced_app (x y : jsstring) : forall b,
  singleSpaced b x -> trimEnd x = x -> x <> [] -> singleSpaced false y ->
  singleSpaced b (x ++ y).
Proof.
  induction x as [|c x IH]; intros b Hx He Hne Hy; [congruence|].
  apply trimEnd_last in He. cbn [app singleSpaced] in *.
  destruct He as [[Hnil Hc]|[Hcons He]].
  - subst x. rewrite Hc in *. exact Hy.
  - destruct (isWhiteSpace c).
    + destruct Hx as [? [? Hx]]. repeat split; auto.
    + auto.
Qed.

(** *** A cleaned title is a fixed point of the cleaning *)

Lemma replacePunctuation_plain (s : jsstring) : plain (replacePunctuation s).
Proof.
  induction s as [|c s IH]; constructor; [|exact IH].
  destruct (isTitlePunctuation c) eqn:E; [reflexivity | exact E].
Qed.

Lemma replacePunctuation_fixed (s : jsstring) : plain s -> replacePunctuation s = s.
Proof.
  induction 1 as [|c s Hc _ IH]; [reflexivity|].
  unfold replacePunctuation in *. cbn [map]. rewrite Hc. f_equal. exact IH.
Qed.

Lemma collapseFrom_plain (s : jsstring) : forall b, plain s -> plain (collapseFrom b s).
Proof.
  induction s as [|c s IH]; intros b H; [constructor|].
  inversion H; subst. cbn. destruct (isWhiteSpace c), b;
    repeat constructor; auto; apply IH; auto.
Qed.

Lemma trimStart_plain (s : jsstring) : plain s -> plain (trimStart s).
Proof.
  unfold trimStart. induction 1 as [|c s Hc Hs IH]; [constructor|].
  cbn. destruct (isWhiteSpace c); [exact IH | constructor; auto].
Qed.

Lemma trimEnd_plain (s : jsstring) : plain s -> plain (trimEnd s).
Proof.
  induction 1 as [|c s Hc Hs IH]; [constructor|].
  rewrite trimEnd_cons. destruct (trimEnd s).
  - destruct (isWhiteSpace c); repeat constructor; auto.
  - constructor; auto.
Qed.

Lemma cleanTitle_tidy (t : jsstring) : tidy (cleanTitle t).
Proof.
  unfold cleanTitle, collapseWhiteSpace. fold (replacePunctuation t).
  split; [|split].
  - apply trimEnd_plain, trimStart_plain, collapseFrom_plain, replacePunctuation_plain.
  - unfold trim. apply trimEnd_singleSpaced.
    eapply trimStart_singleSpaced, collapseFrom_singleSpaced.
  - apply trim_trimmed.
Qed.

Lemma cleanTitle_fixed (s : jsstring) : tidy s -> cleanTitle s = s.
Proof.
  intros [Hp [Hs Ht]]. unfold cleanTitle, collapseWhiteSpace. fold (replacePunctuation s).
  rewrite (replacePunctuation_fixed s Hp), (collapseFrom_fixed s false Hs).
  apply trim_fixed, Ht.
Qed.

Lemma capitalizeFrom_plain (s : jsstring) : forall p, plain s -> plain (capitalizeFrom p s).
Proof.
  induction s as [|c s IH]; intros p H; [constructor|].
  inversion H; subst. rewrite capitalizeFrom_cons. constructor; [|apply IH; auto].
  now rewrite capitalUnit_punctuation.
Qed.

Lemma capitalizeFrom_singleSpaced (s : jsstring) : forall p b,
  singleSpaced b s -> singleSpaced b (capitalizeFrom p s).
Proof.
  induction s as [|c s IH]; intros p b H; [exact I|].
  rewrite capitalizeFrom_cons. cbn [singleSpaced] in *.
  rewrite capitalUnit_space. destruct (isWhiteSpace c) eqn:E.
  - destruct H as [Hc [Hb Hs]]. rewrite (capitalUnit_of_space p c E). auto.
  - auto.
Qed.

Lemma capitalizeFrom_trimEnd (s : jsstring) : forall p,
  trimEnd (capitalizeFrom p s) = capitalizeFrom p (trimEnd s).
Proof.
  induction s as [|c s IH]; intros p; [reflexivity|].
  rewrite capitalizeFrom_cons, !trimEnd_cons, IH, capitalUnit_space.
  destruct (trimEnd s) as [|d t]; cbn [capitalizeFrom].
  - destruct (isWhiteSpace c); reflexivity.
  - reflexivity.
Qed.

Lemma capitalizeFrom_tidy (s : jsstring) (p : bool) : tidy s -> tidy (capitalizeFrom p s).
Proof.
  intros [Hp [Hs [Hh He]]]. split; [|split; [|split]].
  - now apply capitalizeFrom_plain.
  - now apply capitalizeFrom_singleSpaced.
  - destruct s as [|c s]; [exact I|]. rewrite capitalizeFrom_cons.
    unfold headOk in *. now rewrite capitalUnit_space.
  - now rewrite capitalizeFrom_trimEnd, He.
Qed.

(** *** The locality check *)

Lemma optimizeTitle_cases (t : jsstring) :
  optimizeTitle t =
  if hasLocalityMarker (capitalizeWords (cleanTitle t))
  then capitalizeWords (cleanTitle t)
  else capitalizeWords (cleanTitle t) ++ suffix.
Proof.
  unfold optimizeTitle, hasLocalityMarker. cbv zeta.
  destruct (includes _ (lit "remote")), (includes _ (lit "south africa")),
    (includes _ (lit "cape town")), (includes _ (lit "johannesburg")); reflexivity.
Qed.

Lemma includes_app_r (x y p : jsstring) : includes y p = true -> includes (x ++ y) p = true.
Proof.
  intros H. induction x as [|c x IH]; [exact H|].
  cbn [app includes]. rewrite IH. apply orb_true_r.
Qed.

Lemma toLowerCase_app (x y : jsstring) : toLowerCase (x ++ y) = toLowerCase x ++ toLowerCase y.
Proof. apply flat_map_app. Qed.

Lemma suffix_marks (x : jsstring) : hasLocalityMarker (x ++ suffix) = true.
Proof.
  unfold hasLocalityMarker. rewrite toLowerCase_app.
  rewrite (includes_app_r _ _ (lit "south africa")) by reflexivity.
  now rewrite orb_true_r.
Qed.

(** Every title [optimizeTitle] returns contains a locality marker. *)
Lemma optimizeTitle_marked (t : jsstring) : hasLocalityMarker (optimizeTitle t) = true.
Proof.
  rewrite optimizeTitle_cases.
  destruct (hasLocalityMarker (capitalizeWords (cleanTitle t))) eqn:E;
    [exact E | apply suffix_marks].
Qed.

Lemma suffix_capitalized (p : bool) : capitalizeFrom p suffix = suffix.
Proof. destruct p; reflexivity. Qed.

Lemma capitalizeWords_with_suffix (x : jsstring) :
  capitalizeWords (x ++ suffix) = capitalizeWords x ++ suffix.
Proof. unfold capitalizeWords. now rewrite capitalizeFrom_app, suffix_capitalized. Qed.

Lemma tidy_with_suffix (x : jsstring) : tidy x -> x <> [] -> tidy (x ++ suffix).
Proof.
  intros [Hp [Hs [Hh He]]] Hne. split; [|split; [|split]].
  - apply Forall_app. split; [exact Hp|]. repeat constructor.
  - apply singleSpaced_app; auto. cbn. repeat split.
  - destruct x; [congruence | exact Hh].
  - apply trimEnd_app; [reflexivity | discriminate].
Qed.

(** A returned title with a non-empty cleaned part is returned unchanged. *)
Lemma optimizeTitle_stable (t : jsstring) :
  cleanTitle t <> [] -> optimizeTitle (optimizeTitle t) = optimizeTitle t.
Proof.
  intros Hne.
  assert (Htidy : tidy (capitalizeWords (cleanTitle t)))
    by apply capitalizeFrom_tidy, cleanTitle_tidy.
  assert (Hcap : capitalizeWords (cleanTitle t) <> []).
  { unfold capitalizeWords. now rewrite capitalizeFrom_nil_iff. }
  assert (Hidem : capitalizeWords (capitalizeWords (cleanTitle t)) = capitalizeWords (cleanTitle t))
    by apply capitalizeFrom_idempotent.
  rewrite (optimizeTitle_cases t).
  destruct (hasLocalityMarker (capitalizeWords (cleanTitle t))) eqn:E.
  - rewrite optimizeTitle_cases, (cleanTitle_fixed _ Htidy), Hidem, E. reflexivity.
  - rewrite optimizeTitle_cases, (cleanTitle_fixed _ (tidy_with_suffix _ Htidy Hcap)).
    rewrite capitalizeWords_with_suffix, Hidem, suffix_marks. reflexivity.
Qed.

Lemma optimizeTitle_of_empty_core (t : jsstring) :
  cleanTitle t = [] ->
  optimizeTitle t = lit " - South Africa"
  /\ optimizeTitle (optimizeTitle t) = lit "- South Africa".
Proof.
  intros H. assert (E : optimizeTitle t = lit " - South Africa").
  { rewrite optimizeTitle_cases, H. reflexivity. }
  rewrite E. split; reflexivity.
Qed.

(** C7, as stated: on a title that consists of punctuation only, the
    returned title contains a marker and normalising it again changes it. *)
Lemma punctuation_only_title_not_stable :
  hasLocalityMarker (optimizeTitle (lit "!!!")) = true
  /\ optimizeTitle (lit "!!!") = lit " - South Africa"
  /\ optimizeTitle (optimizeTitle (lit "!!!")) = lit "- South Africa"
  /\ optimizeTitle (optimizeTitle (lit "!!!")) <> optimizeTitle (lit "!!!").
Proof. vm_compute. repeat split. discriminate. Qed.

(** C7, amended.  Every title [optimizeTitle] returns contains a locality
    marker, and normalising a returned title yields the same string exactly
    when the cleaned title (punctuation replaced, white space collapsed,
    trimmed) is not empty, that is, when the title has a unit that is neither
    white space nor replaced punctuation. *)
Theorem optimizeTitle_idempotent_iff (t : jsstring) :
  hasLocalityMarker (optimizeTitle t) = true
  /\ (optimizeTitle (optimizeTitle t) = optimizeTitle t <-> cleanTitle t <> []).
Proof.
  split; [apply optimizeTitle_marked|]. split.
  - intros Hfix Hempty. destruct (optimizeTitle_of_empty_core t Hempty) as [E1 E2].
    rewrite E2, E1 in Hfix. discriminate.
  - apply optimizeTitle_stable.
Qed.

Lemma optimizeTitle_idempotent_example :
  cleanTitle (lit "Junior!! Nurse@@") <> []
  /\ optimizeTitle (lit "Junior!! Nurse@@") = lit "Junior Nurse - South Africa"
  /\ optimizeTitle (optimizeTitle (lit "Junior!! Nurse@@"))
     = optimizeTitle (lit "Junior!! Nurse@@").
Proof.
  assert (H : cleanTitle (lit "Junior!! Nurse@@") <> []) by (vm_compute; discriminate).
  split; [exact H|]. split; [reflexivity|].
  exact (proj2 (proj2 (optimizeTitle_idempotent_iff (lit "Junior!! Nurse@@"))) H).
Defined.

(** *** Hyphens *)

Lemma occurrences_cons (c d : char16) (s : jsstring) :
  occurrences c (d :: s) = ((if (c =? d)%N then 1 else 0) + occurrences c s)%nat.
Proof. unfold occurrences. cbn. destruct (c =? d); reflexivity. Qed.

Lemma occurrences_app (c : char16) (x y : jsstring) :
  occurrences c (x ++ y) = (occurrences c x + occurrences c y)%nat.
Proof. unfold occurrences. now rewrite filter_app, length_app. Qed.

Lemma hyphen_not_space (c : char16) : isWhiteSpace c = true -> (hyphen =? c) = false.
Proof.
  unfold isWhiteSpace, hyphen.
  rewrite !orb_true_iff, !andb_true_iff, !N.leb_le, !N.eqb_eq, N.eqb_neq. lia.
Qed.

Lemma hyphen_not_punctuation (c : char16) : isTitlePunctuation c = true -> (hyphen =? c) = false.
Proof.
  unfold isTitlePunctuation. rewrite titlePunctuation_units. cbn [existsb].
  rewrite !orb_true_iff, !N.eqb_eq, N.eqb_neq. unfold hyphen. lia.
Qed.

Lemma replacePunctuation_hyphens (s : jsstring) :
  occurrences hyphen (replacePunctuation s) = occurrences hyphen s.
Proof.
  induction s as [|c s IH]; [reflexivity|].
  cbn [replacePunctuation map]. fold (replacePunctuation s).
  rewrite !occurrences_cons, IH.
  destruct (isTitlePunctuation c) eqn:E; [|reflexivity].
  now rewrite (hyphen_not_punctuation c E).
Qed.

Lemma collapseFrom_hyphens (s : jsstring) : forall b,
  occurrences hyphen (collapseFrom b s) = occurrences hyphen s.
Proof.
  induction s as [|c s IH]; intros b; [reflexivity|].
  cbn [collapseFrom]. rewrite occurrences_cons.
  destruct (isWhiteSpace c) eqn:E.
  - rewrite (hyphen_not_space c E). destruct b; [|rewrite occurrences_cons]; now rewrite IH.
  - now rewrite occurrences_cons, IH.
Qed.

Lemma trimStart_hyphens (s : jsstring) :
  occurrences hyphen (trimStart s) = occurrences hyphen s.
Proof.
  unfold trimStart. induction s as [|c s IH]; [reflexivity|].
  cbn [dropWhile]. destruct (isWhiteSpace c) eqn:E; [|reflexivity].
  now rewrite occurrences_cons, (hyphen_not_space c E), IH.
Qed.

Lemma trimEnd_hyphens (s : jsstring) :
  occurrences hyphen (trimEnd s) = occurrences hyphen s.
Proof.
  induction s as [|c s IH]; [reflexivity|].
  rewrite trimEnd_cons, occurrences_cons, <- IH.
  destruct (trimEnd s) as [|d t].
  - destruct (isWhiteSpace c) eqn:E.
    + now rewrite (hyphen_not_space c E).
    + now rewrite occurrences_cons.
  - now rewrite occurrences_cons.
Qed.

Lemma capitalizeFrom_hyphens (s : jsstring) : forall p,
  occurrences hyphen (capitalizeFrom p s) = occurrences hyphen s.
Proof.
  induction s as [|c s IH]; intros p; [reflexivity|].
  now rewrite capitalizeFrom_cons, !occurrences_cons, capitalUnit_hyphen, IH.
Qed.

Lemma kept_space (c : char16) : isWhiteSpace c = true -> kept c = false.
Proof. intros H. unfold kept. now rewrite H. Qed.

Lemma skeleton_cons (c : char16) (s : jsstring) :
  skeleton (c :: s) = if kept c then toUpperUnit c :: skeleton s else skeleton s.
Proof. unfold skeleton. cbn [filter]. destruct (kept c); reflexivity. Qed.

Lemma replacePunctuation_skeleton (s : jsstring) :
  skeleton (replacePunctuation s) = skeleton s.
Proof.
  induction s as [|c s IH]; [reflexivity|].
  cbn [replacePunctuation map]. fold (replacePunctuation s).
  rewrite (skeleton_cons c s). destruct (isTitlePunctuation c) eqn:E.
  - rewrite skeleton_cons, (kept_space space) by reflexivity.
    unfold kept. now rewrite E, andb_false_r.
  - now rewrite skeleton_cons, IH.
Qed.

Lemma collapseFrom_skeleton (s : jsstring) : forall b,
  skeleton (collapseFrom b s) = skeleton s.
Proof.
  induction s as [|c s IH]; intros b; [reflexivity|].
  cbn [collapseFrom]. rewrite (skeleton_cons c).
  destruct (isWhiteSpace c) eqn:E.
  - rewrite (kept_space c E).
    destruct b; [|rewrite skeleton_cons, (kept_space space) by reflexivity]; apply IH.
  - now rewrite skeleton_cons, IH.
Qed.

Lemma trimStart_skeleton (s : jsstring) : skeleton (trimStart s) = skeleton s.
Proof.
  unfold trimStart. induction s as [|c s IH]; [reflexivity|].
  cbn [dropWhile]. destruct (isWhiteSpace c) eqn:E; [|reflexivity].
  now rewrite skeleton_cons, (kept_space c E).
Qed.

Lemma trimEnd_skeleton (s : jsstring) : skeleton (trimEnd s) = skeleton s.
Proof.
  induction s as [|c s IH]; [reflexivity|].
  rewrite trimEnd_cons, (skeleton_cons c s), <- IH.
  destruct (trimEnd s) as [|d t].
  - destruct (isWhiteSpace c) eqn:E.
    + now rewrite (kept_space c E).
    + now rewrite skeleton_cons.
  - now rewrite skeleton_cons.
Qed.

Lemma capitalUnit_kept (p : bool) (c : char16) : kept (capitalUnit p c) = kept c.
Proof. unfold kept. now rewrite capitalUnit_space, capitalUnit_punctuation. Qed.

Lemma capitalUnit_upper (p : bool) (c : char16) :
  toUpperUnit (capitalUnit p c) = toUpperUnit c.
Proof. unfold capitalUnit. destruct (_ && _); auto using toUpperUnit_idempotent. Qed.

Lemma capitalizeFrom_skeleton (s : jsstring) : forall p,
  skeleton (capitalizeFrom p s) = skeleton s.
Proof.
  induction s as [|c s IH]; intros p; [reflexivity|].
  now rewrite capitalizeFrom_cons, !skeleton_cons, capitalUnit_kept, capitalUnit_upper, IH.
Qed.

(** C10.  The hyphen is not in the replaced punctuation, and no hyphen of
    the title is removed or replaced.  Without white space, replaced
    punctuation and letter case, the normalised title is the title itself, so
    every hyphen stays where it is among the other units; and the returned
    title has the hyphens of the title, plus the one of the suffix when the
    suffix is appended. *)
Theorem optimizeTitle_keeps_hyphens (t : jsstring) :
  isTitlePunctuation hyphen = false
  /\ kept hyphen = true
  /\ skeleton (capitalizeWords (cleanTitle t)) = skeleton t
  /\ occurrences hyphen (capitalizeWords (cleanTitle t)) = occurrences hyphen t
  /\ occurrences hyphen (optimizeTitle t)
     = (occurrences hyphen t
        + if hasLocalityMarker (capitalizeWords (cleanTitle t)) then 0 else 1)%nat.
Proof.
  assert (H : occurrences hyphen (capitalizeWords (cleanTitle t)) = occurrences hyphen t).
  { unfold capitalizeWords, cleanTitle, trim, collapseWhiteSpace. fold (replacePunctuation t).
    now rewrite capitalizeFrom_hyphens, trimEnd_hyphens, trimStart_hyphens,
      collapseFrom_hyphens, replacePunctuation_hyphens. }
  split; [reflexivity|]. split; [reflexivity|]. split; [|split; [exact H|]].
  - unfold capitalizeWords, cleanTitle, trim, collapseWhiteSpace. fold (replacePunctuation t).
    now rewrite capitalizeFrom_skeleton, trimEnd_skeleton, trimStart_skeleton,
      collapseFrom_skeleton, replacePunctuation_skeleton.
  - rewrite optimizeTitle_cases.
    destruct (hasLocalityMarker (capitalizeWords (cleanTitle t))).
    + rewrite H. lia.
    + rewrite occurrences_app, H. reflexivity.
Qed.

(** ** ContentSectionizer and ContentAssembler *)

(** The contact scan is the regular expression literal of the source. *)
Lemma contactPattern_source : Regex.compile contactSource = Normal contactPattern.
Proof. vm_compute. reflexivity. Qed.

Lemma structure_noSection (s : ContentSections) : noSection s = true -> structure s = [].
Proof.
  unfold noSection. rewrite !andb_true_iff, !negb_true_iff, !Nat.eqb_eq.
  intros [[[[[[H1 H2] H3] H4] H5] H6] H7].
  unfold structure. cbv zeta. rewrite H1, H2, H3, H4, H5, H6, H7. reflexivity.
Qed.

Lemma nonEmpty_true (s : jsstring) : nonEmpty s = true -> s <> [].
Proof. destruct s; [discriminate | discriminate]. Qed.

(** C8, as stated: the assembled content is never empty when the body is
    not empty.  The body of [blankPosting] is one space; it is trimmed to the
    empty string, no section has content, and the assembled content is empty. *)
Lemma blank_body_gives_empty_content :
  description blankPosting <> []
  /\ restructureContent blankPosting = Normal []
  /\ exists o, optimizeJobSEO blankPosting = Normal o /\ optimizedContent o = [].
Proof.
  split; [discriminate|]. split; [vm_compute; reflexivity|].
  eexists. split; [vm_compute; reflexivity | reflexivity].
Qed.

(** C8, amended.  When the scan of the normalised body returns sections:
    if none has content, [restructureContent] returns the normalised body
    (entities replaced, white space collapsed, trimmed) as it is; and the
    assembled content, which is the [optimizedContent] of [optimizeJobSEO],
    is not empty when the normalised body is not empty. *)
Theorem restructureContent_fallback (job : Job) (sections : ContentSections) :
  identifyContentSections (normalizeBody (description job)) = Normal sections ->
  (noSection sections = true ->
   restructureContent job = Normal (normalizeBody (description job)))
  /\ (normalizeBody (description job) <> [] ->
      exists content,
        restructureContent job = Normal content /\ content <> []
        /\ exists o, optimizeJobSEO job = Normal o /\ optimizedContent o = content).
Proof.
  intros Hscan. unfold optimizeJobSEO, restructureContent. cbv zeta. rewrite Hscan.
  cbn [bind]. split.
  - intros Hnone. now rewrite (structure_noSection _ Hnone).
  - intros Hbody. eexists. split; [reflexivity|]. split.
    + destruct (nonEmpty (structure sections)) eqn:E; [now apply nonEmpty_true | exact Hbody].
    + eexists. split; reflexivity.
Qed.

Lemma restructureContent_fallback_example :
  restructureContent rolePosting = Normal (lit "role").
Proof.
  apply (proj1 (restructureContent_fallback rolePosting (mkSections [] [] [] [] [] [] [])
                  ltac:(vm_compute; reflexivity))).
  reflexivity.
Defined.

(** C3: what the code does on [parenPosting].  The contact scan captures a
    span that ends with the telephone number, before the closing parenthesis;
    the span is passed to [new RegExp] as it is, where the open group is a
    syntax error; so [identifyContentSections], [restructureContent] and
    [optimizeJobSEO] throw. *)
Theorem optimizeJobSEO_throws_on_open_parenthesis :
  Regex.matchAll contactPattern (normalizeBody (description parenPosting))
  = [lit "Contact us (tel: 011 555 1234"]
  /\ Regex.compile (lit "Contact us (tel: 011 555 1234") = Throw SyntaxError
  /\ identifyContentSections (normalizeBody (description parenPosting)) = Throw SyntaxError
  /\ restructureContent parenPosting = Throw SyntaxError
  /\ optimizeJobSEO parenPosting = Throw SyntaxError.
Proof. vm_compute. repeat split. Qed.

(** ** Optional fields *)

Lemma truthy_absentIfEmpty (o : option jsstring) : truthy (absentIfEmpty o) = truthy o.
Proof. destruct o as [[|c s]|]; reflexivity. Qed.

Lemma orElse_absentIfEmpty (o : option jsstring) (d : jsstring) :
  orElse (absentIfEmpty o) d = orElse o d.
Proof. destruct o as [[|c s]|]; reflexivity. Qed.

Lemma present_absentIfEmpty (o : option jsstring) :
  Spec.present (absentIfEmpty o) = Spec.present o.
Proof. destruct o as [[|c s]|]; reflexivity. Qed.

Lemma analysisContent_withEmptyAbsent (job : Job) :
  analysisContent (withEmptyAbsent job) = analysisContent job.
Proof.
  unfold analysisContent. cbn [withEmptyAbsent title description company location].
  now rewrite !orElse_absentIfEmpty.
Qed.

Lemma generateFocusKeyphrase_withEmptyAbsent (keywords : list KeywordData) (job : Job) :
  generateFocusKeyphrase keywords (withEmptyAbsent job) = generateFocusKeyphrase keywords job.
Proof.
  unfold generateFocusKeyphrase. cbn [withEmptyAbsent location].
  destruct (location job) as [[|c s]|]; reflexivity.
Qed.

Lemma metaTemplate_withEmptyAbsent (job : Job) :
  metaTemplate (withEmptyAbsent job) = metaTemplate job.
Proof.
  unfold metaTemplate. cbn [withEmptyAbsent title company location jobType salary].
  rewrite !orElse_absentIfEmpty.
  destruct (salary job) as [[|c s]|]; reflexivity.
Qed.

Lemma rubric_withEmptyAbsent (job : Job) (keywords : list KeywordData) :
  Spec.rubric (withEmptyAbsent job) keywords = Spec.rubric job keywords.
Proof.
  unfold Spec.rubric.
  cbn [withEmptyAbsent title description company location jobType category
       focusKeyphrase metaDescription].
  now rewrite !present_absentIfEmpty.
Qed.

Lemma generateRecommendations_withEmptyAbsent (job : Job) (s : Z) (keywords : list KeywordData) :
  generateRecommendations (withEmptyAbsent job) s keywords
  = generateRecommendations job s keywords.
Proof.
  unfold generateRecommendations.
  cbn [withEmptyAbsent title description company location focusKeyphrase metaDescription].
  now rewrite !truthy_absentIfEmpty.
Qed.

(** C9, as stated: a white-space-only field is treated as an absent one.
    A company of one space earns the bonus of 5, suppresses the
    missing-company recommendation, and is written into the meta description
    in place of the default. *)
Lemma space_company_counts_as_present :
  score (analyzeJob spaceCompanyPosting) = (score (analyzeJob noCompanyPosting) + 5)%Z
  /\ mem (lit "Add company name for better credibility")
         (recommendations (analyzeJob noCompanyPosting)) = true
  /\ mem (lit "Add company name for better credibility")
         (recommendations (analyzeJob spaceCompanyPosting)) = false
  /\ startsWith (analysisMetaDescription (analyzeJob noCompanyPosting))
                (lit "Join Leading company as a ") = true
  /\ startsWith (analysisMetaDescription (analyzeJob spaceCompanyPosting))
                (lit "Join   as a ") = true
  /\ analyzeJob spaceCompanyPosting <> analyzeJob noCompanyPosting.
Proof. vm_compute. repeat split. discriminate. Qed.

(** C9, amended.  An optional field (company, location, jobType, category,
    salary, existing focus phrase, existing meta description) whose value is
    the empty string is treated by [analyzeJob] and [optimizeJobSEO] exactly
    as if the field were absent.  (A field of white space only is a present
    field.) *)
Theorem empty_field_is_absent (job : Job) :
  analyzeJob (withEmptyAbsent job) = analyzeJob job
  /\ optimizeJobSEO (withEmptyAbsent job) = optimizeJobSEO job.
Proof.
  assert (H : analyzeJob (withEmptyAbsent job) = analyzeJob job).
  { unfold analyzeJob, generateMetaDescription, calculateSEOScore. cbv zeta.
    rewrite analysisContent_withEmptyAbsent, !generateFocusKeyphrase_withEmptyAbsent,
      !metaTemplate_withEmptyAbsent, !scoreBeforeClamp_rubric, rubric_withEmptyAbsent,
      generateRecommendations_withEmptyAbsent.
    reflexivity. }
  split; [exact H|].
  unfold optimizeJobSEO. cbv zeta. rewrite H. reflexivity.
Qed.

Example empty_company_is_absent :
  analyzeJob (mkJob (lit "Senior Nurse") (lit "Care for patients.") (Some [])
                None None None None None None)
  = analyzeJob noCompanyPosting.
Proof. vm_compute. reflexivity. Qed.

(** ** KeywordExtractor: ranking *)

Lemma str_eqb_eq (a b : jsstring) : str_eqb a b = true <-> a = b.
Proof.
  revert b. induction a as [|x a IH]; intros [|y b]; cbn; try (split; congruence).
  rewrite andb_true_iff, N.eqb_eq, IH. split; [intros [-> ->]; reflexivity | intros H; injection H; auto].
Qed.

Lemma str_eqb_refl (a : jsstring) : str_eqb a a = true.
Proof. now apply str_eqb_eq. Qed.

Lemma str_eqb_neq (a b : jsstring) : str_eqb a b = false <-> a <> b.
Proof.
  rewrite <- str_eqb_eq. destruct (str_eqb a b); split; congruence.
Qed.

Lemma mem_In (x : jsstring) (l : list jsstring) : mem x l = true <-> In x l.
Proof.
  unfold mem. rewrite existsb_exists. split.
  - intros [y [Hin Heq]]. apply str_eqb_eq in Heq. now subst.
  - intros Hin. exists x. split; [exact Hin | apply str_eqb_refl].
Qed.

Lemma mem_not_In (x : jsstring) (l : list jsstring) : mem x l = false <-> ~ In x l.
Proof. rewrite <- mem_In. destruct (mem x l); split; congruence. Qed.

(** *** Order in a list *)

Section Order.
Context {A : Type}.

Lemma precedes_app_l (a b : A) (x y : list A) : precedes a b y -> precedes a b (x ++ y).
Proof.
  intros [l1 [l2 [l3 ->]]]. exists (x ++ l1), l2, l3. now rewrite app_assoc.
Qed.

Lemma precedes_In (a b : A) (l : list A) : precedes a b l -> In a l /\ In b l.
Proof.
  intros [l1 [l2 [l3 ->]]]. split.
  - apply in_or_app. right. left. reflexivity.
  - apply in_or_app. right. right. apply in_or_app. right. left. reflexivity.
Qed.

Lemma precedes_filter (P : A -> bool) (a b : A) (l : list A) :
  precedes a b l -> P a = true -> P b = true -> precedes a b (filter P l).
Proof.
  intros [l1 [l2 [l3 ->]]] Ha Hb.
  exists (filter P l1), (filter P l2), (filter P l3).
  rewrite filter_app. cbn [filter]. rewrite Ha, filter_app. cbn [filter]. now rewrite Hb.
Qed.

Lemma filter_cons_inv (P : A -> bool) (a : A) (y l : list A) :
  filter P l = a :: y -> exists l0 l', l = l0 ++ a :: l' /\ filter P l' = y.
Proof.
  induction l as [|x l IH]; cbn; [discriminate|].
  destruct (P x).
  - intros H. injection H as -> <-. exists [], l. split; reflexivity.
  - intros H. destruct (IH H) as [l0 [l' [-> Hy]]].
    exists (x :: l0), l'. split; [reflexivity | exact Hy].
Qed.

Lemma filter_app_cons_inv (P : A -> bool) (a : A) (l1 r : list A) : forall l,
  filter P l = l1 ++ a :: r -> exists l1' r', l = l1' ++ a :: r' /\ filter P r' = r.
Proof.
  induction l1 as [|c l1 IH]; intros l H.
  - now apply filter_cons_inv.
  - cbn [app] in H. apply filter_cons_inv in H. destruct H as [l0 [l' [-> H]]].
    destruct (IH _ H) as [m [r' [-> Hr]]].
    exists (l0 ++ c :: m), r'. split; [|exact Hr].
    rewrite <- app_assoc. reflexivity.
Qed.

Lemma precedes_of_filter (P : A -> bool) (a b : A) (l : list A) :
  precedes a b (filter P l) -> precedes a b l.
Proof.
  intros [l1 [l2 [l3 H]]].
  apply filter_app_cons_inv in H. destruct H as [m1 [r1 [-> H]]].
  apply filter_app_cons_inv in H. destruct H as [m2 [r2 [-> _]]].
  now exists m1, m2, r2.
Qed.

Lemma NoDup_map_injective {B : Type} (f : A -> B) (l : list A) (x y : A) :
  NoDup (map f l) -> In x l -> In y l -> f x = f y -> x = y.
Proof.
  induction l as [|z l IH]; cbn; [tauto|].
  intros Hnd Hx Hy Heq. inversion Hnd as [|? ? Hnotin Hnd']; subst.
  destruct Hx as [->|Hx], Hy as [->|Hy]; auto.
  - exfalso. apply Hnotin. rewrite Heq. now apply in_map.
  - exfalso. apply Hnotin. rewrite <- Heq. now apply in_map.
Qed.
End Order.

Lemma precedes_map {A B : Type} (f : A -> B) (a b : A) (l : list A) :
  precedes a b l -> precedes (f a) (f b) (map f l).
Proof.
  intros [l1 [l2 [l3 ->]]]. exists (map f l1), (map f l2), (map f l3).
  rewrite map_app. cbn [map]. rewrite map_app. reflexivity.
Qed.

Lemma precedes_map_inv {A B : Type} (f : A -> B) (a b : B) (l : list A) :
  precedes a b (map f l) -> exists x y, f x = a /\ f y = b /\ precedes x y l.
Proof.
  intros [l1 [l2 [l3 H]]].
  apply map_eq_app in H. destruct H as [m1 [r1 [-> [_ H]]]].
  apply map_eq_cons in H. destruct H as [x [r2 [-> [Hx H]]]].
  apply map_eq_app in H. destruct H as [m2 [r3 [-> [_ H]]]].
  apply map_eq_cons in H. destruct H as [y [r4 [-> [Hy _]]]].
  exists x, y. split; [exact Hx|]. split; [exact Hy|]. now exists m1, m2, r4.
Qed.

(** *** The sort is a stable permutation *)

Section SortFacts.
Context {A : Type} (after : A -> A -> bool).

Lemma insertSorted_perm (x : A) (l : list A) : Permutation (insertSorted after x l) (x :: l).
Proof.
  induction l as [|y l IH]; cbn; [reflexivity|].
  destruct (after x y); [|reflexivity].
  rewrite IH. apply perm_swap.
Qed.

Lemma sort_perm (l : list A) : Permutation (sort after l) l.
Proof.
  induction l as [|x l IH]; cbn; [reflexivity|].
  rewrite insertSorted_perm. now constructor.
Qed.

(** The elements that satisfy [P] are never moved past one another. *)
Variable P : A -> bool.
Hypothesis tie : forall x y, P x = true -> P y = true -> after x y = false.

Lemma insertSorted_filter (x : A) (l : list A) :
  filter P (insertSorted after x l) = filter P (x :: l).
Proof.
  induction l as [|y l IH]; [reflexivity|].
  cbn [insertSorted]. destruct (after x y) eqn:E; [|reflexivity].
  cbn [filter] in *. rewrite IH.
  destruct (P x) eqn:Ex, (P y) eqn:Ey; try reflexivity.
  rewrite (tie x y Ex Ey) in E. discriminate.
Qed.

Lemma sort_filter (l : list A) : filter P (sort after l) = filter P l.
Proof.
  induction l as [|x l IH]; [reflexivity|].
  cbn [sort fold_right]. fold (sort after l).
  rewrite insertSorted_filter. cbn [filter]. now rewrite IH.
Qed.

Lemma sort_precedes (a b : A) (l : list A) :
  P a = true -> P b = true -> precedes a b l -> precedes a b (sort after l).
Proof.
  intros Ha Hb H. apply (precedes_of_filter P). rewrite sort_filter.
  now apply precedes_filter.
Qed.
End SortFacts.

Lemma filter_partition_perm {A : Type} (p : A -> bool) (l : list A) :
  Permutation (filter p l ++ filter (fun x => negb (p x)) l) l.
Proof.
  induction l as [|x l IH]; [reflexivity|].
  cbn [filter]. destruct (p x); cbn [negb app].
  - now constructor.
  - rewrite <- Permutation_middle. now constructor.
Qed.

Lemma entries_perm (f : slots) : Permutation (entries f) f.
Proof.
  unfold entries. rewrite sort_perm. apply filter_partition_perm.
Qed.

(** *** The keys of the [frequency] object *)

Lemma lookup_None (w : jsstring) (f : slots) :
  lookup w f = None <-> mem w (map fst f) = false.
Proof.
  induction f as [|[k v] f IH]; cbn; [tauto|].
  destruct (str_eqb w k); cbn; [split; discriminate | exact IH].
Qed.

Lemma update_keys (w : jsstring) (v : tally) (f : slots) :
  map fst (update w v f) = map fst f.
Proof.
  induction f as [|[k u] f IH]; cbn; [reflexivity|].
  destruct (str_eqb w k); cbn; [reflexivity | now rewrite IH].
Qed.

Lemma bump_keys (f : slots) (w : jsstring) :
  inheritedMember w = NoMember -> map fst (bump f w) = addKey (map fst f) w.
Proof.
  intros Hw. unfold bump, addKey. destruct (lookup w f) as [[n|]|] eqn:E.
  - rewrite update_keys.
    destruct (mem w (map fst f)) eqn:M; [reflexivity|].
    apply lookup_None in M. congruence.
  - destruct (mem w (map fst f)) eqn:M; [reflexivity|].
    apply lookup_None in M. congruence.
  - rewrite Hw. apply lookup_None in E. rewrite E, map_app. reflexivity.
Qed.

Lemma countWords_keys (words : list jsstring) : forall f,
  Forall (fun w => inheritedMember w = NoMember) words ->
  map fst (fold_left bump words f) = fold_left addKey words (map fst f).
Proof.
  induction words as [|w words IH]; intros f H; [reflexivity|].
  inversion H; subst. cbn [fold_left]. rewrite IH by assumption. now rewrite bump_keys.
Qed.

Lemma addKey_extends (words : list jsstring) : forall keys,
  exists extra, fold_left addKey words keys = keys ++ extra.
Proof.
  induction words as [|w words IH]; intros keys; cbn [fold_left].
  - exists []. now rewrite app_nil_r.
  - destruct (IH (addKey keys w)) as [extra ->]. unfold addKey.
    destruct (mem w keys); [now exists extra|].
    exists (w :: extra). now rewrite <- app_assoc.
Qed.

Lemma addKey_In (words : list jsstring) : forall keys x,
  In x (fold_left addKey words keys) <-> In x keys \/ In x words.
Proof.
  induction words as [|w words IH]; intros keys x; cbn [fold_left In]; [tauto|].
  rewrite IH. unfold addKey. destruct (mem w keys) eqn:M.
  - apply mem_In in M. split; [tauto|]. intros [H|[<-|H]]; auto.
  - rewrite in_app_iff. cbn [In]. tauto.
Qed.

Lemma addKey_NoDup (words : list jsstring) : forall keys,
  NoDup keys -> NoDup (fold_left addKey words keys).
Proof.
  induction words as [|w words IH]; intros keys H; [exact H|].
  cbn [fold_left]. apply IH. unfold addKey. destruct (mem w keys) eqn:M; [exact H|].
  apply mem_not_In in M. apply NoDup_app; [exact H | repeat constructor; auto |].
  intros x Hx [<-|[]]. contradiction.
Qed.

(** *** First occurrences *)

Lemma firstIndex_split (a b : jsstring) (l : list jsstring) :
  (Spec.firstIndex a l < Spec.firstIndex b l)%nat ->
  exists p q, l = p ++ a :: q /\ ~ In a p /\ ~ In b p.
Proof.
  induction l as [|x l IH]; cbn [Spec.firstIndex]; [lia|].
  destruct (str_eqb a x) eqn:Ea.
  - apply str_eqb_eq in Ea. subst x. intros _. exists [], l. cbn. tauto.
  - destruct (str_eqb b x) eqn:Eb; [lia|].
    intros H. destruct IH as [p [q [-> [Ha Hb]]]]; [lia|].
    apply str_eqb_neq in Ea, Eb.
    exists (x :: p), q. cbn. split; [reflexivity|]. split; intros [?|?]; congruence || tauto.
Qed.

Lemma firstIndex_app (b : jsstring) (l r : list jsstring) :
  ~ In b l -> Spec.firstIndex b (l ++ r) = (List.length l + Spec.firstIndex b r)%nat.
Proof.
  induction l as [|x l IH]; cbn; [reflexivity|].
  intros H. destruct (str_eqb b x) eqn:E.
  - apply str_eqb_eq in E. subst. tauto.
  - rewrite IH by tauto. reflexivity.
Qed.

Lemma firstIndex_here (a : jsstring) (r : list jsstring) : Spec.firstIndex a (a :: r) = 0%nat.
Proof. cbn. now rewrite str_eqb_refl. Qed.

Lemma firstn_In {A : Type} (n : nat) (l : list A) (x : A) : In x (firstn n l) -> In x l.
Proof.
  intros H. rewrite <- (firstn_skipn n l). apply in_or_app. now left.
Qed.

(** In a list without repetition, the order of two members that both
    survive a cut is the order of their first occurrences in the cut. *)
Lemma precedes_firstn (a b : jsstring) (l : list jsstring) (n : nat) :
  NoDup l -> precedes a b l -> In b (firstn n l) ->
  (Spec.firstIndex a (firstn n l) < Spec.firstIndex b (firstn n l))%nat.
Proof.
  intros Hnd [l1 [l2 [l3 ->]]] Hin.
  assert (Ha : ~ In a l1).
  { intros H. apply NoDup_remove_2 in Hnd. apply Hnd. apply in_or_app. now left. }
  assert (Hb : ~ In b (l1 ++ a :: l2)).
  { change (l1 ++ a :: l2 ++ b :: l3) with (l1 ++ (a :: l2) ++ b :: l3) in Hnd.
    rewrite app_assoc in Hnd. apply NoDup_remove_2 in Hnd.
    intros H. apply Hnd. apply in_or_app. now left. }
  change (l1 ++ a :: l2 ++ b :: l3) with (l1 ++ (a :: l2) ++ b :: l3) in *.
  rewrite app_assoc in *.
  rewrite firstn_app in *.
  destruct (Nat.le_gt_cases n (List.length (l1 ++ a :: l2))) as [Hle|Hgt].
  - exfalso. replace (n - List.length (l1 ++ a :: l2))%nat with 0%nat in Hin by lia.
    cbn [firstn] in Hin. rewrite app_nil_r in Hin. apply Hb.
    eapply firstn_In. exact Hin.
  - rewrite (firstn_all2 (n := n) (l1 ++ a :: l2)) by lia.
    destruct (n - List.length (l1 ++ a :: l2))%nat as [|m] eqn:E; [lia|].
    cbn [firstn]. rewrite (firstIndex_app b _ _ Hb), firstIndex_here.
    rewrite <- app_assoc. rewrite (firstIndex_app a _ _ Ha). cbn [app].
    rewrite firstIndex_here, length_app. cbn [List.length]. lia.
Qed.

Lemma first_occurrence_order (words : list jsstring) (a b : jsstring) :
  (Spec.firstIndex a words < Spec.firstIndex b words)%nat -> In b words ->
  precedes a b (fold_left addKey words []).
Proof.
  intros Hlt Hin. destruct (firstIndex_split a b words Hlt) as [p [q [-> [Ha Hb]]]].
  assert (Hab : a <> b).
  { intros ->. rewrite (firstIndex_app b p (b :: q) Hb) in Hlt. lia. }
  rewrite fold_left_app. cbn [fold_left].
  set (kp := fold_left addKey p []).
  assert (Hkpa : ~ In a kp) by (unfold kp; rewrite addKey_In; cbn; tauto).
  assert (Hkpb : ~ In b kp) by (unfold kp; rewrite addKey_In; cbn; tauto).
  unfold addKey at 2. apply mem_not_In in Hkpa. rewrite Hkpa.
  destruct (addKey_extends q (kp ++ [a])) as [extra Hextra].
  assert (Hbq : In b q).
  { apply in_app_or in Hin. destruct Hin as [?|[?|?]]; [tauto | congruence | assumption]. }
  assert (Hbx : In b extra).
  { assert (H : In b (fold_left addKey q (kp ++ [a]))) by (apply addKey_In; now right).
    rewrite Hextra in H. rewrite !in_app_iff in H. cbn [In] in H.
    destruct H as [[?|[?|[]]]|?]; [tauto | congruence | assumption]. }
  apply in_split in Hbx. destruct Hbx as [e1 [e2 ->]].
  rewrite Hextra. exists kp, e1, e2. rewrite <- app_assoc. reflexivity.
Qed.

(** *** Ties in the ranking *)

Lemma hasKey_refl (x : KeywordData) : hasKey (rankKey x) x = true.
Proof. unfold hasKey. destruct (rankKey x); [apply N.eqb_refl | reflexivity]. Qed.

Lemma hasKey_tie (k : option N) (x y : KeywordData) :
  hasKey k x = true -> hasKey k y = true -> rankedAfter x y = false.
Proof.
  unfold hasKey, rankedAfter.
  destruct (rankKey x) as [a|], (rankKey y) as [b|], k as [c|]; try discriminate; try reflexivity.
  rewrite !N.eqb_eq. intros -> ->. apply N.ltb_irrefl.
Qed.

(** C6, as stated: of two terms with the same ranking key, the one that
    occurs first in the source ranks first.  In [zebraCorpus] the word zebra
    comes before the word 100 and both have the key 1 (frequency 1, weight
    1), yet 100 is ranked first: it is an array index, and [Object.entries]
    lists such keys before all others. *)
Lemma array_index_term_ranks_first :
  retainedWords zebraCorpus = [lit "zebra"; lit "100"]
  /\ map term (extractKeywords zebraCorpus) = [lit "100"; lit "zebra"]
  /\ map rankKey (extractKeywords zebraCorpus) = [Some 1; Some 1]
  /\ (Spec.firstIndex (lit "zebra") (retainedWords zebraCorpus)
      < Spec.firstIndex (lit "100") (retainedWords zebraCorpus))%nat
  /\ ~ (Spec.firstIndex (lit "zebra") (map term (extractKeywords zebraCorpus))
        < Spec.firstIndex (lit "100") (map term (extractKeywords zebraCorpus)))%nat.
Proof. vm_compute. repeat split; lia. Qed.

(** C6, amended.  Let the retained words of a corpus contain no name of a
    member of [Object.prototype] (so that every frequency is a number and the
    comparison function of the sort is an order).  For two returned
    keywords with identical frequency times relevance whose terms are not
    array indices, the one whose term occurs first among the retained words
    of the source ranks before the other in the returned list. *)
Theorem ranking_ties_follow_first_occurrence (content : jsstring) (k1 k2 : KeywordData) :
  Forall (fun w => inheritedMember w = NoMember) (retainedWords content) ->
  In k1 (extractKeywords content) -> In k2 (extractKeywords content) ->
  rankKey k1 = rankKey k2 ->
  isArrayIndex (term k1) = false -> isArrayIndex (term k2) = false ->
  (Spec.firstIndex (term k1) (retainedWords content)
   < Spec.firstIndex (term k2) (retainedWords content))%nat ->
  (Spec.firstIndex (term k1) (map term (extractKeywords content))
   < Spec.firstIndex (term k2) (map term (extractKeywords content)))%nat.
Proof.
  intros Hproto H1 H2 Hkey Hi1 Hi2 Hlt.
  unfold extractKeywords in *. cbv zeta in *.
  set (words := retainedWords content) in *.
  set (mk := fun e : jsstring * tally =>
               mkKeyword (fst e) (snd e) (calculateRelevance (fst e))) in *.
  set (F := countWords words) in *.
  set (K := map mk (entries F)) in *.
  assert (HkeysF : map fst F = fold_left addKey words [])
    by apply (countWords_keys words [] Hproto).
  assert (HtermK : map term K = map fst (entries F))
    by (unfold K; rewrite map_map; reflexivity).
  assert (HpermE : Permutation (map fst (entries F)) (map fst F))
    by apply Permutation_map, entries_perm.
  assert (HndK : NoDup (map term K)).
  { rewrite HtermK. apply (Permutation_NoDup (Permutation_sym HpermE)).
    rewrite HkeysF. apply addKey_NoDup. constructor. }
  assert (HpermS : Permutation (sort rankedAfter K) K) by apply sort_perm.
  assert (HndS : NoDup (map term (sort rankedAfter K))).
  { apply (Permutation_NoDup (Permutation_sym (Permutation_map term HpermS))), HndK. }
  assert (Hk1 : In k1 K) by (apply (Permutation_in _ HpermS); eapply firstn_In; exact H1).
  assert (Hk2 : In k2 K) by (apply (Permutation_in _ HpermS); eapply firstn_In; exact H2).
  assert (Ht2 : In (term k2) words).
  { apply (in_map term) in Hk2. rewrite HtermK in Hk2.
    apply (Permutation_in _ HpermE) in Hk2. rewrite HkeysF in Hk2.
    apply addKey_In in Hk2. destruct Hk2 as [[]|Hk2]. exact Hk2. }
  pose proof (first_occurrence_order words _ _ Hlt Ht2) as Hprec.
  rewrite <- HkeysF in Hprec.
  apply precedes_map_inv in Hprec. destruct Hprec as [e1 [e2 [He1 [He2 Hprec]]]].
  assert (HprecE : precedes e1 e2 (entries F)).
  { unfold entries. apply precedes_app_l, precedes_filter; [exact Hprec| |].
    - now rewrite He1, Hi1.
    - now rewrite He2, Hi2. }
  apply (precedes_map mk) in HprecE. fold K in HprecE.
  destruct (precedes_In _ _ _ HprecE) as [Hm1 Hm2].
  assert (E1 : mk e1 = k1) by (apply (NoDup_map_injective term K); auto).
  assert (E2 : mk e2 = k2) by (apply (NoDup_map_injective term K); auto).
  rewrite E1, E2 in HprecE.
  apply (sort_precedes rankedAfter (hasKey (rankKey k1)) (hasKey_tie (rankKey k1))) in HprecE;
    [| apply hasKey_refl | rewrite Hkey; apply hasKey_refl].
  apply (precedes_map term) in HprecE.
  rewrite <- firstn_map. apply precedes_firstn; [exact HndS | exact HprecE |].
  rewrite firstn_map. apply in_map. exact H2.
Qed.

(** A corpus of two words with the same key. *)
Lemma ranking_ties_example :
  (Spec.firstIndex (lit "zebra") (map term (extractKeywords (lit "zebra quagga")))
   < Spec.firstIndex (lit "quagga") (map term (extractKeywords (lit "zebra quagga"))))%nat.
Proof.
  apply (ranking_ties_follow_first_occurrence (lit "zebra quagga")
           (mkKeyword (lit "zebra") (Count 1) 1) (mkKeyword (lit "quagga") (Count 1) 1)).
  - vm_compute. repeat constructor.
  - vm_compute. auto.
  - vm_compute. auto.
  - reflexivity.
  - reflexivity.
  - reflexivity.
  - vm_compute. lia.
Defined.

(** * Further properties *)

(** ** KeywordExtractor: the returned keywords *)

Lemma bump_keys_cases (f : slots) (w : jsstring) :
  map fst (bump f w) = map fst f
  \/ (map fst (bump f w) = map fst f ++ [w] /\ ~ In w (map fst f)).
Proof.
  unfold bump. destruct (lookup w f) as [[n|]|] eqn:E.
  - left. apply update_keys.
  - now left.
  - apply lookup_None, mem_not_In in E.
    destruct (inheritedMember w); [right | right | left]; rewrite ?map_app; auto.
Qed.

Lemma countWords_keys_NoDup (words : list jsstring) : forall f,
  NoDup (map fst f) -> NoDup (map fst (fold_left bump words f)).
Proof.
  induction words as [|w words IH]; intros f H; [exact H|].
  cbn [fold_left]. apply IH.
  destruct (bump_keys_cases f w) as [->|[-> Hw]]; [exact H|].
  apply NoDup_app; [exact H | repeat constructor; auto |].
  intros x Hx [<-|[]]. contradiction.
Qed.

Lemma countWords_keys_In (words : list jsstring) : forall f x,
  In x (map fst (fold_left bump words f)) -> In x (map fst f) \/ In x words.
Proof.
  induction words as [|w words IH]; intros f x H; [now left|].
  cbn [fold_left] in H. apply IH in H. cbn [In].
  destruct H as [H|H]; [|tauto].
  destruct (bump_keys_cases f w) as [E|[E _]]; rewrite E in H; [tauto|].
  apply in_app_or in H. destruct H as [H|[<-|[]]]; tauto.
Qed.

(** The keywords before the cut, as a rearrangement of the slots. *)
Lemma ranked_perm (content : jsstring) :
  exists ranked,
    extractKeywords content = firstn 20 ranked
    /\ Permutation ranked
         (map (fun e => mkKeyword (fst e) (snd e) (calculateRelevance (fst e)))
              (countWords (retainedWords content))).
Proof.
  unfold extractKeywords. cbv zeta. eexists. split; [reflexivity|].
  rewrite sort_perm. apply Permutation_map, entries_perm.
Qed.

Lemma splitRunsFrom_pieces (Q : char16 -> Prop) (s : jsstring) : forall b cur,
  Forall Q cur -> Forall (fun c => isWhiteSpace c = false -> Q c) s ->
  Forall (Forall Q) (splitRunsFrom b cur s).
Proof.
  induction s as [|c s IH]; intros b cur Hcur Hs; cbn [splitRunsFrom].
  - constructor; [|constructor]. apply Forall_rev, Hcur.
  - inversion Hs as [|? ? Hc Hs']; subst. destruct (isWhiteSpace c) eqn:E.
    + destruct b; [apply IH; auto|]. constructor; [apply Forall_rev, Hcur | apply IH; auto].
    + apply IH; auto.
Qed.

Lemma retainedWords_form (content : jsstring) :
  Forall (fun w => (2 < List.length w)%nat /\ mem w stopWords = false
                   /\ Forall (fun c => isWordChar c = true) w)
         (retainedWords content).
Proof.
  unfold retainedWords. apply Forall_forall. intros w Hw.
  apply filter_In in Hw. destruct Hw as [Hin Hkeep].
  apply andb_prop in Hkeep. destruct Hkeep as [Hlen Hstop].
  apply Nat.ltb_lt in Hlen. apply negb_true_iff in Hstop.
  split; [exact Hlen|]. split; [exact Hstop|].
  clear Hlen Hstop. revert w Hin. apply Forall_forall. unfold splitWhiteSpace.
  apply splitRunsFrom_pieces; [constructor|].
  apply Forall_forall. intros c Hc E.
  apply in_map_iff in Hc. destruct Hc as [c0 [<- _]].
  destruct (isWordChar c0) eqn:Ew; cbn [orb] in *; [exact Ew|].
  destruct (isWhiteSpace c0) eqn:Es; [congruence|].
  discriminate E.
Qed.

(** X1.  [extractKeywords] returns at most 20 keywords; their terms are
    pairwise distinct; every term is one of the retained words of the
    content, so it is longer than two units, is no stop word and consists of
    [\w] units only; and the relevance of a keyword is the one
    [calculateRelevance] gives its term, 1 or 2. *)
Theorem extractKeywords_terms (content : jsstring) :
  (List.length (extractKeywords content) <= 20)%nat
  /\ NoDup (map term (extractKeywords content))
  /\ Forall (fun k =>
               In (term k) (retainedWords content)
               /\ (2 < List.length (term k))%nat
               /\ mem (term k) stopWords = false
               /\ Forall (fun c => isWordChar c = true) (term k)
               /\ relevance k = calculateRelevance (term k)
               /\ (relevance k = 1 \/ relevance k = 2))
            (extractKeywords content).
Proof.
  destruct (ranked_perm content) as [ranked [-> Hperm]].
  set (mk := fun e : jsstring * tally =>
               mkKeyword (fst e) (snd e) (calculateRelevance (fst e))) in *.
  set (F := countWords (retainedWords content)) in *.
  assert (Hterms : map term (map mk F) = map fst F) by (rewrite map_map; reflexivity).
  assert (Hnd : NoDup (map term ranked)).
  { apply (Permutation_NoDup (Permutation_sym (Permutation_map term Hperm))).
    rewrite Hterms. apply countWords_keys_NoDup. constructor. }
  split; [apply firstn_le_length|]. split.
  - rewrite <- firstn_map. rewrite <- (firstn_skipn 20 (map term ranked)) in Hnd.
    now apply NoDup_app_remove_r in Hnd.
  - apply Forall_forall. intros k Hk. apply firstn_In in Hk.
    apply (Permutation_in _ Hperm) in Hk.
    apply in_map_iff in Hk. destruct Hk as [e [<- He]]. cbn [term relevance mk].
    assert (Hw : In (fst e) (retainedWords content)).
    { apply (in_map fst) in He. apply countWords_keys_In in He. destruct He as [[]|He]. exact He. }
    pose proof (retainedWords_form content) as Hform.
    rewrite Forall_forall in Hform. destruct (Hform _ Hw) as [H1 [H2 H3]].
    repeat split; auto.
    unfold calculateRelevance. destruct (existsb _ _); auto.
Qed.

(** ** KeywordExtractor: frequencies *)

Lemma lookup_update_same (w : jsstring) (v : tally) (f : slots) :
  lookup w f <> None -> lookup w (update w v f) = Some v.
Proof.
  induction f as [|[k u] f IH]; cbn; [congruence|].
  destruct (str_eqb w k) eqn:E; cbn; rewrite E; auto.
Qed.

Lemma lookup_update_other (w x : jsstring) (v : tally) (f : slots) :
  w <> x -> lookup w (update x v f) = lookup w f.
Proof.
  intros Hne. induction f as [|[k u] f IH]; cbn; [reflexivity|].
  destruct (str_eqb x k) eqn:Ex; cbn.
  - apply str_eqb_eq in Ex. subst k.
    apply str_eqb_neq in Hne. now rewrite Hne.
  - destruct (str_eqb w k); auto.
Qed.

Lemma lookup_app_one (w k : jsstring) (v : tally) (f : slots) :
  lookup w (f ++ [(k, v)]) =
  match lookup w f with
  | Some t => Some t
  | None => if str_eqb w k then Some v else None
  end.
Proof.
  induction f as [|[k0 u] f IH]; cbn; [reflexivity|].
  destruct (str_eqb w k0); auto.
Qed.

Lemma lookup_bump_same (w : jsstring) (f : slots) :
  lookup w (bump f w) = bumpSlot (inheritedMember w) (lookup w f).
Proof.
  unfold bump, bumpSlot. destruct (lookup w f) as [[n|]|] eqn:E.
  - apply lookup_update_same. congruence.
  - exact E.
  - destruct (inheritedMember w); rewrite ?lookup_app_one, ?E, ?str_eqb_refl; auto.
Qed.

Lemma lookup_bump_other (w x : jsstring) (f : slots) :
  w <> x -> lookup w (bump f x) = lookup w f.
Proof.
  intros Hne. unfold bump. destruct (lookup x f) as [[n|]|] eqn:E.
  - now apply lookup_update_other.
  - reflexivity.
  - destruct (inheritedMember x); rewrite ?lookup_app_one; auto;
      apply str_eqb_neq in Hne; rewrite Hne; destruct (lookup w f); reflexivity.
Qed.

Lemma lookup_countWords (w : jsstring) (words : list jsstring) : forall f,
  lookup w (fold_left bump words f)
  = Nat.iter (countOf w words) (bumpSlot (inheritedMember w)) (lookup w f).
Proof.
  unfold countOf. induction words as [|x words IH]; intros f; [reflexivity|].
  cbn [fold_left filter]. rewrite IH. destruct (str_eqb w x) eqn:E.
  - apply str_eqb_eq in E. subst x. rewrite lookup_bump_same.
    cbn [List.length]. now rewrite Nat.iter_succ_r.
  - apply str_eqb_neq in E. now rewrite lookup_bump_other.
Qed.

Lemma iter_bumpSlot_count (n : nat) (c : N) :
  Nat.iter n (bumpSlot NoMember) (Some (Count c)) = Some (Count (c + N.of_nat n)).
Proof.
  induction n as [|n IH].
  - cbn. now rewrite N.add_0_r.
  - rewrite Nat.iter_succ, IH. cbn [bumpSlot]. do 2 f_equal. lia.
Qed.

Lemma iter_bumpSlot_fresh (n : nat) :
  Nat.iter (S n) (bumpSlot NoMember) None = Some (Count (N.of_nat (S n))).
Proof.
  rewrite Nat.iter_succ_r. cbn [bumpSlot]. rewrite iter_bumpSlot_count. do 2 f_equal. lia.
Qed.

Lemma iter_bumpSlot_function (n : nat) :
  Nat.iter (S n) (bumpSlot FunctionMember) None = Some NotANumber.
Proof.
  rewrite Nat.iter_succ_r. cbn [bumpSlot]. induction n as [|n IH]; [reflexivity|].
  rewrite Nat.iter_succ. now rewrite IH.
Qed.

Lemma iter_bumpSlot_proto (n : nat) : Nat.iter n (bumpSlot ProtoAccessor) None = None.
Proof. induction n as [|n IH]; [reflexivity|]. rewrite Nat.iter_succ. now rewrite IH. Qed.

Lemma lookup_In (w : jsstring) (t : tally) (f : slots) :
  NoDup (map fst f) -> In (w, t) f -> lookup w f = Some t.
Proof.
  induction f as [|[k u] f IH]; cbn; [tauto|].
  intros Hnd [H|H]; inversion Hnd; subst.
  - injection H as -> ->. now rewrite str_eqb_refl.
  - destruct (str_eqb w k) eqn:E; [|auto].
    apply str_eqb_eq in E. subst k. exfalso.
    apply (in_map fst) in H. auto.
Qed.

(** X2.  The frequency of a returned keyword is the number of occurrences of
    its term among the retained words, which is at least 1, unless the term
    names a function of [Object.prototype] (such as the word constructor):
    then the frequency is not a number.  The word [__proto__] is never
    returned. *)
Theorem extractKeywords_frequency (content : jsstring) (k : KeywordData) :
  In k (extractKeywords content) ->
  (1 <= countOf (term k) (retainedWords content))%nat
  /\ match inheritedMember (term k) with
     | NoMember => frequency k = Count (N.of_nat (countOf (term k) (retainedWords content)))
     | FunctionMember => frequency k = NotANumber
     | ProtoAccessor => False
     end.
Proof.
  intros Hk. destruct (ranked_perm content) as [ranked [E Hperm]].
  rewrite E in Hk. apply firstn_In in Hk. apply (Permutation_in _ Hperm) in Hk.
  apply in_map_iff in Hk. destruct Hk as [[w t] [<- He]]. cbn [term frequency fst snd].
  assert (Hnd : NoDup (map fst (countWords (retainedWords content))))
    by (apply countWords_keys_NoDup; constructor).
  pose proof (lookup_In w t _ Hnd He) as Hl.
  unfold countWords in Hl. rewrite lookup_countWords in Hl. cbn [lookup] in Hl.
  destruct (countOf w (retainedWords content)) as [|n] eqn:En; [discriminate|].
  split; [lia|].
  destruct (inheritedMember w).
  - rewrite iter_bumpSlot_fresh in Hl. congruence.
  - rewrite iter_bumpSlot_function in Hl. congruence.
  - rewrite iter_bumpSlot_proto in Hl. discriminate.
Qed.

Lemma extractKeywords_frequency_example :
  frequency (mkKeyword (lit "nurse") (Count 2) 1) = Count 2
  /\ (1 <= countOf (lit "nurse") (retainedWords (lit "nurse wanted: a nurse")))%nat.
Proof.
  pose proof (extractKeywords_frequency (lit "nurse wanted: a nurse")
                (mkKeyword (lit "nurse") (Count 2) 1)
                ltac:(vm_compute; auto)) as [H1 H2].
  split; [exact H2 | exact H1].
Defined.

(** ** KeywordExtractor: the order of the ranking *)

Lemma update_counts (w : jsstring) (v : tally) (f : slots) :
  (exists n, v = Count n) ->
  Forall (fun e => exists n, snd e = Count n) f ->
  Forall (fun e => exists n, snd e = Count n) (update w v f).
Proof.
  intros Hv. induction 1 as [|[k u] f Hu Hf IH]; cbn; [constructor|].
  destruct (str_eqb w k); constructor; auto.
Qed.

Lemma countWords_counts (words : list jsstring) : forall f,
  Forall (fun w => inheritedMember w = NoMember) words ->
  Forall (fun e => exists n, snd e = Count n) f ->
  Forall (fun e => exists n, snd e = Count n) (fold_left bump words f).
Proof.
  induction words as [|w words IH]; intros f Hw Hf; [exact Hf|].
  inversion Hw as [|? ? Hm Hw']; subst. cbn [fold_left]. apply IH; [exact Hw'|].
  unfold bump. destruct (lookup w f) as [[n|]|].
  - apply update_counts; eauto.
  - exact Hf.
  - rewrite Hm. apply Forall_app. split; [exact Hf|]. repeat constructor. cbn. eauto.
Qed.

Lemma rankedAfter_numeric (x y : KeywordData) :
  numeric x -> numeric y -> rankedAfter x y = (keyValue x <? keyValue y).
Proof.
  intros [n Hx] [m Hy]. unfold rankedAfter, keyValue, rankKey. now rewrite Hx, Hy.
Qed.

Lemma insertSorted_descending (x : KeywordData) (l : list KeywordData) :
  numeric x -> Forall numeric l -> Sorted.StronglySorted notBelow l ->
  Sorted.StronglySorted notBelow (insertSorted rankedAfter x l).
Proof.
  intros Hx Hl Hs. induction Hs as [|y l Hs IH Hy]; cbn [insertSorted].
  - repeat constructor.
  - inversion Hl as [|? ? Hny Hl']; subst.
    rewrite (rankedAfter_numeric x y Hx Hny).
    destruct (N.ltb_spec (keyValue x) (keyValue y)) as [Hlt|Hge].
    + constructor; [apply IH, Hl'|].
      apply Forall_forall. intros z Hz.
      apply (Permutation_in _ (insertSorted_perm rankedAfter x l)) in Hz.
      destruct Hz as [<-|Hz]; [unfold notBelow; lia|].
      rewrite Forall_forall in Hy. now apply Hy.
    + constructor; [constructor; assumption|].
      constructor; [exact Hge|].
      apply Forall_forall. intros z Hz. rewrite Forall_forall in Hy.
      specialize (Hy z Hz). unfold notBelow in *. lia.
Qed.

Lemma sort_descending (l : list KeywordData) :
  Forall numeric l -> Sorted.StronglySorted notBelow (sort rankedAfter l).
Proof.
  induction 1 as [|x l Hx Hl IH]; [constructor|].
  cbn [sort fold_right]. fold (sort rankedAfter l).
  apply insertSorted_descending; [exact Hx | | exact IH].
  apply Forall_forall. intros z Hz.
  apply (Permutation_in _ (sort_perm rankedAfter l)) in Hz.
  rewrite Forall_forall in Hl. now apply Hl.
Qed.

Lemma StronglySorted_precedes {A : Type} (R : A -> A -> Prop) (a b : A) (l : list A) :
  Sorted.StronglySorted R l -> precedes a b l -> R a b.
Proof.
  intros Hs [l1 [l2 [l3 ->]]]. induction l1 as [|c l1 IH].
  - cbn in Hs. inversion Hs as [|? ? _ Hall]; subst.
    rewrite Forall_forall in Hall. apply Hall.
    apply in_or_app. right. now left.
  - cbn in Hs. inversion Hs; subst. auto.
Qed.

Lemma precedes_of_firstn {A : Type} (n : nat) (a b : A) (l : list A) :
  precedes a b (firstn n l) -> precedes a b l.
Proof.
  intros [l1 [l2 [l3 H]]]. rewrite <- (firstn_skipn n l), H.
  exists l1, l2, (l3 ++ skipn n l).
  rewrite <- app_assoc. cbn [app]. rewrite <- app_assoc. reflexivity.
Qed.

(** X3.  When no retained word names a member of [Object.prototype], every
    returned keyword has a numeric key, and the keywords are returned in
    descending order of frequency times relevance: a keyword never stands
    before one with a greater key. *)
Theorem extractKeywords_descending (content : jsstring) (a b : KeywordData) :
  Forall (fun w => inheritedMember w = NoMember) (retainedWords content) ->
  precedes a b (extractKeywords content) ->
  exists ka kb, rankKey a = Some ka /\ rankKey b = Some kb /\ kb <= ka.
Proof.
  intros Hw Hp. unfold extractKeywords in Hp. cbv zeta in Hp.
  apply precedes_of_firstn in Hp.
  set (mk := fun e : jsstring * tally =>
               mkKeyword (fst e) (snd e) (calculateRelevance (fst e))) in *.
  assert (Hnum : Forall numeric (map mk (entries (countWords (retainedWords content))))).
  { apply Forall_forall. intros k Hk. apply in_map_iff in Hk.
    destruct Hk as [e [<- He]]. apply (Permutation_in _ (entries_perm _)) in He.
    pose proof (countWords_counts (retainedWords content) [] Hw (Forall_nil _)) as Hc.
    rewrite Forall_forall in Hc. exact (Hc e He). }
  pose proof (StronglySorted_precedes _ _ _ _ (sort_descending _ Hnum) Hp) as Hab.
  destruct (precedes_In _ _ _ Hp) as [Ha Hb].
  apply (Permutation_in _ (sort_perm rankedAfter _)) in Ha, Hb.
  rewrite Forall_forall in Hnum.
  destruct (Hnum a Ha) as [n Hn], (Hnum b Hb) as [m Hm].
  unfold notBelow, keyValue, rankKey in Hab. rewrite Hn, Hm in Hab.
  exists (n * relevance a), (m * relevance b). unfold rankKey. rewrite Hn, Hm. auto.
Qed.

Lemma extractKeywords_descending_example :
  exists ka kb,
    rankKey (mkKeyword (lit "nurse") (Count 2) 1) = Some ka
    /\ rankKey (mkKeyword (lit "zebra") (Count 1) 1) = Some kb /\ kb <= ka.
Proof.
  apply (extractKeywords_descending (lit "zebra nurse nurse")).
  - vm_compute. repeat constructor.
  - exists [], [], []. vm_compute. reflexivity.
Defined.

(** ** FocusPhraseBuilder with fewer than three keywords *)

(** X4.  With fewer than three keywords, a location that is not empty after
    cleaning and is none of the terms becomes the last entry of the focus
    phrase. *)
Theorem generateFocusKeyphrase_appends_location
  (keywords : list KeywordData) (job : Job) (l : jsstring) :
  (List.length keywords < 3)%nat ->
  location job = Some l ->
  cleanLocation l <> [] ->
  mem (cleanLocation l) (map term keywords) = false ->
  generateFocusKeyphrase keywords job
  = join (lit " ") (map term keywords ++ [cleanLocation l]).
Proof.
  intros Hlen Hloc Hne Hmem. unfold generateFocusKeyphrase. cbv zeta.
  rewrite Hloc. cbn [option_map]. fold (cleanLocation l).
  rewrite (firstn_all2 (n := 3) keywords) by lia.
  destruct (cleanLocation l) as [|c s] eqn:E; [congruence|].
  rewrite Hmem. cbn [negb]. rewrite firstn_all2; [reflexivity|].
  rewrite length_app, length_map. cbn. lia.
Qed.

Lemma generateFocusKeyphrase_appends_location_example :
  generateFocusKeyphrase [mkKeyword (lit "nurse") (Count 1) 1]
    (mkJob (lit "Nurse") (lit "Care") None (Some (lit "Cape Town!")) None None None None None)
  = lit "nurse cape town".
Proof.
  apply (generateFocusKeyphrase_appends_location
           [mkKeyword (lit "nurse") (Count 1) 1] _ (lit "Cape Town!")).
  - cbn. lia.
  - reflexivity.
  - vm_compute. discriminate.
  - reflexivity.
Defined.

(** ** ScoreCalculator: the values the score takes *)

Lemma calculateSEOScore_facts (job : Job) (keywords : list KeywordData) (focus : jsstring) :
  (50 <= calculateSEOScore job keywords focus <= 100)%Z
  /\ calculateSEOScore job keywords focus = Z.min 100 (scoreBeforeClamp job keywords)
  /\ (calculateSEOScore job keywords focus mod 5 = 0)%Z.
Proof.
  unfold calculateSEOScore. cbv zeta. rewrite scoreBeforeClamp_rubric.
  unfold Spec.rubric, Spec.bonus.
  repeat match goal with |- context [if ?b then _ else _] => destruct b end;
    cbn; repeat split; discriminate || reflexivity.
Qed.

(** X5.  The score is at least 50, so the lower bound of the clamp never
    applies; it is at most 100 and a multiple of 5. *)
Theorem calculateSEOScore_values (job : Job) (keywords : list KeywordData) (focus : jsstring) :
  (50 <= calculateSEOScore job keywords focus <= 100)%Z
  /\ calculateSEOScore job keywords focus = Z.min 100 (scoreBeforeClamp job keywords)
  /\ (calculateSEOScore job keywords focus mod 5 = 0)%Z.
Proof. apply calculateSEOScore_facts. Qed.

(** ** RecommendationEngine *)

Lemma pushIf_nil (b : bool) (item : jsstring) (l : list jsstring) :
  pushIf b item l = [] <-> b = false /\ l = [].
Proof.
  unfold pushIf. destruct b.
  - split; [|intros [H _]; discriminate]. destruct l; discriminate.
  - tauto.
Qed.

Lemma In_pushIf (x : jsstring) (b : bool) (item : jsstring) (l : list jsstring) :
  In x (pushIf b item l) <-> In x l \/ (b = true /\ x = item).
Proof.
  unfold pushIf. destruct b.
  - rewrite in_app_iff. cbn. intuition congruence.
  - intuition congruence.
Qed.

Lemma short_title_check (s : jsstring) (n : nat) :
  (0 < n)%nat ->
  negb (nonEmpty s) || (List.length s <? n)%nat = negb (n <=? List.length s)%nat.
Proof.
  intros Hn. rewrite nonEmpty_length.
  destruct (Nat.leb_spec n (List.length s)), (Nat.ltb_spec (List.length s) n),
    (Nat.eqb_spec (List.length s) 0); cbn; try lia; reflexivity.
Qed.

(** X6.  [generateRecommendations] returns no item exactly when every check
    passes: title of at least 10 units, description of at least 150, company,
    location, focus phrase and meta description present, top keyword (if
    any) not of frequency below 2, and score at least 70. *)
Theorem generateRecommendations_empty_iff
  (job : Job) (s : Z) (keywords : list KeywordData) :
  generateRecommendations job s keywords = [] <-> allChecksPass job s keywords = true.
Proof.
  unfold generateRecommendations, allChecksPass. cbv zeta.
  rewrite !short_title_check by lia.
  rewrite pushIf_nil.
  assert (Hkw : forall l : list jsstring,
             match keywords with
             | topKeyword :: _ =>
                 pushIf (tallyLt (frequency topKeyword) 2)
                   (lit "Include " ++ [34] ++ term topKeyword ++ [34]
                    ++ lit " more frequently in the description") l
             | [] => l
             end = []
             <-> match keywords with
                 | topKeyword :: _ => negb (tallyLt (frequency topKeyword) 2)
                 | [] => true
                 end = true /\ l = []).
  { intros l. destruct keywords as [|k rest]; [tauto|].
    rewrite pushIf_nil, negb_true_iff. tauto. }
  rewrite Hkw, !pushIf_nil, !andb_true_iff, !negb_false_iff, Z.ltb_ge, Z.leb_le.
  tauto.
Qed.

Lemma In_generateRecommendations_overall
  (job : Job) (s : Z) (keywords : list KeywordData) :
  In overallItem (generateRecommendations job s keywords) <-> (s < 70)%Z.
Proof.
  unfold generateRecommendations. cbv zeta. rewrite In_pushIf, Z.ltb_lt. split.
  - intros [H|[H _]]; [exfalso | exact H].
    destruct keywords as [|k rest].
    + rewrite !In_pushIf in H. cbn [In] in H.
      decompose [or and] H; try contradiction; discriminate.
    + rewrite !In_pushIf in H. cbn [In] in H.
      decompose [or and] H; try contradiction; try discriminate.
  - intros H. right. split; [exact H | reflexivity].
Qed.

Lemma In_generateRecommendations_field
  (job : Job) (s : Z) (keywords : list KeywordData) :
  (truthy (company job) = false -> In companyItem (generateRecommendations job s keywords))
  /\ (truthy (location job) = false -> In locationItem (generateRecommendations job s keywords))
  /\ (truthy (focusKeyphrase job) = false -> In focusItem (generateRecommendations job s keywords))
  /\ (truthy (metaDescription job) = false -> In metaItem (generateRecommendations job s keywords)).
Proof.
  unfold generateRecommendations. cbv zeta.
  repeat split; intros H; rewrite In_pushIf; left;
    (destruct keywords as [|k rest]; [|rewrite In_pushIf; left]);
    rewrite !In_pushIf, H; cbn [negb]; unfold companyItem, locationItem, focusItem, metaItem;
    tauto.
Qed.

(** X7.  In the result of [analyzeJob] the overall-review item is present
    exactly when the score is below 70, and it never stands alone: a score
    below 70 means that the company, the location, the focus phrase or the
    meta description is missing, and the item for it is present too. *)
Theorem overall_review_never_alone (job : Job) :
  (In overallItem (recommendations (analyzeJob job)) <-> (score (analyzeJob job) < 70)%Z)
  /\ (In overallItem (recommendations (analyzeJob job)) ->
      In companyItem (recommendations (analyzeJob job))
      \/ In locationItem (recommendations (analyzeJob job))
      \/ In focusItem (recommendations (analyzeJob job))
      \/ In metaItem (recommendations (analyzeJob job))).
Proof.
  unfold analyzeJob. cbv zeta. cbn [recommendations score].
  set (keywords := extractKeywords (analysisContent job)).
  set (s := calculateSEOScore job keywords (generateFocusKeyphrase keywords job)).
  split; [apply In_generateRecommendations_overall|].
  rewrite In_generateRecommendations_overall.
  destruct (In_generateRecommendations_field job s keywords) as [Hc [Hl [Hf Hm]]].
  intros Hs.
  destruct (truthy (company job)) eqn:Ec; [|auto].
  destruct (truthy (location job)) eqn:El; [|auto].
  destruct (truthy (focusKeyphrase job)) eqn:Ef; [|auto].
  destruct (truthy (metaDescription job)) eqn:Em; [|auto 6].
  exfalso. unfold s, calculateSEOScore in Hs. cbv zeta in Hs.
  rewrite scoreBeforeClamp_rubric in Hs. unfold Spec.rubric in Hs.
  rewrite <- !truthy_present, Ec, El, Ef, Em in Hs. unfold Spec.bonus in Hs.
  repeat match type of Hs with context [if ?b then _ else _] => destruct b end; cbn in Hs; lia.
Qed.

(** ** ContentSectionizer: what the sections hold *)

Lemma extractListItems_itemList (section : jsstring) : itemList (extractListItems section).
Proof.
  unfold extractListItems, itemList. cbv zeta. split; [apply firstn_le_length|].
  apply firstn_Forall, Forall_forall. intros item Hin.
  apply filter_In in Hin. destruct Hin as [_ Hband].
  apply andb_prop in Hband. destruct Hband as [Hlo Hhi].
  apply Nat.ltb_lt in Hlo, Hhi. lia.
Qed.

Lemma itemList_nil : itemList [].
Proof. split; [cbn; lia | constructor]. Qed.

Lemma itemList_choice (b : bool) (section content : jsstring) :
  itemList (fst (if b then (extractListItems section, removeFirst section content)
                 else ([], content))).
Proof. destruct b; cbn [fst]; [apply extractListItems_itemList | apply itemList_nil]. Qed.

(** One category of [identifyContentSections]: the span is extracted and,
    if there is one, turned into items. *)
Ltac list_category H :=
  match goal with
  | |- bind (extractSection ?c ?kws) _ = _ -> _ =>
      let span := fresh "span" in
      destruct (extractSection c kws) as [span| |]; cbn [bind];
      [|discriminate|discriminate];
      pose proof (itemList_choice (nonEmpty span) span c) as H;
      destruct (if nonEmpty span then _ else _) as [? ?]; cbn [fst] in H
  end.

(** X8.  Whenever [identifyContentSections] returns, the overview has at
    most 200 units and does not begin with white space, the company
    information has at most 300 units, each of the three lists has at most 8
    items of 11 to 149 units, and the application information is empty. *)
Theorem identifyContentSections_bounds (content : jsstring) (s : ContentSections) :
  identifyContentSections content = Normal s ->
  (List.length (overview s) <= 200)%nat /\ headOk (overview s)
  /\ (List.length (companyInfo s) <= 300)%nat
  /\ itemList (responsibilities s) /\ itemList (requirements s) /\ itemList (skills s)
  /\ applicationInfo s = [].
Proof.
  unfold identifyContentSections. cbv zeta.
  generalize (Regex.matchAll contactPattern content). intros matches.
  destruct matches as [|m matches];
    [|destruct (Regex.compile (join (lit "|") (m :: matches))) as [regex| |];
      [|discriminate|discriminate]];
    cbn [bind].
  all: list_category H1; list_category H2; list_category H3.
  all: match goal with
       | |- bind (extractSection ?c ?kws) _ = _ -> _ =>
           destruct (extractSection c kws) as [cs| |]; cbn [bind];
           [|discriminate|discriminate];
           assert (H4 : (List.length (fst (if nonEmpty cs then (firstn 300 cs, removeFirst cs c)
                                           else ([], c))) <= 300)%nat)
             by (destruct (nonEmpty cs); cbn [fst]; [apply firstn_le_length | cbn; lia]);
           destruct (if nonEmpty cs then _ else _) as [comp c4]; cbn [fst] in H4
       end.
  all: remember (firstn 200 (trim c4)) as ov eqn:Eov.
  all: intros H; injection H as <-.
  all: cbn [overview companyInfo responsibilities requirements skills applicationInfo].
  all: repeat split; auto; try apply H1; try apply H2; try apply H3; subst ov.
  all: try apply firstn_le_length.
  all: pose proof (trim_trimmed c4) as [Hh _];
       destruct (trim c4) as [|c t]; [exact I | exact Hh].
Qed.

Lemma identifyContentSections_bounds_example :
  (List.length (lit "Nurse wanted.") <= 200)%nat.
Proof.
  exact (proj1 (identifyContentSections_bounds (lit "Nurse wanted.")
                  (mkSections (lit "Nurse wanted.") [] [] [] [] [] [])
                  ltac:(vm_compute; reflexivity))).
Defined.

(** ** ContentAssembler: markup or body *)

Lemma structure_starts_with_heading (s : ContentSections) :
  noSection s = false -> startsWith (structure s) (lit "<h2>") = true.
Proof.
  destruct s as [ov rs rq sk ci ai co]. unfold noSection, structure. cbv zeta.
  cbn [overview responsibilities requirements skills companyInfo applicationInfo contactInfo].
  destruct ov, rs, rq, sk, ci, ai, co; cbn; intros H; try discriminate H; reflexivity.
Qed.

(** X9.  Whenever the scan of the normalised body returns sections,
    [restructureContent] returns the normalised body if no section has
    content, and otherwise the markup built from the sections, which begins
    with a heading and is not empty. *)
Theorem restructureContent_markup_or_body (job : Job) (s : ContentSections) :
  identifyContentSections (normalizeBody (description job)) = Normal s ->
  restructureContent job
  = Normal (if noSection s then normalizeBody (description job) else structure s)
  /\ (noSection s = false -> startsWith (structure s) (lit "<h2>") = true).
Proof.
  intros Hscan. split; [|apply structure_starts_with_heading].
  unfold restructureContent. cbv zeta. rewrite Hscan. cbn [bind].
  destruct (noSection s) eqn:E.
  - now rewrite (structure_noSection s E).
  - pose proof (structure_starts_with_heading s E) as H.
    destruct (structure s); [discriminate H | reflexivity].
Qed.

Lemma restructureContent_markup_or_body_example :
  restructureContent
    (mkJob (lit "Nurse") (lit "Nurse wanted.") None None None None None None None)
  = Normal (lit "<h2>Job Overview</h2>" ++ newline ++ lit "<p>Nurse wanted.</p>"
            ++ newline ++ newline).
Proof.
  exact (proj1 (restructureContent_markup_or_body
                  (mkJob (lit "Nurse") (lit "Nurse wanted.") None None None None None None None)
                  (mkSections (lit "Nurse wanted.") [] [] [] [] [] [])
                  ltac:(vm_compute; reflexivity))).
Defined.

(** ** List items: what an item never contains *)

Lemma splitOnFrom_pieces (p : char16 -> bool) (s : jsstring) : forall cur,
  Forall (fun c => p c = false) cur ->
  Forall (Forall (fun c => p c = false)) (splitOnFrom p cur s).
Proof.
  induction s as [|c s IH]; intros cur Hcur; cbn [splitOnFrom].
  - constructor; [|constructor]. apply Forall_rev, Hcur.
  - destruct (p c) eqn:E.
    + constructor; [apply Forall_rev, Hcur | apply IH; constructor].
    + apply IH. constructor; assumption.
Qed.

Lemma trimStart_Forall (P : char16 -> Prop) (s : jsstring) :
  Forall P s -> Forall P (trimStart s).
Proof.
  unfold trimStart. induction 1 as [|c s Hc Hs IH]; [constructor|].
  cbn. destruct (isWhiteSpace c); [exact IH | constructor; auto].
Qed.

Lemma trimEnd_Forall (P : char16 -> Prop) (s : jsstring) :
  Forall P s -> Forall P (trimEnd s).
Proof.
  induction 1 as [|c s Hc Hs IH]; [constructor|].
  rewrite trimEnd_cons. destruct (trimEnd s).
  - destruct (isWhiteSpace c); repeat constructor; auto.
  - constructor; auto.
Qed.

(** X10.  No item returned by [extractListItems] contains a hyphen, a bullet
    or a middle dot, and no item begins or ends with white space: a
    hyphenated word ends one item and begins the next. *)
Theorem extractListItems_items (section : jsstring) :
  Forall (fun item => Forall (fun c => isBulletDelimiter c = false) item /\ trimmed item)
         (extractListItems section).
Proof.
  unfold extractListItems. cbv zeta. apply firstn_Forall, Forall_forall.
  intros item Hin. apply filter_In in Hin. destruct Hin as [Hin _].
  apply in_map_iff in Hin. destruct Hin as [piece [<- Hpiece]].
  split; [|apply trim_trimmed].
  unfold trim. apply trimEnd_Forall, trimStart_Forall.
  revert piece Hpiece. apply Forall_forall. unfold splitOn.
  apply splitOnFrom_pieces. constructor.
Qed.

Example extractListItems_hyphenated_word :
  extractListItems (lit "- Full-time position in our ward - Well-organised and punctual")
  = [lit "time position in our ward"; lit "organised and punctual"].
Proof. vm_compute. reflexivity. Qed.

(** ** The normalised body *)

(** X11.  The body [restructureContent] works on has no white space at
    either end, and each of its white-space units is a single U+0020
    between two other units. *)
Theorem normalizeBody_spacing (description : jsstring) :
  singleSpaced false (normalizeBody description) /\ trimmed (normalizeBody description).
Proof.
  unfold normalizeBody, collapseWhiteSpace. split; [|apply trim_trimmed].
  unfold trim. apply trimEnd_singleSpaced.
  eapply trimStart_singleSpaced, collapseFrom_singleSpaced.
Qed.

(** ** TitleNormalizer: the form of the returned title *)

Lemma optimizeTitle_nonempty (t : jsstring) : optimizeTitle t <> [].
Proof.
  rewrite optimizeTitle_cases.
  destruct (hasLocalityMarker (capitalizeWords (cleanTitle t))) eqn:E.
  - intros Hnil. rewrite Hnil in E. discriminate E.
  - destruct (capitalizeWords (cleanTitle t)); discriminate.
Qed.

(** X12.  The title [optimizeTitle] returns is not empty; it contains none
    of the replaced punctuation; each of its white-space units is a single
    U+0020 that follows another unit or begins the title; it does not end
    with white space; and capitalising its words again changes nothing. *)
Theorem optimizeTitle_form (t : jsstring) :
  optimizeTitle t <> []
  /\ plain (optimizeTitle t)
  /\ singleSpaced false (optimizeTitle t)
  /\ trimEnd (optimizeTitle t) = optimizeTitle t
  /\ capitalizeWords (optimizeTitle t) = optimizeTitle t.
Proof.
  assert (Htidy : tidy (capitalizeWords (cleanTitle t)))
    by apply capitalizeFrom_tidy, cleanTitle_tidy.
  assert (Hidem : capitalizeWords (capitalizeWords (cleanTitle t)) = capitalizeWords (cleanTitle t))
    by apply capitalizeFrom_idempotent.
  rewrite optimizeTitle_cases.
  destruct (hasLocalityMarker (capitalizeWords (cleanTitle t))) eqn:E.
  - destruct Htidy as [Hp [Hs [Hh He]]]. repeat split; auto.
    intros Hnil. rewrite Hnil in E. discriminate E.
  - rewrite capitalizeWords_with_suffix, Hidem.
    destruct (capitalizeWords (cleanTitle t)) as [|c o] eqn:Eo.
    + cbn [app]. repeat split; try discriminate; try reflexivity; repeat constructor.
    + rewrite <- Eo in *.
      assert (Hne : capitalizeWords (cleanTitle t) <> []) by (rewrite Eo; discriminate).
      destruct (tidy_with_suffix _ Htidy Hne) as [Hp [Hs [Hh He]]].
      repeat split; auto. rewrite Eo. discriminate.
Qed.

(** ** optimizeJobSEO: what the result is made of *)

Lemma metaTemplate_starts (job : Job) : exists rest, metaTemplate job = lit "Join " ++ rest.
Proof.
  unfold metaTemplate. cbv zeta.
  destruct (salary job) as [[|c s]|]; eexists; rewrite <- ?app_assoc; reflexivity.
Qed.

Lemma startsWith_app (p r : jsstring) : startsWith (p ++ r) p = true.
Proof.
  induction p as [|c p IH]; [destruct r; reflexivity|].
  cbn. now rewrite N.eqb_refl, IH.
Qed.

Lemma generateMetaDescription_starts (job : Job) :
  startsWith (generateMetaDescription job) (lit "Join ") = true.
Proof.
  unfold generateMetaDescription. cbv zeta.
  destruct (metaTemplate_starts job) as [rest ->].
  destruct (160 <? _)%nat; [|apply startsWith_app].
  change (firstn 157 (lit "Join " ++ rest)) with (lit "Join " ++ firstn 152 rest).
  rewrite <- app_assoc. apply startsWith_app.
Qed.

Lemma optimizeJobSEO_bind (job : Job) :
  optimizeJobSEO job
  = bind (restructureContent job)
      (fun content =>
         Normal (mkOptimization
                   (analysisFocusKeyphrase (analyzeJob job))
                   (generateMetaDescription job)
                   (optimizeTitle (title job))
                   content
                   (recommendations (analyzeJob job))
                   (score (analyzeJob job)))).
Proof.
  unfold optimizeJobSEO. cbv zeta. f_equal.
  assert (Hor : forall s d : jsstring, s <> [] -> orText s d = s)
    by (intros [|c s] d H; [congruence | reflexivity]).
  assert (Hor0 : forall s : jsstring, orText s [] = s) by (intros [|c s]; reflexivity).
  unfold analyzeJob at 1 2 3. cbv zeta.
  cbn [analysisFocusKeyphrase analysisMetaDescription optimizedTitle].
  rewrite !Hor0, (Hor (optimizeTitle (title job))) by apply optimizeTitle_nonempty.
  reflexivity.
Qed.

Lemma calculateSEOScore_range (job : Job) (keywords : list KeywordData) (focus : jsstring) :
  (50 <= calculateSEOScore job keywords focus <= 100)%Z.
Proof. apply calculateSEOScore_facts. Qed.

(** What the route handlers store of a returned optimization. *)
Lemma optimizeJobSEO_returned (job : Job) (o : Optimization) :
  optimizeJobSEO job = Normal o ->
  (50 <= seoScore o <= 100)%Z
  /\ optOptimizedTitle o = optimizeTitle (title job)
  /\ optOptimizedTitle o <> []
  /\ restructureContent job = Normal (optimizedContent o).
Proof.
  rewrite optimizeJobSEO_bind.
  destruct (restructureContent job) as [content| |]; cbn [bind]; try discriminate.
  intros H. injection H as <-. cbn [seoScore optOptimizedTitle optimizedContent].
  split; [apply calculateSEOScore_range|].
  split; [reflexivity|]. split; [apply optimizeTitle_nonempty | reflexivity].
Qed.

(** X13.  [optimizeJobSEO] returns exactly when [restructureContent] does,
    and throws what it throws.  The returned title is the one
    [optimizeTitle] gives and is never replaced by the title of the posting;
    the meta description is the one [generateMetaDescription] gives, which
    begins with the word Join and is never empty; focus phrase,
    recommendations and score are those of [analyzeJob]. *)
Theorem optimizeJobSEO_result (job : Job) :
  optimizeJobSEO job
  = bind (restructureContent job)
      (fun content =>
         Normal (mkOptimization
                   (analysisFocusKeyphrase (analyzeJob job))
                   (generateMetaDescription job)
                   (optimizeTitle (title job))
                   content
                   (recommendations (analyzeJob job))
                   (score (analyzeJob job))))
  /\ startsWith (generateMetaDescription job) (lit "Join ") = true
  /\ optimizeTitle (title job) <> [].
Proof.
  split; [apply optimizeJobSEO_bind|].
  split; [apply generateMetaDescription_starts | apply optimizeTitle_nonempty].
Qed.

(** * The storage *)

Import Storage StorageSpec.

(** ** Maps *)

Section JSMapFacts.
Context {K V : Type} (eqb : K -> K -> bool).
Hypothesis eqb_eq : forall a b, eqb a b = true <-> a = b.

Lemma eqb_same (a : K) : eqb a a = true.
Proof. now apply eqb_eq. Qed.

Lemma eqb_differ (a b : K) : a <> b -> eqb a b = false.
Proof. intros H. destruct (eqb a b) eqn:E; [|reflexivity]. now apply eqb_eq in E. Qed.

Lemma get_set (k k' : K) (v : V) (m : list (K * V)) :
  get eqb k' (set eqb k v m) = if eqb k' k then Some v else get eqb k' m.
Proof.
  induction m as [|[k0 v0] m IH]; cbn; [reflexivity|].
  destruct (eqb k k0) eqn:E; cbn.
  - apply eqb_eq in E. subst k0. destruct (eqb k' k); reflexivity.
  - rewrite IH. destruct (eqb k' k0) eqn:E0; [|reflexivity].
    apply eqb_eq in E0. subst k0. rewrite eqb_differ; [reflexivity|].
    intros ->. now rewrite eqb_same in E.
Qed.

Lemma get_None (k : K) (m : list (K * V)) : get eqb k m = None <-> ~ In k (map fst m).
Proof.
  induction m as [|[k0 v0] m IH]; cbn; [tauto|].
  destruct (eqb k k0) eqn:E.
  - apply eqb_eq in E. subst. split; [discriminate | intros H; exfalso; apply H; now left].
  - rewrite IH. split; [|tauto]. intros H [->|Hin]; [|tauto]. now rewrite eqb_same in E.
Qed.

Lemma get_In (k : K) (v : V) (m : list (K * V)) : get eqb k m = Some v -> In (k, v) m.
Proof.
  induction m as [|[k0 v0] m IH]; cbn; [discriminate|].
  destruct (eqb k k0) eqn:E; [|auto].
  apply eqb_eq in E. subst. intros H. injection H as ->. now left.
Qed.

Lemma In_get (k : K) (v : V) (m : list (K * V)) :
  NoDup (map fst m) -> In (k, v) m -> get eqb k m = Some v.
Proof.
  induction m as [|[k0 v0] m IH]; cbn; [tauto|].
  intros Hnd [H|H]; inversion Hnd as [|? ? Hnotin Hnd']; subst.
  - injection H as -> ->. now rewrite eqb_same.
  - destruct (eqb k k0) eqn:E; [|auto].
    apply eqb_eq in E. subst. exfalso. apply Hnotin.
    change k0 with (fst (k0, v)). now apply in_map.
Qed.

Lemma set_absent (k : K) (v : V) (m : list (K * V)) :
  get eqb k m = None -> set eqb k v m = m ++ [(k, v)].
Proof.
  induction m as [|[k0 v0] m IH]; cbn; [reflexivity|].
  destruct (eqb k k0); [discriminate|]. intros H. now rewrite IH.
Qed.

Lemma set_present_keys (k : K) (v v0 : V) (m : list (K * V)) :
  get eqb k m = Some v0 -> map fst (set eqb k v m) = map fst m.
Proof.
  induction m as [|[k1 v1] m IH]; cbn; [discriminate|].
  destruct (eqb k k1); cbn; [reflexivity|]. intros H. now rewrite IH.
Qed.

Lemma set_Forall (P : K * V -> Prop) (k : K) (v : V) (m : list (K * V)) :
  Forall P m -> P (k, v) -> Forall P (set eqb k v m).
Proof.
  intros Hm Hk. induction Hm as [|[k0 v0] m H0 Hm IH]; cbn; [now repeat constructor|].
  destruct (eqb k k0) eqn:E.
  - apply eqb_eq in E. subst. now constructor.
  - now constructor.
Qed.

Lemma set_keys_NoDup (k : K) (v : V) (m : list (K * V)) :
  NoDup (map fst m) -> NoDup (map fst (set eqb k v m)).
Proof.
  intros Hnd. destruct (get eqb k m) as [v0|] eqn:E.
  - now rewrite (set_present_keys k v v0 m E).
  - rewrite (set_absent k v m E), map_app. cbn.
    apply NoDup_app; [exact Hnd | repeat constructor; intros [] |].
    intros x Hx [<-|[]]. now apply get_None in E.
Qed.

Lemma delete_get (k k' : K) (m : list (K * V)) :
  NoDup (map fst m) ->
  get eqb k' (fst (delete eqb k m)) = if eqb k' k then None else get eqb k' m.
Proof.
  induction m as [|[k0 v0] m IH]; cbn; intros Hnd.
  - now destruct (eqb k' k).
  - inversion Hnd as [|? ? Hnotin Hnd']; subst.
    destruct (eqb k k0) eqn:E.
    + apply eqb_eq in E. subst k0. cbn.
      destruct (eqb k' k) eqn:E'; [|reflexivity].
      apply eqb_eq in E'. subst k'. now apply get_None.
    + specialize (IH Hnd'). destruct (delete eqb k m) as [rest found]. cbn in *.
      destruct (eqb k' k0) eqn:E0; [|exact IH].
      apply eqb_eq in E0. subst k0. rewrite eqb_differ; [reflexivity|].
      intros ->. now rewrite eqb_same in E.
Qed.

Lemma delete_found (k : K) (m : list (K * V)) :
  snd (delete eqb k m) = match get eqb k m with Some _ => true | None => false end.
Proof.
  induction m as [|[k0 v0] m IH]; cbn; [reflexivity|].
  destruct (eqb k k0); [reflexivity|].
  destruct (delete eqb k m) as [rest found]. exact IH.
Qed.

Lemma delete_absent (k : K) (m : list (K * V)) :
  get eqb k m = None -> fst (delete eqb k m) = m.
Proof.
  induction m as [|[k0 v0] m IH]; cbn; [reflexivity|].
  destruct (eqb k k0); [discriminate|]. intros H. specialize (IH H).
  destruct (delete eqb k m) as [rest found]. cbn in *. now rewrite IH.
Qed.

Lemma delete_incl (k : K) (m : list (K * V)) : incl (fst (delete eqb k m)) m.
Proof.
  induction m as [|[k0 v0] m IH]; cbn; [apply incl_refl|].
  destruct (eqb k k0); [apply incl_tl, incl_refl|].
  destruct (delete eqb k m) as [rest found]. cbn in *.
  apply incl_cons; [now left | now apply incl_tl].
Qed.

Lemma delete_keys_NoDup (k : K) (m : list (K * V)) :
  NoDup (map fst m) -> NoDup (map fst (fst (delete eqb k m))).
Proof.
  induction m as [|[k0 v0] m IH]; cbn; [auto|]. intros Hnd.
  inversion Hnd as [|? ? Hnotin Hnd']; subst.
  destruct (eqb k k0); [exact Hnd'|].
  pose proof (delete_incl k m) as Hincl. specialize (IH Hnd').
  destruct (delete eqb k m) as [rest found]. cbn in *.
  constructor; [|exact IH]. intros Hin. apply Hnotin.
  apply in_map_iff in Hin. destruct Hin as [e [He Hin]].
  apply in_map_iff. exists e. split; [exact He | now apply Hincl].
Qed.

Lemma delete_Forall (P : K * V -> Prop) (k : K) (m : list (K * V)) :
  Forall P m -> Forall P (fst (delete eqb k m)).
Proof.
  intros H. apply Forall_forall. intros e He.
  rewrite Forall_forall in H. now apply H, (delete_incl k m).
Qed.

Lemma set_present_map {B : Type} (g : K * V -> B) (k : K) (v v0 : V) (m : list (K * V)) :
  get eqb k m = Some v0 -> g (k, v) = g (k, v0) -> map g (set eqb k v m) = map g m.
Proof.
  intros Hget Hg. induction m as [|[k1 v1] m IH]; cbn in *; [discriminate|].
  destruct (eqb k k1) eqn:E; cbn.
  - apply eqb_eq in E. subst k1. injection Hget as ->. now rewrite Hg.
  - now rewrite IH.
Qed.

Lemma keyed_set (key : V -> K) (k : K) (v : V) (m : list (K * V)) :
  keyed key m -> key v = k -> keyed key (set eqb k v m).
Proof.
  intros [Hnd Hall] Hk. split; [now apply set_keys_NoDup | now apply set_Forall].
Qed.

Lemma keyed_delete (key : V -> K) (k : K) (m : list (K * V)) :
  keyed key m -> keyed key (fst (delete eqb k m)).
Proof.
  intros [Hnd Hall]. split; [now apply delete_keys_NoDup | now apply delete_Forall].
Qed.

Lemma handedOut_set (id : V -> Z) (c c' : Z) (k : K) (v : V) (m : list (K * V)) :
  handedOut id c m -> (c <= c')%Z -> (1 <= id v < c')%Z -> handedOut id c' (set eqb k v m).
Proof.
  intros [Hc Hall] Hle Hv. split; [lia|].
  apply set_Forall; [|exact Hv].
  eapply Forall_impl; [|exact Hall]. cbn. intros e He. lia.
Qed.

Lemma handedOut_delete (id : V -> Z) (c : Z) (k : K) (m : list (K * V)) :
  handedOut id c m -> handedOut id c (fst (delete eqb k m)).
Proof. intros [Hc Hall]. split; [exact Hc | now apply delete_Forall]. Qed.

Lemma keyed_get (key : V -> K) (k : K) (v : V) (m : list (K * V)) :
  keyed key m -> get eqb k m = Some v -> key v = k.
Proof.
  intros [_ Hall] H. apply get_In in H. rewrite Forall_forall in Hall.
  exact (Hall _ H).
Qed.

Lemma handedOut_get (id : V -> Z) (c : Z) (k : K) (v : V) (m : list (K * V)) :
  handedOut id c m -> get eqb k m = Some v -> (1 <= id v < c)%Z.
Proof.
  intros [_ Hall] H. apply get_In in H. rewrite Forall_forall in Hall.
  exact (Hall _ H).
Qed.

End JSMapFacts.

(** ** The tables stay well formed *)

Lemma handedOut_fresh {V : Type} (id : V -> Z) (m : list (Z * V)) (c : Z) :
  keyed id m -> handedOut id c m -> get Z.eqb c m = None.
Proof.
  intros [_ Hk] [_ Hall]. apply (get_None _ Z.eqb_eq). intros Hin.
  apply in_map_iff in Hin. destruct Hin as [e [He Hin]].
  rewrite Forall_forall in Hk, Hall. specialize (Hk _ Hin). specialize (Hall _ Hin).
  cbn in *. lia.
Qed.

Ltac fields :=
  cbn [fst snd jobs optimizations configurations currentJobId currentOptimizationId
       currentConfigId].

Lemma wellFormed_empty : wellFormed empty.
Proof. repeat split; cbn; try constructor; lia. Qed.

Lemma wellFormed_createJob (st : MemStorage) (insertJob : InsertJob) (now : timestamp) :
  wellFormed st -> wellFormed (fst (createJob st insertJob now)).
Proof.
  intros [Hj [Hjc H]]. split; [|split; [|exact H]]; cbn.
  - now apply (keyed_set _ Z.eqb_eq).
  - apply (handedOut_set _ Z.eqb_eq _ (currentJobId st)); [exact Hjc | cbn; lia |].
    cbn. destruct Hjc. lia.
Qed.

Lemma wellFormed_updateJob (st : MemStorage) (id : Z) (jobUpdate : JobUpdate) (now : timestamp) :
  wellFormed st -> wellFormed (fst (updateJob st id jobUpdate now)).
Proof.
  intros Hwf. unfold updateJob. destruct (get Z.eqb id (jobs st)) as [job|] eqn:E; [|exact Hwf].
  destruct Hwf as [Hj [Hjc H]]. split; [|split; [|exact H]]; cbn.
  - apply (keyed_set _ Z.eqb_eq); [exact Hj|]. cbn. exact (keyed_get _ Z.eqb_eq _ _ _ _ Hj E).
  - apply (handedOut_set _ Z.eqb_eq _ (currentJobId st)); [exact Hjc | cbn; lia |].
    cbn. exact (handedOut_get _ Z.eqb_eq _ _ _ _ _ Hjc E).
Qed.

Lemma wellFormed_deleteJob (st : MemStorage) (id : Z) :
  wellFormed st -> wellFormed (fst (deleteJob st id)).
Proof.
  intros [Hj [Hjc H]]. unfold deleteJob.
  pose proof (keyed_delete Z.eqb rowId id _ Hj) as Hj'.
  pose proof (handedOut_delete Z.eqb rowId _ id _ Hjc) as Hjc'.
  destruct (delete Z.eqb id (jobs st)) as [rest found]. cbn in *.
  split; [exact Hj' | split; [exact Hjc' | exact H]].
Qed.

Lemma wellFormed_createOptimization (st : MemStorage) (ins : InsertOptimization)
  (now : timestamp) :
  wellFormed st -> wellFormed (fst (createOptimization st ins now)).
Proof.
  intros [Hj [Hjc [Ho [Hoc H]]]].
  split; [exact Hj | split; [exact Hjc | split; [|split; [|exact H]]]]; cbn.
  - now apply (keyed_set _ Z.eqb_eq).
  - apply (handedOut_set _ Z.eqb_eq _ (currentOptimizationId st)); [exact Hoc | cbn; lia |].
    cbn. destruct Hoc. lia.
Qed.

Lemma config_ids_fresh (m : list (jsstring * Configuration)) (c : Z) (k : jsstring)
  (v : Configuration) :
  handedOut cfgId c m -> NoDup (map (fun e => cfgId (snd e)) m) -> cfgId v = c ->
  NoDup (map (fun e => cfgId (snd e)) (m ++ [(k, v)])).
Proof.
  intros [_ Hall] Hnd Hv. rewrite map_app. cbn.
  apply NoDup_app; [exact Hnd | repeat constructor; intros [] |].
  intros x Hx [<-|[]]. apply in_map_iff in Hx. destruct Hx as [e [He Hin]].
  rewrite Forall_forall in Hall. specialize (Hall _ Hin). lia.
Qed.

Lemma wellFormed_setConfiguration (st : MemStorage) (config : InsertConfiguration)
  (now : timestamp) :
  wellFormed st -> wellFormed (fst (setConfiguration st config now)).
Proof.
  intros [Hj [Hjc [Ho [Hoc [Hc [Hcc Hid]]]]]]. unfold setConfiguration.
  destruct (get str_eqb (newKey config) (configurations st)) as [existing|] eqn:E; cbn;
    (split; [exact Hj | split; [exact Hjc | split; [exact Ho | split; [exact Hoc|]]]]).
  - split; [|split].
    + apply (keyed_set _ str_eqb_eq); [exact Hc|]. cbn.
      exact (keyed_get _ str_eqb_eq _ _ _ _ Hc E).
    + apply (handedOut_set _ str_eqb_eq _ (currentConfigId st)); [exact Hcc | cbn; lia |].
      cbn. exact (handedOut_get _ str_eqb_eq _ _ _ _ _ Hcc E).
    + fields. now rewrite (set_present_map _ str_eqb_eq _ _ _ existing).
  - split; [|split].
    + now apply (keyed_set _ str_eqb_eq).
    + apply (handedOut_set _ str_eqb_eq _ (currentConfigId st)); [exact Hcc | cbn; lia |].
      cbn. destruct Hcc. lia.
    + fields. rewrite (set_absent str_eqb _ _ _ E). now apply (config_ids_fresh _ (currentConfigId st)).
Qed.

Lemma wellFormed_updateConfiguration (st : MemStorage) (key value : jsstring)
  (now : timestamp) :
  wellFormed st -> wellFormed (fst (updateConfiguration st key value now)).
Proof.
  intros Hwf. unfold updateConfiguration.
  destruct (get str_eqb key (configurations st)) as [config|] eqn:E; [|exact Hwf].
  destruct Hwf as [Hj [Hjc [Ho [Hoc [Hc [Hcc Hid]]]]]]. cbn.
  split; [exact Hj | split; [exact Hjc | split; [exact Ho | split; [exact Hoc|]]]].
  split; [|split].
  - apply (keyed_set _ str_eqb_eq); [exact Hc|]. cbn.
    exact (keyed_get _ str_eqb_eq _ _ _ _ Hc E).
  - apply (handedOut_set _ str_eqb_eq _ (currentConfigId st)); [exact Hcc | cbn; lia |].
    cbn. exact (handedOut_get _ str_eqb_eq _ _ _ _ _ Hcc E).
  - fields. now rewrite (set_present_map _ str_eqb_eq _ _ _ config).
Qed.

Lemma wellFormed_perform (st : MemStorage) (c : call) :
  wellFormed st -> wellFormed (perform st c).
Proof.
  destruct c; cbn [perform];
    auto using wellFormed_createJob, wellFormed_updateJob, wellFormed_deleteJob,
      wellFormed_createOptimization, wellFormed_setConfiguration,
      wellFormed_updateConfiguration.
Qed.

Lemma wellFormed_afterCalls (calls : list call) : forall st,
  wellFormed st -> wellFormed (afterCalls calls st).
Proof.
  induction calls as [|c calls IH]; intros st H; [exact H|].
  apply IH, wellFormed_perform, H.
Qed.

Lemma wellFormed_initializeFrom (clock : nat -> timestamp)
  (configs : list InsertConfiguration) : forall k st,
  wellFormed st -> wellFormed (initializeFrom k clock configs st).
Proof.
  induction configs as [|c configs IH]; intros k st H; [exact H|].
  apply IH, wellFormed_setConfiguration, H.
Qed.

Lemma wellFormed_constructed (clock : nat -> timestamp) : wellFormed (constructed clock).
Proof. apply wellFormed_initializeFrom, wellFormed_empty. Qed.

(** X14.  After the constructor and any sequence of calls of the writing
    methods, every job, optimization and configuration is stored under its
    own id or key, no two rows of a table share an id, and every id in a
    table is at least 1 and below the counter that hands out the next one. *)
Theorem storage_stays_wellFormed (clock : nat -> timestamp) (calls : list call) :
  wellFormed (afterCalls calls (constructed clock)).
Proof. apply wellFormed_afterCalls, wellFormed_constructed. Qed.

Lemma exampleStorage_wellFormed : wellFormed exampleStorage.
Proof. apply wellFormed_afterCalls, wellFormed_constructed. Qed.

(** ** Jobs *)

Lemma perform_counter (st : MemStorage) (c : call) :
  (currentJobId st <= currentJobId (perform st c))%Z.
Proof.
  destruct c; cbn [perform].
  - cbn. lia.
  - unfold updateJob. destruct (get Z.eqb id (jobs st)); cbn; lia.
  - unfold deleteJob. destruct (delete Z.eqb id (jobs st)); cbn; lia.
  - cbn. lia.
  - unfold setConfiguration. destruct (get str_eqb (newKey config) (configurations st)); cbn; lia.
  - unfold updateConfiguration. destruct (get str_eqb key (configurations st)); cbn; lia.
Qed.

Lemma afterCalls_counter (calls : list call) : forall st,
  (currentJobId st <= currentJobId (afterCalls calls st))%Z.
Proof.
  induction calls as [|c calls IH]; intros st; cbn; [lia|].
  pose proof (perform_counter st c). specialize (IH (perform st c)).
  unfold afterCalls in IH. lia.
Qed.

(** X15.  An id is never handed out twice: a job created after another one,
    whatever was called in between and whether or not the first job was
    deleted, gets a greater id. *)
Theorem job_ids_never_reused (st : MemStorage) (first second : InsertJob)
  (now now' : timestamp) (calls : list call) :
  let created := createJob st first now in
  let later := createJob (afterCalls calls (fst created)) second now' in
  (rowId (snd created) < rowId (snd later))%Z.
Proof.
  cbn. pose proof (afterCalls_counter calls (fst (createJob st first now))) as H.
  cbn in H. lia.
Qed.

(** X16.  In a well-formed storage [createJob] adds one row at the end of
    the listing and changes no other: the new id was not in use, [getJob]
    finds the returned job under it and every other id as before. *)
Theorem createJob_then_getJob (st : MemStorage) (insertJob : InsertJob) (now : timestamp) :
  wellFormed st ->
  let st' := fst (createJob st insertJob now) in
  let job := snd (createJob st insertJob now) in
  getJob st (rowId job) = None
  /\ (forall id, getJob st' id = if (id =? rowId job)%Z then Some job else getJob st id)
  /\ getJobs st' None = getJobs st None ++ [job]
  /\ posting job = newPosting insertJob
  /\ createdAt job = now.
Proof.
  intros [Hj [Hjc _]]. cbn.
  pose proof (handedOut_fresh rowId _ _ Hj Hjc) as Hfresh.
  split; [exact Hfresh|]. split; [|split; [|split; reflexivity]].
  - intros id. unfold getJob. cbn. apply (get_set _ Z.eqb_eq).
  - unfold getJobs, values. cbn. rewrite (set_absent Z.eqb _ _ _ Hfresh), map_app. reflexivity.
Qed.

Lemma createJob_then_getJob_example :
  getJob exampleStorage 3 = None
  /\ getJob (fst (createJob exampleStorage
                    (mkInsertJob 103 rolePosting (Some (lit "pending")) None None) 12%Z)) 3
     = Some (mkJobRow 3 103 rolePosting (Some (lit "pending")) None None 12%Z 12%Z).
Proof.
  destruct (createJob_then_getJob exampleStorage
              (mkInsertJob 103 rolePosting (Some (lit "pending")) None None) 12%Z
              exampleStorage_wellFormed)
    as [H0 [H _]].
  split; [exact H0 | exact (H 3%Z)].
Defined.

(** X17.  [updateJob] with an id that is not stored changes nothing and
    returns [undefined].  Otherwise it returns the merged row, which keeps
    its id and its creation time and takes the new update time; [getJob]
    finds it under the id and every other id as before; and the listing has
    the same ids in the same order. *)
Theorem updateJob_effect (st : MemStorage) (id : Z) (jobUpdate : JobUpdate) (now : timestamp) :
  match getJob st id with
  | None => updateJob st id jobUpdate now = (st, None)
  | Some job =>
      let st' := fst (updateJob st id jobUpdate now) in
      let updated := merged job jobUpdate now in
      snd (updateJob st id jobUpdate now) = Some updated
      /\ rowId updated = rowId job
      /\ createdAt updated = createdAt job
      /\ updatedAt updated = now
      /\ (forall id', getJob st' id' = if (id' =? id)%Z then Some updated else getJob st id')
      /\ map rowId (getJobs st' None) = map rowId (getJobs st None)
  end.
Proof.
  unfold getJob, updateJob. destruct (get Z.eqb id (jobs st)) as [job|] eqn:E; [|reflexivity].
  cbn. repeat split.
  - intros id'. apply (get_set _ Z.eqb_eq).
  - unfold getJobs, values. cbn. rewrite !map_map.
    now apply (set_present_map _ Z.eqb_eq _ _ _ job).
Qed.

(** X18.  In a well-formed storage [deleteJob] returns whether the id was
    stored; afterwards [getJob] finds nothing under it and every other id
    as before, and the other tables and the counters are as they were. *)
Theorem deleteJob_effect (st : MemStorage) (id : Z) :
  wellFormed st ->
  let st' := fst (deleteJob st id) in
  snd (deleteJob st id) = match getJob st id with Some _ => true | None => false end
  /\ (forall id', getJob st' id' = if (id' =? id)%Z then None else getJob st id')
  /\ (getJob st id = None -> st' = st)
  /\ optimizations st' = optimizations st
  /\ configurations st' = configurations st
  /\ currentJobId st' = currentJobId st.
Proof.
  intros [[Hnd _] _]. unfold getJob, deleteJob. cbn zeta.
  pose proof (delete_found Z.eqb id (jobs st)) as Hfound.
  pose proof (fun id' => delete_get _ Z.eqb_eq id id' _ Hnd) as Hget.
  pose proof (delete_absent Z.eqb id (jobs st)) as Habsent.
  destruct (delete Z.eqb id (jobs st)) as [rest found]. cbn in *.
  repeat split; auto.
  intros H. rewrite (Habsent H). now destruct st.
Qed.

Lemma deleteJob_effect_example :
  snd (deleteJob exampleStorage 2) = true
  /\ getJob (fst (deleteJob exampleStorage 2)) 2 = None.
Proof.
  destruct (deleteJob_effect exampleStorage 2 exampleStorage_wellFormed) as [H0 [H _]].
  split; [exact H0 | exact (H 2%Z)].
Defined.

(** ** Configurations *)

(** X19.  [setConfiguration] stores the value under the key and returns the
    stored row, and no other key is affected.  For a key that is already
    stored only the value and the update time change: the row keeps its id,
    its creation time and its description, whatever description is passed,
    and no id is used up.  For a new key the row takes the next id and the
    description passed and comes last in the listing. *)
Theorem setConfiguration_upsert (st : MemStorage) (config : InsertConfiguration)
  (now : timestamp) :
  let st' := fst (setConfiguration st config now) in
  let stored := snd (setConfiguration st config now) in
  (forall key, getConfiguration st' key
               = if str_eqb key (newKey config) then Some stored else getConfiguration st key)
  /\ cfgValue stored = newValue config
  /\ cfgUpdatedAt stored = now
  /\ match getConfiguration st (newKey config) with
     | Some existing =>
         cfgId stored = cfgId existing
         /\ cfgKey stored = cfgKey existing
         /\ cfgDescription stored = cfgDescription existing
         /\ cfgCreatedAt stored = cfgCreatedAt existing
         /\ currentConfigId st' = currentConfigId st
         /\ map fst (configurations st') = map fst (configurations st)
     | None =>
         cfgId stored = currentConfigId st
         /\ cfgKey stored = newKey config
         /\ cfgDescription stored = newDescription config
         /\ cfgCreatedAt stored = now
         /\ currentConfigId st' = (currentConfigId st + 1)%Z
         /\ configurations st' = configurations st ++ [(newKey config, stored)]
     end.
Proof.
  unfold getConfiguration, setConfiguration.
  destruct (get str_eqb (newKey config) (configurations st)) as [existing|] eqn:E; cbn.
  - repeat split.
    + intros key. apply (get_set _ str_eqb_eq).
    + now apply (set_present_keys str_eqb _ _ existing).
  - repeat split.
    + intros key. apply (get_set _ str_eqb_eq).
    + now apply set_absent.
Qed.

(** X20.  [updateConfiguration] with a key that is not stored changes
    nothing and returns [undefined]: it never creates a row.  Otherwise the
    row keeps everything but its value and its update time, and no other
    key is affected. *)
Theorem updateConfiguration_effect (st : MemStorage) (key value : jsstring) (now : timestamp) :
  match getConfiguration st key with
  | None => updateConfiguration st key value now = (st, None)
  | Some config =>
      let st' := fst (updateConfiguration st key value now) in
      let updated :=
        mkConfiguration (cfgId config) (cfgKey config) value (cfgDescription config)
          (cfgCreatedAt config) now in
      snd (updateConfiguration st key value now) = Some updated
      /\ (forall key', getConfiguration st' key'
                       = if str_eqb key' key then Some updated else getConfiguration st key')
      /\ map fst (configurations st') = map fst (configurations st)
      /\ currentConfigId st' = currentConfigId st
  end.
Proof.
  unfold getConfiguration, updateConfiguration.
  destruct (get str_eqb key (configurations st)) as [config|] eqn:E; [|reflexivity].
  cbn. repeat split.
  - intros key'. apply (get_set _ str_eqb_eq).
  - now apply (set_present_keys str_eqb _ _ config).
Qed.

(** ** Optimizations *)

Section SortByTime.
Context {A : Type} (time : A -> Z).
Let later (a b : A) : bool := (time a <? time b)%Z.
Let notBefore (a b : A) : Prop := (time b <= time a)%Z.

Lemma insertSorted_by_time (x : A) (l : list A) :
  Sorted.StronglySorted notBefore l -> Sorted.StronglySorted notBefore (insertSorted later x l).
Proof.
  induction l as [|y l IH]; intros Hs; cbn.
  - repeat constructor.
  - inversion Hs as [|? ? Hl Hy]; subst. unfold later at 1.
    destruct (time x <? time y)%Z eqn:E.
    + apply Z.ltb_lt in E. constructor; [now apply IH|].
      apply Forall_forall. intros z Hz.
      apply (Permutation_in _ (insertSorted_perm later x l)) in Hz.
      destruct Hz as [<-|Hz]; [unfold notBefore; lia|].
      rewrite Forall_forall in Hy. now apply Hy.
    + apply Z.ltb_ge in E. constructor; [exact Hs|].
      constructor; [exact E|].
      eapply Forall_impl; [|exact Hy]. unfold notBefore. intros z Hz. lia.
Qed.

Lemma sort_by_time (l : list A) : Sorted.StronglySorted notBefore (sort later l).
Proof.
  induction l as [|x l IH]; cbn; [constructor|]. now apply insertSorted_by_time.
Qed.

Lemma StronglySorted_split (R : A -> A -> Prop) (n : nat) (l : list A) :
  Sorted.StronglySorted R l ->
  Sorted.StronglySorted R (firstn n l)
  /\ forall a b, In a (firstn n l) -> In b (skipn n l) -> R a b.
Proof.
  revert n. induction l as [|x l IH]; intros n Hs.
  - rewrite firstn_nil, skipn_nil. split; [constructor | intros a b []].
  - destruct n as [|n]; cbn; [split; [constructor | intros a b []]|].
    inversion Hs as [|? ? Hl Hx]; subst. destruct (IH n Hl) as [H1 H2].
    split.
    + constructor; [exact H1|]. apply Forall_forall. intros z Hz.
      rewrite Forall_forall in Hx. apply Hx. eapply firstn_In. exact Hz.
    + intros a b [<-|Ha] Hb; [|now apply H2].
      rewrite Forall_forall in Hx. apply Hx.
      rewrite <- (firstn_skipn n l). apply in_or_app. now right.
Qed.
End SortByTime.

Lemma slice0_firstn {A : Type} (limit : Z) (l : list A) :
  slice0 limit l
  = firstn (if (limit <? 0)%Z then List.length l - Z.to_nat (- limit) else Z.to_nat limit) l.
Proof. unfold slice0. now destruct (limit <? 0)%Z. Qed.

(** X21.  [getRecentOptimizations] lists optimizations from the newest to
    the oldest; the optimizations it leaves out are no newer than any it
    returns.  For a limit that is not negative it returns that many, or all
    when there are fewer; for a negative limit it leaves out that many of
    the oldest. *)
Theorem getRecentOptimizations_newest_first (st : MemStorage) (limit : Z) :
  let recent := getRecentOptimizations st limit in
  let count := List.length (optimizations st) in
  Sorted.StronglySorted (fun a b => (optCreatedAt b <= optCreatedAt a)%Z) recent
  /\ (exists older,
        Permutation (recent ++ older) (values (optimizations st))
        /\ forall a b, In a recent -> In b older -> (optCreatedAt b <= optCreatedAt a)%Z)
  /\ List.length recent
     = if (limit <? 0)%Z then (count - Z.to_nat (- limit))%nat
       else Nat.min (Z.to_nat limit) count.
Proof.
  cbn zeta. unfold getRecentOptimizations. cbn zeta. rewrite slice0_firstn.
  set (sorted := sort _ _).
  assert (Hlen : List.length sorted = List.length (optimizations st)).
  { unfold sorted. rewrite (Permutation_length (sort_perm _ _)). apply length_map. }
  rewrite Hlen.
  set (n := if (limit <? 0)%Z then _ else _).
  destruct (StronglySorted_split
              (fun a b => (optCreatedAt b <= optCreatedAt a)%Z) n sorted) as [H1 H2].
  { apply (sort_by_time optCreatedAt). }
  split; [exact H1|]. split.
  - exists (skipn n sorted). split; [|exact H2].
    rewrite firstn_skipn. apply sort_perm.
  - rewrite length_firstn, Hlen. unfold n. destruct (limit <? 0)%Z; lia.
Qed.

(** * The routes *)

Import Routes.

(** ** Stripping tags *)

Lemma tagFree_without_close (s : jsstring) : ~ In 0x3E s -> tagFree s.
Proof.
  intros H a b -> Hin. apply H. apply in_or_app. right. now right.
Qed.

Lemma tagFree_cons (c : char16) (s : jsstring) : c <> 0x3C -> tagFree s -> tagFree (c :: s).
Proof.
  intros Hc Hs [|x a] b E; injection E as -> E; [congruence|]. exact (Hs _ _ E).
Qed.

Lemma tagFree_tail (c : char16) (s : jsstring) : tagFree (c :: s) -> tagFree s.
Proof. intros H a b ->. exact (H (c :: a) b eq_refl). Qed.

Lemma stripFrom_unclosed (s : jsstring) : forall units,
  ~ In 0x3E s -> stripFrom (Some units) s = rev units ++ s.
Proof.
  induction s as [|c s IH]; intros units H; cbn.
  - now rewrite app_nil_r.
  - destruct (c =? 0x3E) eqn:E.
    + apply N.eqb_eq in E. subst. exfalso. apply H. now left.
    + rewrite IH by (intros Hin; apply H; now right).
      cbn. now rewrite <- app_assoc.
Qed.

Lemma stripFrom_tagFree (s : jsstring) :
  tagFree (stripFrom None s)
  /\ forall units, ~ In 0x3E units -> tagFree (stripFrom (Some units) s).
Proof.
  induction s as [|c s [IH0 IH1]]; cbn.
  - split; [intros [|x a] b E; discriminate E|].
    intros units H. apply tagFree_without_close. now rewrite <- in_rev.
  - split.
    + destruct (c =? 0x3C) eqn:E.
      * apply IH1. intros [H|[]]. apply N.eqb_eq in E. subst. discriminate H.
      * apply tagFree_cons; [|exact IH0]. now apply N.eqb_neq.
    + intros units H. destruct (c =? 0x3E) eqn:E; [exact IH0|].
      apply IH1. intros [->|Hin]; [|now apply H]. discriminate E.
Qed.

Lemma stripFrom_fixes_tagFree (s : jsstring) : tagFree s -> stripFrom None s = s.
Proof.
  induction s as [|c s IH]; intros H; cbn; [reflexivity|].
  destruct (c =? 0x3C) eqn:E.
  - apply N.eqb_eq in E. subst c. now rewrite stripFrom_unclosed by exact (H [] s eq_refl).
  - now rewrite IH by exact (tagFree_tail _ _ H).
Qed.

(** X22.  What [stripHtml] returns holds no U+003C that a U+003E follows,
    so nothing the pattern matches is left; stripping it again changes
    nothing, and a text without such a pair is returned as it is. *)
Theorem stripHtml_leaves_no_tag (html : jsstring) :
  tagFree (stripHtml html)
  /\ stripHtml (stripHtml html) = stripHtml html
  /\ (tagFree html -> stripHtml html = html).
Proof.
  unfold stripHtml. pose proof (proj1 (stripFrom_tagFree html)) as H.
  split; [exact H|]. split; [now apply stripFrom_fixes_tagFree|].
  apply stripFrom_fixes_tagFree.
Qed.

(** The same text, stripped by the matcher of [Regex] with the pattern of
    the source. *)
Example stripHtml_agrees_with_pattern :
  let html := lit "a > b <p class=x>Care for <b>patients</b>.</p> <a<b>c> Rate < 500 <br" in
  bind (Regex.compile (lit "<[^>]*>")) (fun r => Normal (Regex.removeAll r html))
  = Normal (stripHtml html)
  /\ stripHtml html = lit "a > b Care for patients. c> Rate < 500 <br".
Proof. vm_compute. split; reflexivity. Qed.

(** ** Optimizing one job *)

(** X23.  The reply of the route that optimizes one job, for a well-formed
    storage.  With 404 (the parameter is no number or no job has that id)
    and with 500 (the engine throws) the storage is left as it was.  With
    200 the job keeps its id, its place in the listing, its WordPress id
    and its creation time; its title and description are the optimized
    ones, its status is optimized and its score, between 50 and 100, is the
    one of the optimization; no other job changes; one optimization record
    is added, for this job, with the old title and the old score or 0; and
    the configurations are untouched. *)
Theorem optimizeJob_effect (st st' : MemStorage) (param : jsstring)
  (clock : nat -> timestamp) (r : reply (option JobRow * Optimization)) :
  wellFormed st ->
  optimizeJob st param clock = Normal (st', r) ->
  match r with
  | Ok (updated, optimization) =>
      exists id job row record,
        parseInt param = Some id
        /\ getJob st id = Some job
        /\ optimizeJobSEO (posting job) = Normal optimization
        /\ updated = Some row
        /\ (forall id', getJob st' id' = if (id' =? id)%Z then Some row else getJob st id')
        /\ map rowId (getJobs st' None) = map rowId (getJobs st None)
        /\ rowId row = id
        /\ wpJobId row = wpJobId job
        /\ createdAt row = createdAt job
        /\ posting row
           = mkJob (optimizeTitle (title (posting job))) (optimizedContent optimization)
               (company (posting job)) (location (posting job)) (jobType (posting job))
               (category (posting job)) (salary (posting job))
               (Some (optFocusKeyphrase optimization))
               (Some (optMetaDescription optimization))
        /\ status row = Some (lit "optimized")
        /\ rowScore row = Some (seoScore optimization)
        /\ (50 <= seoScore optimization <= 100)%Z
        /\ values (optimizations st') = values (optimizations st) ++ [record]
        /\ getOptimizationsByJobId st' id = getOptimizationsByJobId st id ++ [record]
        /\ optJobId record = id
        /\ originalValue record = Some (title (posting job))
        /\ optimizedValue record = title (posting row)
        /\ seoScoreBefore record = Some (scoreOrZero (rowScore job))
        /\ seoScoreAfter record = Some (seoScore optimization)
        /\ configurations st' = configurations st
  | NotFound =>
      st' = st
      /\ match parseInt param with
         | Some id => getJob st id = None
         | None => True
         end
  | ServerError =>
      st' = st
      /\ exists id job e,
           parseInt param = Some id /\ getJob st id = Some job
           /\ optimizeJobSEO (posting job) = Throw e
  | BadRequest => False
  end.
Proof.
  intros [Hj [_ [Ho [Hoc _]]]]. unfold optimizeJob.
  destruct (parseInt param) as [id|]; [|intros H; injection H as <- <-; now split].
  destruct (getJob st id) as [job|] eqn:Ejob; [|intros H; injection H as <- <-; now split].
  destruct (optimizeJobSEO (posting job)) as [optimization|e|] eqn:Eopt; [| |discriminate].
  2: { intros H. injection H as <- <-. split; [reflexivity|]. now exists id, job, e. }
  destruct (optimizeJobSEO_returned _ _ Eopt) as [Hscore [Htitle _]].
  unfold updateJob. unfold getJob in Ejob. rewrite Ejob. cbn.
  pose proof (handedOut_fresh optId _ _ Ho Hoc) as Hfresh.
  intros H. injection H as <- <-.
  exists id, job, (merged job (optimizeUpdate optimization (clock 0%nat)) (clock 1%nat)),
    (snd (createOptimization st (optimizationRecord id job optimization) (clock 2%nat))).
  fields.
  destruct Hscore as [Hlo Hhi].
  repeat split; try reflexivity; try assumption.
  - intros id'. unfold getJob. fields. apply (get_set _ Z.eqb_eq).
  - unfold getJobs, values. fields. rewrite !map_map.
    now apply (set_present_map _ Z.eqb_eq _ _ _ job).
  - exact (keyed_get _ Z.eqb_eq _ _ _ _ Hj Ejob).
  - cbn. now rewrite Htitle.
  - unfold values. rewrite (set_absent Z.eqb _ _ _ Hfresh), map_app. reflexivity.
  - unfold getOptimizationsByJobId, values. fields.
    rewrite (set_absent Z.eqb _ _ _ Hfresh), map_app, filter_app. cbn.
    now rewrite Z.eqb_refl.
Qed.

Lemma optimizeJob_effect_example :
  exists st', optimizeJob exampleStorage (lit "2") Z.of_nat = Normal (st', ServerError)
              /\ st' = exampleStorage.
Proof.
  exists exampleStorage. split; [vm_compute; reflexivity|].
  exact (proj1 (optimizeJob_effect exampleStorage exampleStorage (lit "2") Z.of_nat ServerError
                  exampleStorage_wellFormed ltac:(vm_compute; reflexivity))).
Defined.

(** ** Optimizing the pending jobs *)

Import RoutesSpec.

Lemma updateJob_frame (st : MemStorage) (id id' : Z) (jobUpdate : JobUpdate) (now : timestamp) :
  id' <> id -> getJob (fst (updateJob st id jobUpdate now)) id' = getJob st id'.
Proof.
  intros H. unfold updateJob, getJob. destruct (get Z.eqb id (jobs st)); [|reflexivity].
  fields. rewrite (get_set _ Z.eqb_eq). now rewrite (proj2 (Z.eqb_neq id' id) H).
Qed.

Lemma updateJob_others (st : MemStorage) (id : Z) (jobUpdate : JobUpdate) (now : timestamp) :
  optimizations (fst (updateJob st id jobUpdate now)) = optimizations st
  /\ configurations (fst (updateJob st id jobUpdate now)) = configurations st.
Proof. unfold updateJob. destruct (get Z.eqb id (jobs st)); split; reflexivity. Qed.

Lemma processJobs_outcomes (clock : nat -> timestamp) (batch : list JobRow) :
  forall k st st' results,
  wellFormed st ->
  NoDup (map rowId batch) ->
  (forall job, In job batch -> getJob st (rowId job) = Some job) ->
  processJobs batch k clock st = Normal (st', results) ->
  wellFormed st'
  /\ Forall2 (reported st') batch results
  /\ (forall id, ~ In id (map rowId batch) -> getJob st' id = getJob st id)
  /\ List.length (optimizations st')
     = (List.length (optimizations st) + List.length (filter succeeded results))%nat
  /\ configurations st' = configurations st.
Proof.
  induction batch as [|job rest IH]; intros k st st' results Hwf Hnd Hrows; cbn [processJobs].
  - intros H. injection H as <- <-.
    split; [exact Hwf|]. split; [constructor|]. split; [reflexivity|].
    split; [cbn; lia | reflexivity].
  - inversion Hnd as [|? ? Hnotin Hnd']; subst.
    pose proof (Hrows job (or_introl eq_refl)) as Hjob.
    destruct (optimizeJobSEO (posting job)) as [optimization|e|] eqn:Eopt; [| |discriminate].
    + set (st1 := fst (updateJob st (rowId job) _ _)).
      set (st2 := fst (createOptimization st1 _ _)).
      destruct (processJobs rest (S (S (S k))) clock st2) as [[st3 results']| |] eqn:Erest;
        cbn [bind]; try discriminate.
      intros H. injection H as <- <-. cbn [fst snd].
      assert (Hwf1 : wellFormed st1) by apply wellFormed_updateJob, Hwf.
      assert (Hwf2 : wellFormed st2) by apply wellFormed_createOptimization, Hwf1.
      assert (Hget2 : forall id, getJob st2 id = getJob st1 id) by reflexivity.
      assert (Hrows2 : forall job', In job' rest -> getJob st2 (rowId job') = Some job').
      { intros job' Hin. rewrite Hget2. unfold st1. rewrite updateJob_frame.
        - apply Hrows. now right.
        - intros Heq. apply Hnotin. rewrite <- Heq. now apply in_map. }
      destruct (IH _ _ _ _ Hwf2 Hnd' Hrows2 Erest) as [Hwf3 [Hrep [Hframe [Hlen Hcfg]]]].
      destruct (optimizeJobSEO_returned _ _ Eopt) as [Hscore [Htitle _]].
      split; [exact Hwf3|]. split; [|split; [|split]].
      * constructor; [|exact Hrep]. cbn [reported].
        split; [reflexivity|]. split; [now exists optimization|]. split; [exact Hscore|].
        rewrite (Hframe _ Hnotin), Hget2. unfold st1, updateJob.
        unfold getJob in Hjob. rewrite Hjob. unfold getJob. fields.
        rewrite (get_set _ Z.eqb_eq), Z.eqb_refl.
        eexists. split; [reflexivity|]. cbn. now rewrite Htitle.
      * intros id Hid. cbn [map In] in Hid.
        rewrite Hframe by tauto. rewrite Hget2. unfold st1.
        apply updateJob_frame. intros ->. tauto.
      * rewrite Hlen. cbn [filter succeeded List.length].
        destruct Hwf1 as [_ [_ [Ho [Hoc _]]]].
        unfold st2, createOptimization. fields.
        rewrite (set_absent Z.eqb _ _ _ (handedOut_fresh optId _ _ Ho Hoc)), length_app.
        unfold st1. rewrite (proj1 (updateJob_others _ _ _ _)). cbn [List.length]. lia.
      * rewrite Hcfg. unfold st2, st1. cbn [createOptimization fst configurations].
        apply updateJob_others.
    + destruct (processJobs rest k clock st) as [[st3 results']| |] eqn:Erest;
        cbn [bind]; try discriminate.
      intros H. injection H as <- <-. cbn [fst snd].
      assert (Hrows' : forall job', In job' rest -> getJob st (rowId job') = Some job')
        by (intros job' Hin; apply Hrows; now right).
      destruct (IH _ _ _ _ Hwf Hnd' Hrows' Erest) as [Hwf3 [Hrep [Hframe [Hlen Hcfg]]]].
      split; [exact Hwf3|]. split; [|split; [|split]].
      * constructor; [|exact Hrep]. cbn [reported].
        split; [reflexivity|]. split; [now exists e|].
        now rewrite (Hframe _ Hnotin).
      * intros id Hid. cbn [map In] in Hid. apply Hframe. tauto.
      * exact Hlen.
      * exact Hcfg.
Qed.

Lemma NoDup_map_filter {A B : Type} (key : A -> B) (keep : A -> bool) (rows : list A) :
  NoDup (map key rows) -> NoDup (map key (filter keep rows)).
Proof.
  induction rows as [|x rows IH]; cbn; [auto|]. intros H.
  inversion H as [|? ? Hnotin Hnd]; subst.
  destruct (keep x); [|auto]. cbn. constructor; [|auto].
  intros Hin. apply Hnotin. apply in_map_iff in Hin. destruct Hin as [y [Hy Hin]].
  apply in_map_iff. exists y. split; [exact Hy|]. now apply filter_In in Hin.
Qed.

Lemma NoDup_map_firstn {A B : Type} (f : A -> B) (n : nat) (l : list A) :
  NoDup (map f l) -> NoDup (map f (firstn n l)).
Proof.
  revert n. induction l as [|x l IH]; intros [|n] H; cbn; try constructor.
  - inversion H as [|? ? Hnotin Hnd]; subst.
    intros Hin. apply Hnotin. apply in_map_iff in Hin. destruct Hin as [y [Hy Hin]].
    apply in_map_iff. exists y. split; [exact Hy|]. eapply firstn_In. exact Hin.
  - inversion H; subst. now apply IH.
Qed.

Lemma slice0_In {A : Type} (limit : Z) (l : list A) (x : A) : In x (slice0 limit l) -> In x l.
Proof. rewrite slice0_firstn. apply firstn_In. Qed.

Lemma values_rowIds (st : MemStorage) :
  keyed rowId (jobs st) -> map rowId (values (jobs st)) = map fst (jobs st).
Proof.
  intros [_ H]. unfold values. rewrite map_map. apply map_ext_in.
  intros e He. rewrite Forall_forall in H. now apply H.
Qed.

Lemma listed_job (st : MemStorage) (job : JobRow) :
  keyed rowId (jobs st) -> In job (values (jobs st)) -> getJob st (rowId job) = Some job.
Proof.
  intros [Hnd H] Hin. apply in_map_iff in Hin. destruct Hin as [[k v] [<- Hin]].
  rewrite Forall_forall in H. rewrite (H _ Hin). cbn.
  now apply (In_get _ Z.eqb_eq).
Qed.

Lemma jobsToProcess_rows (st : MemStorage) :
  wellFormed st ->
  NoDup (map rowId (jobsToProcess st))
  /\ forall job, In job (jobsToProcess st) ->
       getJob st (rowId job) = Some job /\ status job = Some (lit "pending").
Proof.
  intros [Hj _]. unfold jobsToProcess. cbv zeta.
  assert (Hnd : NoDup (map rowId (getJobs st (Some (lit "pending"))))).
  { apply NoDup_map_filter. rewrite values_rowIds by exact Hj. apply Hj. }
  assert (Hin : forall job, In job (getJobs st (Some (lit "pending"))) ->
                  getJob st (rowId job) = Some job /\ status job = Some (lit "pending")).
  { intros job H. apply filter_In in H. destruct H as [H Hs]. split.
    - now apply listed_job.
    - destruct (status job) as [s|]; [|discriminate]. apply str_eqb_eq in Hs. now subst. }
  destruct (batchSize st) as [n|]; [|split; [constructor | intros job []]].
  split.
  - rewrite slice0_firstn. now apply NoDup_map_firstn.
  - intros job H. apply Hin. eapply slice0_In. exact H.
Qed.

Lemma processJobs_length (clock : nat -> timestamp) (batch : list JobRow) :
  forall k st st' results,
  processJobs batch k clock st = Normal (st', results) ->
  List.length results = List.length batch.
Proof.
  induction batch as [|job rest IH]; intros k st st' results; cbn [processJobs].
  - intros H. now injection H as <- <-.
  - destruct (optimizeJobSEO (posting job)); [| |discriminate];
      match goal with
      | |- context [processJobs rest ?k' clock ?s] =>
          destruct (processJobs rest k' clock s) as [[st3 results']| |] eqn:E
      end; cbn [bind]; try discriminate;
      intros H; injection H as <- <-; cbn; f_equal; eapply IH; exact E.
Qed.

(** X24.  The route that optimizes the pending jobs, for a well-formed
    storage.  The batch consists of stored jobs whose status is pending, and
    the reply has one entry for each, in their order.  A job reported as a
    success has the status optimized, the reported score, which lies between
    50 and 100, and the optimized title, and keeps its description; a job
    reported as failed is stored as it was, and so is every job outside the
    batch.  One optimization record is added for each success, the
    configurations are untouched, and a batch size that is not negative
    bounds the number of entries. *)
Theorem optimizeAll_outcomes (st st' : MemStorage) (clock : nat -> timestamp)
  (results : list outcome) :
  wellFormed st ->
  optimizeAll st clock = Normal (st', results) ->
  Forall2 (reported st') (jobsToProcess st) results
  /\ (forall job, In job (jobsToProcess st) ->
        getJob st (rowId job) = Some job /\ status job = Some (lit "pending"))
  /\ (forall id, ~ In id (map rowId (jobsToProcess st)) -> getJob st' id = getJob st id)
  /\ List.length (optimizations st')
     = (List.length (optimizations st) + List.length (filter succeeded results))%nat
  /\ configurations st' = configurations st
  /\ (forall n, batchSize st = Some n -> (0 <= n)%Z ->
        (List.length results <= Z.to_nat n)%nat).
Proof.
  intros Hwf Hrun. unfold optimizeAll in Hrun.
  destruct (jobsToProcess_rows st Hwf) as [Hnd Hrows].
  destruct (processJobs_outcomes clock _ _ _ _ _ Hwf Hnd (fun job H => proj1 (Hrows job H)) Hrun)
    as [_ [Hrep [Hframe [Hlen Hcfg]]]].
  repeat (split; [assumption|]).
  intros n Hn Hpos. rewrite (processJobs_length _ _ _ _ _ _ Hrun).
  unfold jobsToProcess. cbv zeta. rewrite Hn, slice0_firstn.
  destruct (n <? 0)%Z eqn:E; [apply Z.ltb_lt in E; lia|].
  rewrite length_firstn. lia.
Qed.

Lemma optimizeAll_outcomes_example :
  exists st',
    optimizeAll exampleStorage Z.of_nat = Normal (st', [Success 1 100; Failed 2])
    /\ Forall2 (reported st') (jobsToProcess exampleStorage) [Success 1 100; Failed 2].
Proof.
  eexists. split; [vm_compute; reflexivity|].
  refine (proj1 (optimizeAll_outcomes exampleStorage _ Z.of_nat _
                   exampleStorage_wellFormed _)).
  vm_compute. reflexivity.
Defined.

Lemma processJobs_all_fail (clock : nat -> timestamp) (batch : list JobRow) :
  forall k st,
  (forall job, In job batch -> exists e, optimizeJobSEO (posting job) = Throw e) ->
  processJobs batch k clock st = Normal (st, map (fun job => Failed (rowId job)) batch).
Proof.
  induction batch as [|job rest IH]; intros k st H; cbn [processJobs map]; [reflexivity|].
  destruct (H job (or_introl eq_refl)) as [e ->].
  rewrite IH by (intros job' Hin; apply H; now right). reflexivity.
Qed.

(** X25.  When the engine throws on every job of the batch, the route
    reports each of them as failed and leaves the storage as it was.  The
    next request therefore meets the same batch: the pending jobs behind it
    are not reached until the jobs of the batch are changed or deleted. *)
Theorem optimizeAll_blocked (st : MemStorage) (clock : nat -> timestamp) :
  (forall job, In job (jobsToProcess st) ->
     exists e, optimizeJobSEO (posting job) = Throw e) ->
  optimizeAll st clock
  = Normal (st, map (fun job => Failed (rowId job)) (jobsToProcess st)).
Proof. intros H. now apply processJobs_all_fail. Qed.

Lemma optimizeAll_blocked_example :
  map rowId (getJobs blockedStorage (Some (lit "pending"))) = [1; 2]%Z
  /\ optimizeAll blockedStorage Z.of_nat = Normal (blockedStorage, [Failed 1]).
Proof.
  split; [vm_compute; reflexivity|].
  apply (optimizeAll_blocked blockedStorage Z.of_nat).
  intros job Hin. vm_compute in Hin. destruct Hin as [<-|[]].
  exists SyntaxError. vm_compute. reflexivity.
Defined.

(** ** Synchronizing with WordPress *)

Lemma createJob_listing (st : MemStorage) (insertJob : InsertJob) (now : timestamp) :
  wellFormed st ->
  jobs (fst (createJob st insertJob now))
  = jobs st ++ [(currentJobId st, snd (createJob st insertJob now))].
Proof.
  intros [Hj [Hjc _]]. cbn. apply set_absent. exact (handedOut_fresh rowId _ _ Hj Hjc).
Qed.

Lemma createJob_keeps (st : MemStorage) (insertJob : InsertJob) (now : timestamp)
  (id : Z) (job : JobRow) :
  getJob st id = Some job -> wellFormed st ->
  getJob (fst (createJob st insertJob now)) id = Some job.
Proof.
  intros Hget [Hj [Hjc _]]. unfold getJob in *. cbn. rewrite (get_set _ Z.eqb_eq).
  destruct (id =? currentJobId st)%Z eqn:E; [|exact Hget].
  apply Z.eqb_eq in E. subst id.
  now rewrite (handedOut_fresh rowId _ _ Hj Hjc) in Hget.
Qed.

Lemma find_last {A : Type} (p : A -> bool) (l : list A) (x : A) :
  find p (l ++ [x]) = match find p l with
                      | Some y => Some y
                      | None => if p x then Some x else None
                      end.
Proof.
  induction l as [|y l IH]; cbn; [reflexivity|]. now destruct (p y).
Qed.

Lemma getJobByWpId_createJob (st : MemStorage) (insertJob : InsertJob) (now : timestamp)
  (w : Z) :
  wellFormed st ->
  getJobByWpId (fst (createJob st insertJob now)) w
  = match getJobByWpId st w with
    | Some job => Some job
    | None => if (newWpJobId insertJob =? w)%Z then Some (snd (createJob st insertJob now))
              else None
    end.
Proof.
  intros Hwf. unfold getJobByWpId, values. rewrite (createJob_listing _ _ _ Hwf), map_app.
  cbn [map snd]. rewrite find_last. reflexivity.
Qed.

Lemma getJobByWpId_None (st : MemStorage) (w : Z) :
  getJobByWpId st w = None -> ~ In w (map wpJobId (values (jobs st))).
Proof.
  unfold getJobByWpId. intros H Hin. apply in_map_iff in Hin. destruct Hin as [job [<- Hin]].
  pose proof (find_none _ _ H _ Hin) as Hf. cbn in Hf. now rewrite Z.eqb_refl in Hf.
Qed.

Lemma syncEach_again (wpJobs : list WPJob) (k : nat) (clock : nat -> timestamp)
  (st : MemStorage) :
  (forall wpJob, In wpJob wpJobs -> getJobByWpId st (wpId wpJob) <> None) ->
  syncEach wpJobs k clock st = (st, O).
Proof.
  induction wpJobs as [|wpJob rest IH]; intros H; cbn [syncEach]; [reflexivity|].
  pose proof (H wpJob (or_introl eq_refl)) as Hhead.
  destruct (getJobByWpId st (wpId wpJob)); [|congruence].
  apply IH. intros wpJob' Hin. apply H. now right.
Qed.

Lemma syncEach_effect (clock : nat -> timestamp) (wpJobs : list WPJob) :
  forall k st st' n,
  wellFormed st ->
  syncEach wpJobs k clock st = (st', n) ->
  wellFormed st'
  /\ (forall id job, getJob st id = Some job -> getJob st' id = Some job)
  /\ (forall w job, getJobByWpId st w = Some job -> getJobByWpId st' w = Some job)
  /\ (forall wpJob, In wpJob wpJobs -> getJobByWpId st' (wpId wpJob) <> None)
  /\ (forall id job, getJob st' id = Some job -> getJob st id = None ->
        status job = Some (lit "pending")
        /\ rowScore job = None
        /\ tagFree (description (posting job))
        /\ exists wpJob, In wpJob wpJobs /\ wpJobId job = wpId wpJob)
  /\ List.length (jobs st') = (List.length (jobs st) + n)%nat
  /\ (n <= List.length wpJobs)%nat
  /\ (NoDup (map wpJobId (values (jobs st))) -> NoDup (map wpJobId (values (jobs st'))))
  /\ optimizations st' = optimizations st
  /\ configurations st' = configurations st.
Proof.
  induction wpJobs as [|wpJob rest IH]; intros k st st' n Hwf; cbn [syncEach].
  - intros H. injection H as <- <-.
    split; [exact Hwf|]. split; [auto|]. split; [auto|]. split; [intros wpJob []|].
    split; [intros id job H1 H2; congruence|]. split; [lia|]. split; [cbn; lia|]. auto.
  - destruct (getJobByWpId st (wpId wpJob)) as [found|] eqn:Efound.
    + intros H. destruct (IH _ _ _ _ Hwf H) as [H1 [H2 [H3 [H4 [H5 [H6 [H7 H8]]]]]]].
      split; [exact H1|]. split; [exact H2|]. split; [exact H3|].
      split; [|split; [|split; [exact H6 | split; [cbn [List.length]; lia | exact H8]]]].
      * intros wpJob' [<-|Hin]; [|now apply H4].
        rewrite (H3 _ _ Efound). discriminate.
      * intros id job Hj Hn. destruct (H5 id job Hj Hn) as [Hs [Hr [Ht [wp [Hin Hw]]]]].
        repeat split; auto. exists wp. split; [now right | exact Hw].
    + set (st1 := fst (createJob st (jobData wpJob) (clock k))).
      destruct (syncEach rest (S k) clock st1) as [st2 m] eqn:Erest.
      intros H. injection H as <- <-.
      assert (Hwf1 : wellFormed st1) by apply wellFormed_createJob, Hwf.
      destruct (IH _ _ _ _ Hwf1 Erest) as [H1 [H2 [H3 [H4 [H5 [H6 [H7 [H8 [H9 H10]]]]]]]]].
      pose proof (fun w => getJobByWpId_createJob st (jobData wpJob) (clock k) w Hwf) as Hwp.
      fold st1 in Hwp.
      split; [exact H1|]. split; [|split; [|split; [|split; [|split; [|split; [|split]]]]]].
      * intros id job Hget. apply H2. unfold st1. now apply createJob_keeps.
      * intros w job Hget. apply H3. rewrite Hwp. now rewrite Hget.
      * intros wpJob' [<-|Hin]; [|now apply H4].
        assert (Hnew : getJobByWpId st1 (wpId wpJob)
                       = Some (snd (createJob st (jobData wpJob) (clock k)))).
        { rewrite Hwp, Efound. cbn. now rewrite Z.eqb_refl. }
        rewrite (H3 _ _ Hnew). discriminate.
      * intros id job Hget Hnone.
        destruct (getJob st1 id) as [job1|] eqn:E1.
        -- rewrite (H2 _ _ E1) in Hget. injection Hget as <-.
           unfold st1, getJob in E1. cbn in E1. rewrite (get_set _ Z.eqb_eq) in E1.
           unfold getJob in Hnone. rewrite Hnone in E1.
           destruct (id =? currentJobId st)%Z; [|discriminate]. injection E1 as <-.
           cbn. repeat split.
           ++ apply stripFrom_tagFree.
           ++ exists wpJob. split; [now left | reflexivity].
        -- destruct (H5 id job Hget E1) as [Hs [Hr [Ht [wp [Hin Hw]]]]].
           repeat split; auto. exists wp. split; [now right | exact Hw].
      * rewrite H6. unfold st1. rewrite (createJob_listing _ _ _ Hwf), length_app.
        cbn [List.length]. lia.
      * cbn [List.length]. lia.
      * intros Hnd. apply H8. unfold st1, values.
        rewrite (createJob_listing _ _ _ Hwf), !map_app. cbn [map snd].
        apply NoDup_app; [exact Hnd | repeat constructor; intros [] |].
        intros w Hin [<-|[]]. now apply (getJobByWpId_None st _ Efound).
      * split; [now rewrite H9 | now rewrite H10].
Qed.

(** X26.  The route that synchronizes with WordPress, for a well-formed
    storage.  With 400 (a credential is not stored) and with 500 (the fetch
    fails) the storage is left as it was.  With 200 every job stored before
    is stored unchanged, so an entry whose WordPress id is known updates
    nothing; every fetched entry has a job with its WordPress id; each
    added job is pending, has no score, comes from a fetched entry and has
    a description without tags; the count in the reply is the number of
    added jobs; WordPress ids that were distinct stay distinct; and
    fetching the same entries again adds nothing. *)
Theorem syncJobs_effect (st st' : MemStorage) (fetched : option (list WPJob))
  (clock : nat -> timestamp) (r : reply nat) :
  wellFormed st ->
  syncJobs st fetched clock = (st', r) ->
  match r with
  | Ok syncedCount =>
      exists wpJobs,
        fetched = Some wpJobs
        /\ (forall id job, getJob st id = Some job -> getJob st' id = Some job)
        /\ (forall wpJob, In wpJob wpJobs -> getJobByWpId st' (wpId wpJob) <> None)
        /\ (forall id job, getJob st' id = Some job -> getJob st id = None ->
              status job = Some (lit "pending")
              /\ rowScore job = None
              /\ tagFree (description (posting job))
              /\ exists wpJob, In wpJob wpJobs /\ wpJobId job = wpId wpJob)
        /\ List.length (jobs st') = (List.length (jobs st) + syncedCount)%nat
        /\ (NoDup (map wpJobId (values (jobs st))) ->
            NoDup (map wpJobId (values (jobs st'))))
        /\ forall clock', syncJobs st' fetched clock' = (st', Ok O)
  | BadRequest =>
      st' = st
      /\ (getConfiguration st (lit "wp_site_url") = None
          \/ getConfiguration st (lit "wp_username") = None
          \/ getConfiguration st (lit "wp_application_password") = None)
  | ServerError => st' = st /\ fetched = None
  | NotFound => False
  end.
Proof.
  intros Hwf. unfold syncJobs.
  destruct (getConfiguration st (lit "wp_site_url")) as [url|] eqn:Eurl;
    [|intros H; injection H as <- <-; auto].
  destruct (getConfiguration st (lit "wp_username")) as [user|] eqn:Euser;
    [|intros H; injection H as <- <-; auto].
  destruct (getConfiguration st (lit "wp_application_password")) as [password|] eqn:Epass;
    [|intros H; injection H as <- <-; auto].
  destruct fetched as [wpJobs|]; [|intros H; injection H as <- <-; auto].
  destruct (syncEach wpJobs 0 clock st) as [st1 n] eqn:Esync.
  intros H. injection H as <- <-.
  destruct (syncEach_effect _ _ _ _ _ _ Hwf Esync)
    as [_ [H2 [_ [H4 [H5 [H6 [_ [H8 [_ H10]]]]]]]]].
  exists wpJobs. repeat (split; [assumption || reflexivity|]).
  intros clock'. unfold getConfiguration in *. rewrite H10, Eurl, Euser, Epass.
  now rewrite syncEach_again.
Qed.

Lemma syncJobs_effect_example :
  exists st',
    syncJobs connectedStorage (Some fetchedJobs) Z.of_nat = (st', Ok 1%nat)
    /\ map wpJobId (getJobs st' None) = [101; 102; 200]%Z
    /\ forall clock', syncJobs st' (Some fetchedJobs) clock' = (st', Ok O).
Proof.
  eexists. split; [vm_compute; reflexivity|]. split; [vm_compute; reflexivity|].
  assert (Hwf : wellFormed connectedStorage).
  { unfold connectedStorage, testWordPress. cbn [negb nonEmpty lit orb fst].
    repeat apply wellFormed_setConfiguration. apply exampleStorage_wellFormed. }
  destruct (syncJobs_effect connectedStorage _ (Some fetchedJobs) Z.of_nat (Ok 1%nat) Hwf
              ltac:(vm_compute; reflexivity)) as [wpJobs [_ [_ [_ [_ [_ [_ H]]]]]]].
  exact H.
Defined.

(** ** Saving the credentials *)

Lemma getConfiguration_setConfiguration (st : MemStorage) (config : InsertConfiguration)
  (now : timestamp) (key : jsstring) :
  getConfiguration (fst (setConfiguration st config now)) key
  = if str_eqb key (newKey config) then Some (snd (setConfiguration st config now))
    else getConfiguration st key.
Proof.
  unfold getConfiguration, setConfiguration.
  destruct (get str_eqb (newKey config) (configurations st)); cbn; apply (get_set _ str_eqb_eq).
Qed.

Lemma setConfiguration_value (st : MemStorage) (config : InsertConfiguration)
  (now : timestamp) :
  cfgValue (snd (setConfiguration st config now)) = newValue config.
Proof.
  unfold setConfiguration. now destruct (get str_eqb (newKey config) (configurations st)).
Qed.

Lemma setConfiguration_others (st : MemStorage) (config : InsertConfiguration)
  (now : timestamp) :
  jobs (fst (setConfiguration st config now)) = jobs st
  /\ optimizations (fst (setConfiguration st config now)) = optimizations st.
Proof.
  unfold setConfiguration. now destruct (get str_eqb (newKey config) (configurations st)).
Qed.

Lemma stored_value_listed (st : MemStorage) (key : jsstring) (config : Configuration) :
  getConfiguration st key = Some config -> In (cfgValue config) (map cfgValue (getConfigurations st)).
Proof.
  intros H. apply (get_In _ str_eqb_eq) in H. apply in_map. unfold getConfigurations, values.
  change config with (snd (key, config)). now apply in_map.
Qed.

(** X27.  The route that tests a WordPress connection replies 400 and
    leaves the storage as it was when a credential is empty or the
    connection fails.  Otherwise it stores the three credentials as they
    were sent and touches no other key, no job and no optimization;
    afterwards the listing of the configurations holds the application
    password, and the route that synchronizes no longer replies 400. *)
Theorem testWordPress_effect (st : MemStorage) (siteUrl username applicationPassword : jsstring)
  (connected : bool) (clock : nat -> timestamp) :
  let st' := fst (testWordPress st siteUrl username applicationPassword connected clock) in
  match snd (testWordPress st siteUrl username applicationPassword connected clock) with
  | Ok _ =>
      connected = true /\ siteUrl <> [] /\ username <> [] /\ applicationPassword <> []
      /\ option_map cfgValue (getConfiguration st' (lit "wp_site_url")) = Some siteUrl
      /\ option_map cfgValue (getConfiguration st' (lit "wp_username")) = Some username
      /\ option_map cfgValue (getConfiguration st' (lit "wp_application_password"))
         = Some applicationPassword
      /\ (forall key, ~ In key [lit "wp_site_url"; lit "wp_username";
                                lit "wp_application_password"] ->
            getConfiguration st' key = getConfiguration st key)
      /\ jobs st' = jobs st
      /\ optimizations st' = optimizations st
      /\ In applicationPassword (map cfgValue (getConfigurations st'))
      /\ forall fetched clock', snd (syncJobs st' fetched clock') <> BadRequest
  | BadRequest => st' = st
  | NotFound | ServerError => False
  end.
Proof.
  unfold testWordPress.
  destruct siteUrl as [|c1 s1]; [reflexivity|].
  destruct username as [|c2 s2]; [reflexivity|].
  destruct applicationPassword as [|c3 s3]; [reflexivity|].
  destruct connected; [|reflexivity].
  cbn [nonEmpty negb orb fst snd].
  set (st1 := fst (setConfiguration st _ (clock 0%nat))).
  set (st2 := fst (setConfiguration st1 _ (clock 1%nat))).
  set (st3 := fst (setConfiguration st2 _ (clock 2%nat))).
  assert (H3 : forall key, getConfiguration st3 key
                 = if str_eqb key (lit "wp_application_password")
                   then Some (snd (setConfiguration st2
                                     (mkInsertConfiguration (lit "wp_application_password")
                                        (c3 :: s3)
                                        (Some (lit "WordPress application password")))
                                     (clock 2%nat)))
                   else getConfiguration st2 key)
    by (intros key; apply getConfiguration_setConfiguration).
  assert (H2 : forall key, getConfiguration st2 key
                 = if str_eqb key (lit "wp_username")
                   then Some (snd (setConfiguration st1
                                     (mkInsertConfiguration (lit "wp_username") (c2 :: s2)
                                        (Some (lit "WordPress username")))
                                     (clock 1%nat)))
                   else getConfiguration st1 key)
    by (intros key; apply getConfiguration_setConfiguration).
  assert (H1 : forall key, getConfiguration st1 key
                 = if str_eqb key (lit "wp_site_url")
                   then Some (snd (setConfiguration st
                                     (mkInsertConfiguration (lit "wp_site_url") (c1 :: s1)
                                        (Some (lit "WordPress site URL")))
                                     (clock 0%nat)))
                   else getConfiguration st key)
    by (intros key; apply getConfiguration_setConfiguration).
  assert (Hurl : option_map cfgValue (getConfiguration st3 (lit "wp_site_url")) = Some (c1 :: s1)).
  { rewrite H3, H2, H1. cbn [str_eqb lit]. cbn. now rewrite setConfiguration_value. }
  assert (Huser : option_map cfgValue (getConfiguration st3 (lit "wp_username")) = Some (c2 :: s2)).
  { rewrite H3, H2. cbn. now rewrite setConfiguration_value. }
  assert (Hpass : option_map cfgValue (getConfiguration st3 (lit "wp_application_password"))
                  = Some (c3 :: s3)).
  { rewrite H3. cbn. now rewrite setConfiguration_value. }
  split; [reflexivity|]. do 3 (split; [discriminate|]).
  do 3 (split; [assumption|]).
  split; [|split; [|split; [|split]]].
  - intros key Hkey. cbn [In] in Hkey. rewrite H3, H2, H1.
    repeat match goal with
           | |- context [str_eqb key ?k] =>
               let E := fresh "E" in
               destruct (str_eqb key k) eqn:E;
               [apply str_eqb_eq in E; subst key; exfalso; tauto|]
           end.
    reflexivity.
  - unfold st3, st2, st1. now rewrite !(proj1 (setConfiguration_others _ _ _)).
  - unfold st3, st2, st1. now rewrite !(proj2 (setConfiguration_others _ _ _)).
  - destruct (getConfiguration st3 (lit "wp_application_password")) as [config|] eqn:E;
      [|discriminate Hpass].
    injection Hpass as <-. exact (stored_value_listed _ _ _ E).
  - intros fetched clock'. unfold syncJobs.
    destruct (getConfiguration st3 (lit "wp_site_url")); [|discriminate Hurl].
    destruct (getConfiguration st3 (lit "wp_username")); [|discriminate Huser].
    destruct (getConfiguration st3 (lit "wp_application_password")); [|discriminate Hpass].
    destruct fetched as [wpJobs|]; [|discriminate].
    destruct (syncEach wpJobs 0 clock' st3). discriminate.
Qed.

(** ** The id of a request *)









